(** * TurboRacers race engine: a shallow embedding of [race-engine-starter.js]

    The race engine reads a roster, then repeats a tick: advance every
    unfinished racer, sort by distance, detect overtakes against the order of
    the previous tick, run the crash pass and the finish pass, and stop once
    every racer is finished.  Every event re-prices the racer with
    [applyPercentBigInt] and posts the new price.

    Numbers.  A JavaScript number is an IEEE 754 binary64 value, which is
    what Rocq's primitive [float] is; distances and random draws are floats
    and the arithmetic below is the engine's, operation for operation.  A
    price is a [BigInt] parsed from the decimal wei string and printed back;
    it is modelled by the integer the string denotes. *)

From Stdlib Require Import ZArith List Bool Lia String Permutation Sorted.
From Stdlib Require Import Floats DecimalString.
Import ListNotations.

Local Open Scope Z_scope.

(** ** Configuration constants *)

Definition RACE_DISTANCE : float := 5000%float.
Definition BASE_DRIFT : float := 5%float.

Definition OVERTAKE_BONUS_PCT : Z := 10.
Definition CRASH_PENALTY_PCT : Z := 20.
Definition WINNER_BONUS_PCT : Z := 5.

(** ** JavaScript numbers *)

(** A game stat is an integer in [0, 255] (a [uint8] of the registry); this
    is the number it denotes. *)
Definition num (z : Z) : float := PrimFloat.of_uint63 (Uint63.of_Z z).

(** [Math.max(a, b)]: NaN if either argument is NaN, and [+0] beats [-0]. *)
Definition Math_max (a b : float) : float :=
  if (PrimFloat.is_nan a || PrimFloat.is_nan b)%bool then PrimFloat.nan
  else if (a <? b)%float then b
  else if (b <? a)%float then a
  else if PrimFloat.get_sign a then b else a.

(** ** Percentage arithmetic on prices *)

(** [applyPercentBigInt(weiStr, pct, increase)].  BigInt division truncates
    toward zero, which is [Z.quot]. *)
Definition applyPercentBigInt (val pct : Z) (increase : bool) : Z :=
  let change := Z.quot (val * pct) 100 in
  if increase then val + change else val - change.

(** ** Speed of one racer in one tick *)

(** [x || 100] on a stat: [0] is falsy. *)
Definition orDefault (x dflt : Z) : Z := if x =? 0 then dflt else x.

(** [racerSpeedTick(racer)].  [u1] and [u2] are the two values of
    [Math.random()], in the order the function draws them. *)
Definition racerSpeedTick (speed aggression consistency : Z) (u1 u2 : float) : float :=
  let consistencyFactor := (num (orDefault consistency 100) / 200)%float in
  let noise := ((u1 * BASE_DRIFT * (1 - consistencyFactor))
                - (BASE_DRIFT / 2) * (1 - consistencyFactor))%float in
  let aggressionBurst :=
    if (u2 <? num aggression / 500)%float then (num aggression / 20)%float else 0%float in
  Math_max 0 (num speed + aggressionBurst + noise).

(** ** Race state *)

(** One element of the [state] array of [runRace]. *)
Record Racer := mkRacer {
  id : Z;
  name : string;
  speedStat : Z;
  aggression : Z;
  consistency : Z;
  distance : float;
  finished : bool;
  currentPriceWei : Z
}.

Definition set_distance (d : float) (r : Racer) : Racer :=
  mkRacer (id r) (name r) (speedStat r) (aggression r) (consistency r)
          d (finished r) (currentPriceWei r).

Definition set_finished (b : bool) (r : Racer) : Racer :=
  mkRacer (id r) (name r) (speedStat r) (aggression r) (consistency r)
          (distance r) b (currentPriceWei r).

Definition set_currentPriceWei (p : Z) (r : Racer) : Racer :=
  mkRacer (id r) (name r) (speedStat r) (aggression r) (consistency r)
          (distance r) (finished r) p.

(** A racer as [GET /racers] returns it. *)
Record Entity := mkEntity {
  e_id : Z;
  e_name : string;
  e_speed : Z;
  e_aggression : Z;
  e_consistency : Z;
  e_currentPrice : Z
}.

(** The array [state], its ad hoc property [state._lastOrder] (absent until
    the first sort) and the loop counter [tick]. *)
Record RaceState := mkRaceState {
  state : list Racer;
  lastOrder : option (list Z);
  tick : nat
}.

(** ** The world outside the loop and the engine's monad *)

Inductive PriceCause := ByOvertake | ByCrash | ByFinish.

(** What the engine prints.  An event line stands for the branch that prints
    it, and carries the id that branch posts; [TxLogged c shown] is the line
    after a write that went through, [shown] being [res.txHash] when that is
    truthy and absent when the whole of [res] is printed; [WriteFailed c msg]
    is the line of the [catch], with the [e.message] it prints;
    [FinalRanking] stands for the ranking printed at the exit, [Fetching],
    [NoRacers], [Roster] and [Starting] for the lines printed before the
    loop. *)
Inductive Line :=
| Overtake (t : nat) (racer : Z) (oldRank newRank : Z)
| Crash (t : nat) (racer : Z)
| Finish (t : nat) (racer : Z)
| TxLogged (c : PriceCause) (shown : option string)
| WriteFailed (c : PriceCause) (msg : string)
| FinalRanking (order : list Z)
| Fetching
| NoRacers
| Roster (entries : list (Z * string))
| Starting.

(** What the engine reads of the value that [res.json()] resolves to:
    [null], on which reading [res.txHash] throws, or another value, with its
    [txHash] when that is truthy. *)
Inductive Reply :=
| ReplyNull
| ReplyValue (txHash : option string).

(** How a call ends: with a value, or with an exception, of which the
    message is kept. *)
Inductive Result (A : Type) :=
| Ok (a : A)
| Throw (e : string).
Arguments Ok {A} a.
Arguments Throw {A} e.

(** A response as [postUpdatePrice] reads it: [res.status], what
    [res.text()] resolves to (absent when it rejects) and what [res.json()]
    resolves to or the message it rejects with. *)
Record FetchResponse := mkFetchResponse {
  res_status : Z;
  res_text : option string;
  res_json : Result Reply
}.

(** [res.ok] *)
Definition res_ok (res : FetchResponse) : bool :=
  (200 <=? res_status res) && (res_status res <=? 299).

(** What [fetch] does with a request: it rejects with an error, or resolves
    to a response. *)
Inductive Answer :=
| Rejected (message : string)
| Responded (res : FetchResponse).

(** [draws] is the sequence of values of [Math.random()] and [drawn] how
    many were consumed; [net k] is what [fetch] does in the [k]-th call of
    [postUpdatePrice]; [posted] are the requests handed to [fetch] and
    [console] the lines printed, both newest first. *)
Record World := mkWorld {
  draws : nat -> float;
  drawn : nat;
  net : nat -> Answer;
  posted : list (Z * Z);
  console : list Line
}.

Definition M (A : Type) : Type := World -> Result A * World.

Definition ret {A} (a : A) : M A := fun w => (Ok a, w).

Definition bind {A B} (m : M A) (f : A -> M B) : M B :=
  fun w => match m w with
           | (Ok a, w') => f a w'
           | (Throw e, w') => (Throw e, w')
           end.

Definition throw {A} (e : string) : M A := fun w => (Throw e, w).

(** [try { m } catch (e) { h(e.message) }] *)
Definition try_catch {A} (m : M A) (h : string -> M A) : M A :=
  fun w => match m w with
           | (Ok a, w') => (Ok a, w')
           | (Throw e, w') => h e w'
           end.

Notation "x <- m ;; k" := (bind m (fun x => k))
  (at level 61, m at next level, right associativity).
Notation "m ;;; k" := (bind m (fun _ => k))
  (at level 61, right associativity).

Definition Math_random : M float :=
  fun w => (Ok (draws w (drawn w)),
            mkWorld (draws w) (S (drawn w)) (net w) (posted w) (console w)).

Definition console_log (l : Line) : M unit :=
  fun w => (Ok tt, mkWorld (draws w) (drawn w) (net w) (posted w) (l :: console w)).

(** A number in a template literal: its decimal digits. *)
Definition decimal (z : Z) : string := NilZero.string_of_int (Z.to_int z).

(** [postUpdatePrice(id, priceWeiStr)]: hands the request to [fetch]; the
    error of a rejected [fetch] goes through; a response that is not ok
    throws [update-price failed ${res.status}: ${text}], the text being
    [<no body>] when reading it fails; an ok response gives [res.json()],
    which rejects when the body is not JSON. *)
Definition postUpdatePrice (i : Z) (price : Z) : M Reply :=
  fun w =>
    let w' := mkWorld (draws w) (drawn w) (net w) ((i, price) :: posted w) (console w) in
    match net w (List.length (posted w)) with
    | Rejected message => (Throw message, w')
    | Responded res =>
        if negb (res_ok res) then
          let text := match res_text res with Some s => s | None => "<no body>" end in
          (Throw ("update-price failed " ++ decimal (res_status res) ++ ": " ++ text), w')
        else
          match res_json res with
          | Throw message => (Throw message, w')
          | Ok reply => (Ok reply, w')
          end
    end%string.

(** The [try { const res = await postUpdatePrice(..);
    console.log(.., res.txHash || res) } catch (e) { console.error(..,
    e.message) }] block that follows every price change.  Reading [txHash]
    of [null] throws inside the [try]; the message is V8's. *)
Definition pushPrice (c : PriceCause) (i : Z) (price : Z) : M unit :=
  try_catch
    (res <- postUpdatePrice i price ;;
     match res with
     | ReplyNull => throw "Cannot read properties of null (reading 'txHash')"%string
     | ReplyValue h => console_log (TxLogged c h)
     end)
    (fun msg => console_log (WriteFailed c msg)).

(** [for (const r of state) { ... }] with a body that mutates [r]. *)
Fixpoint forEach (body : Racer -> M Racer) (l : list Racer) : M (list Racer) :=
  match l with
  | [] => ret []
  | r :: l' => r' <- body r ;; l'' <- forEach body l' ;; ret (r' :: l'')
  end.

(** ** The passes of one tick *)

(** Distance pass: [if (r.finished) continue; r.distance += racerSpeedTick(..)]. *)
Definition advanceOne (r : Racer) : M Racer :=
  if finished r then ret r
  else
    u1 <- Math_random ;;
    u2 <- Math_random ;;
    let speed := racerSpeedTick (speedStat r) (aggression r) (consistency r) u1 u2 in
    ret (set_distance (distance r + speed)%float r).

(** The comparator [(a, b) => Number(b.distance - a.distance)]. *)
Definition byDistanceDesc (a b : Racer) : float := (distance b - distance a)%float.

(** [Array.prototype.sort(cmp)].  The language requires a stable sort and
    reads only the sign of [cmp(a, b)]: positive puts [b] first, negative
    puts [a] first, zero and NaN leave the pair as it is.  Stable insertion
    sort is the reference behaviour. *)
Fixpoint insert (cmp : Racer -> Racer -> float) (x : Racer) (l : list Racer) : list Racer :=
  match l with
  | [] => [x]
  | y :: l' => if (0 <? cmp x y)%float then y :: insert cmp x l' else x :: y :: l'
  end.

Definition Array_sort (cmp : Racer -> Racer -> float) (l : list Racer) : list Racer :=
  fold_right (insert cmp) [] l.

(** [arr.indexOf(x)], [-1] when absent. *)
Fixpoint indexOf (x : Z) (l : list Z) : Z :=
  match l with
  | [] => -1
  | y :: l' => if y =? x then 0
               else let k := indexOf x l' in if k <? 0 then -1 else k + 1
  end.

(** Assignment to a field of the object that [state.find(p)] returned: the
    first element satisfying [p] is the one that changes. *)
Fixpoint updateFirst (p : Racer -> bool) (f : Racer -> Racer) (l : list Racer) : list Racer :=
  match l with
  | [] => []
  | x :: l' => if p x then f x :: l' else x :: updateFirst p f l'
  end.

(** Body of the overtake loop at index [i], where [curOrder[i] = ident]. *)
Definition overtakeAt (t : nat) (prevOrder : list Z) (i : Z) (ident : Z)
    (st : list Racer) : M (list Racer) :=
  let prevIndex := indexOf ident prevOrder in
  if prevIndex >? i then
    match List.find (fun x => id x =? ident) st with
    | None => throw "Cannot read properties of undefined (reading 'name')"%string
    | Some racer =>
        console_log (Overtake t (id racer) (prevIndex + 1) (i + 1)) ;;;
        let old := currentPriceWei racer in
        let nw := applyPercentBigInt old OVERTAKE_BONUS_PCT true in
        let st' := updateFirst (fun x => id x =? ident) (set_currentPriceWei nw) st in
        pushPrice ByOvertake (id racer) nw ;;;
        ret st'
    end
  else ret st.

(** [for (let i = 0; i < curOrder.length; i++) { ... }], from index [i] on. *)
Fixpoint overtakeLoop (t : nat) (prevOrder : list Z) (curOrder : list Z) (i : Z)
    (st : list Racer) : M (list Racer) :=
  match curOrder with
  | [] => ret st
  | ident :: rest =>
      st' <- overtakeAt t prevOrder i ident st ;;
      overtakeLoop t prevOrder rest (i + 1) st'
  end.

(** The [if (!state._lastOrder) .. else ..] after the sort. *)
Definition detectOvertakes (t : nat) (last : option (list Z)) (st : list Racer)
    : M (list Racer * list Z) :=
  match last with
  | None => ret (st, map id st)
  | Some prevOrder =>
      let curOrder := map id st in
      st' <- overtakeLoop t prevOrder curOrder 0 st ;;
      ret (st', curOrder)
  end.

#[warning="-inexact-float"]
Definition crashProb (r : Racer) : float :=
  let baseCrash := 0.002%float in
  let aggFactor := (num (aggression r) / 255)%float in
  let consFactor := (1 - (num (consistency r) / 255))%float in
  (baseCrash + (0.01 * aggFactor) + (0.01 * consFactor * aggFactor))%float.

(** Crash pass body. *)
Definition crashOne (t : nat) (r : Racer) : M Racer :=
  if finished r then ret r
  else
    u <- Math_random ;;
    if (u <? crashProb r)%float then
      console_log (Crash t (id r)) ;;;
      let r1 := set_distance (Math_max 0 (distance r - (num (speedStat r) * 2))%float) r in
      let old := currentPriceWei r1 in
      let nw := applyPercentBigInt old CRASH_PENALTY_PCT false in
      let r2 := set_currentPriceWei nw r1 in
      pushPrice ByCrash (id r2) nw ;;;
      ret r2
    else ret r.

(** Finish pass body. *)
Definition finishOne (t : nat) (r : Racer) : M Racer :=
  if (negb (finished r) && (RACE_DISTANCE <=? distance r)%float)%bool then
    let r1 := set_finished true r in
    console_log (Finish t (id r1)) ;;;
    let old := currentPriceWei r1 in
    let nw := applyPercentBigInt old WINNER_BONUS_PCT true in
    let r2 := set_currentPriceWei nw r1 in
    pushPrice ByFinish (id r2) nw ;;;
    ret r2
  else ret r.

(** One iteration of the [while] loop, up to the exit test. *)
Definition tickBody (rs : RaceState) : M RaceState :=
  let t := S (tick rs) in
  st1 <- forEach advanceOne (state rs) ;;
  let st2 := Array_sort byDistanceDesc st1 in
  so <- detectOvertakes t (lastOrder rs) st2 ;;
  st4 <- forEach (crashOne t) (fst so) ;;
  st5 <- forEach (finishOne t) st4 ;;
  ret (mkRaceState st5 (Some (snd so)) t).

(** [state.every(s => s.finished)] *)
Definition allFinished (rs : RaceState) : bool := forallb finished (state rs).

(** The branch taken when every racer is finished: final sort and ranking. *)
Definition finalRanking (rs : RaceState) : M RaceState :=
  let sorted := Array_sort byDistanceDesc (state rs) in
  console_log (FinalRanking (map id sorted)) ;;;
  ret (mkRaceState sorted (lastOrder rs) (tick rs)).

(** The [while (!raceFinished)] loop.  [None]: still running after [fuel]
    ticks.  [sleep(TICK_MS)] changes nothing that the loop reads. *)
Fixpoint raceLoop (fuel : nat) (rs : RaceState) (w : World)
    : option (Result RaceState * World) :=
  match fuel with
  | O => None
  | S fuel' =>
      match tickBody rs w with
      | (Throw e, w') => Some (Throw e, w')
      | (Ok rs', w') =>
          if allFinished rs' then Some (finalRanking rs' w')
          else raceLoop fuel' rs' w'
      end
  end.

(** [racers.map(r => ({ ..., distance: 0, finished: false, ... }))] *)
Definition initRacer (e : Entity) : Racer :=
  mkRacer (e_id e) (e_name e) (e_speed e) (e_aggression e) (e_consistency e)
          0%float false (e_currentPrice e).

Definition initState (racers : list Entity) : RaceState :=
  mkRaceState (map initRacer racers) None O.

(** [runRace()].  [fetched] is what [apiFetch('/racers')] gives: it throws
    (a rejected [fetch], a response that is not ok, a body that is not
    JSON), or resolves to a falsy value or to the array that the server
    sends.  An exception of [apiFetch] leaves [runRace]; a falsy value and an
    empty array end it with the error line, without a race.  [None]: the
    loop is still running after [fuel] ticks. *)
Definition runRace (fuel : nat) (fetched : Result (option (list Entity)))
    : World -> option (Result (option RaceState) * World) :=
  fun w =>
    match console_log Fetching w with
    | (_, w0) =>
        match fetched with
        | Throw e => Some (Throw e, w0)
        | Ok None | Ok (Some []) => Some (Ok None, snd (console_log NoRacers w0))
        | Ok (Some racers) =>
            let st := initState racers in
            let w1 := snd (console_log
                             (Roster (map (fun s => (id s, name s)) (state st))) w0) in
            let w2 := snd (console_log Starting w1) in
            match raceLoop fuel st w2 with
            | None => None
            | Some (Ok rs, w') => Some (Ok (Some rs), w')
            | Some (Throw e, w') => Some (Throw e, w')
            end
        end
    end.

(** The state after [n] more runs of the loop body (no exit test). *)
Fixpoint ticks (n : nat) (rs : RaceState) : M RaceState :=
  match n with
  | O => ret rs
  | S n' => rs' <- tickBody rs ;; ticks n' rs'
  end.

(** * Vocabulary of the analysis *)

(** ** Reading the world *)

Definition isEvent (l : Line) : bool :=
  match l with
  | Overtake _ _ _ _ | Crash _ _ | Finish _ _ => true
  | _ => false
  end.

(** The event lines printed so far, newest first. *)
Definition events (w : World) : list Line := filter isEvent (console w).

(** The line that the block after a price change prints for an answer of
    the network. *)
Definition answerLine (c : PriceCause) (a : Answer) : Line :=
  match a with
  | Rejected message => WriteFailed c message
  | Responded res =>
      if res_ok res then
        match res_json res with
        | Ok (ReplyValue h) => TxLogged c h
        | Ok ReplyNull => WriteFailed c "Cannot read properties of null (reading 'txHash')"
        | Throw message => WriteFailed c message
        end
      else
        WriteFailed c
          ("update-price failed " ++ decimal (res_status res) ++ ": "
           ++ match res_text res with Some s => s | None => "<no body>" end)
  end%string.

Arguments answerLine : simpl never.

(** The random source and the network are the same in [w'] as in [w]. *)
Definition sameSources (w w' : World) : Prop :=
  draws w' = draws w /\ net w' = net w.

(** Two worlds that hand out the same random numbers; the network, the
    requests sent and the console may differ. *)
Definition sameDraws (w1 w2 : World) : Prop :=
  draws w1 = draws w2 /\ drawn w1 = drawn w2.

(** A computation whose result does not depend on the network. *)
Definition oblivious {A} (m : M A) : Prop :=
  forall w1 w2, sameDraws w1 w2 ->
    fst (m w1) = fst (m w2) /\ sameDraws (snd (m w1)) (snd (m w2)).

(** The world in which every [postUpdatePrice] fails: no server is
    reachable and [fetch] rejects. *)
Definition offline (w : World) : World :=
  mkWorld (draws w) (drawn w) (fun _ => Rejected "fetch failed") (posted w) (console w).

(** ** What each pass does to one racer *)

(** Distance pass, with random sequence [d]: a finished racer is left alone,
    an unfinished one moves by [racerSpeedTick] of its stats and two
    consecutive draws. *)
Definition advanced (d : nat -> float) (r r' : Racer) : Prop :=
  (finished r = true /\ r' = r) \/
  (finished r = false /\
   exists n,
     r' = set_distance
            (distance r +
             racerSpeedTick (speedStat r) (aggression r) (consistency r) (d n) (d (S n)))%float
            r).

(** The racer after the crash branch. *)
Definition crashed (r : Racer) : Racer :=
  set_currentPriceWei
    (applyPercentBigInt (currentPriceWei r) CRASH_PENALTY_PCT false)
    (set_distance (Math_max 0 (distance r - (num (speedStat r) * 2))%float) r).

(** Crash pass, with random sequence [d]: a finished racer is left alone, an
    unfinished one crashes when its draw is below [crashProb]. *)
Definition crashedOrNot (d : nat -> float) (r r' : Racer) : Prop :=
  (finished r = true /\ r' = r) \/
  (finished r = false /\
   exists n, r' = if (d n <? crashProb r)%float then crashed r else r).

(** The test of the finish pass. *)
Definition crossesLine (r : Racer) : bool :=
  (negb (finished r) && (RACE_DISTANCE <=? distance r)%float)%bool.

(** The racer after the finish branch. *)
Definition finishedNow (r : Racer) : Racer :=
  set_currentPriceWei
    (applyPercentBigInt (currentPriceWei r) WINNER_BONUS_PCT true)
    (set_finished true r).

Definition finishedOrNot (r r' : Racer) : Prop :=
  r' = if crossesLine r then finishedNow r else r.

(** The assignments the loop makes to a racer: to [distance] and [finished]
    only while it is unfinished, to [currentPriceWei] through
    [applyPercentBigInt] with one of the three event percentages. *)
Inductive step : Racer -> Racer -> Prop :=
| step_distance r d : finished r = false -> step r (set_distance d r)
| step_finished r : finished r = false -> step r (set_finished true r)
| step_price r pct inc :
    (pct, inc) = (OVERTAKE_BONUS_PCT, true) \/
    (pct, inc) = (CRASH_PENALTY_PCT, false) \/
    (pct, inc) = (WINNER_BONUS_PCT, true) ->
    step r (set_currentPriceWei (applyPercentBigInt (currentPriceWei r) pct inc) r).

Inductive evolves : Racer -> Racer -> Prop :=
| evolves_refl r : evolves r r
| evolves_step r1 r2 r3 : evolves r1 r2 -> step r2 r3 -> evolves r1 r3.

(** Overtake detection only re-prices. *)
Definition priceOnly (r r' : Racer) : Prop :=
  evolves r r' /\ distance r' = distance r /\ finished r' = finished r.

(** Every racer of [l'] is a racer of [l] after some assignments of the
    loop, possibly at another index. *)
Definition reordered (l l' : list Racer) : Prop :=
  exists l1, Permutation l l1 /\ Forall2 evolves l1 l'.

(** [p] is the previous index of the id [x]: the first index of the
    recorded order [prev] that holds it. *)
Definition previousIndex (prev : list Z) (x : Z) (p : nat) : Prop :=
  nth_error prev p = Some x /\ forall q, (q < p)%nat -> nth_error prev q <> Some x.

(** ** Expected console lines *)

(** The Overtake lines of one detection, said as the rule: an id at new
    index [i] whose previous index [p] is greater than [i] gets one line with
    ranks [p + 1] and [i + 1].  [k] is the index of the head of [curOrder]. *)
Definition overtakeEventsFrom (t : nat) (prevOrder curOrder : list Z) (k : nat) : list Line :=
  flat_map
    (fun ix : nat * Z =>
       let p := indexOf (snd ix) prevOrder in
       let i := Z.of_nat (fst ix) in
       if p >? i then [Overtake t (snd ix) (p + 1) (i + 1)] else [])
    (combine (seq k (List.length curOrder)) curOrder).

Definition overtakeEvents (t : nat) (prevOrder curOrder : list Z) : list Line :=
  overtakeEventsFrom t prevOrder curOrder 0.

(** No previous order, no line. *)
Definition expectedOvertakes (t : nat) (last : option (list Z)) (curOrder : list Z) : list Line :=
  match last with
  | None => []
  | Some prevOrder => overtakeEvents t prevOrder curOrder
  end.

(** One Finish line for each racer that crosses the line, in array order. *)
Definition finishLines (t : nat) (l : list Racer) : list Line :=
  map (fun r => Finish t (id r)) (filter crossesLine l).

(** ** Order in the array *)

(** [a] stands before [b] in the array. *)
Inductive before (a b : Racer) : list Racer -> Prop :=
| before_here l : In b l -> before a b (a :: l)
| before_later x l : before a b l -> before a b (x :: l).

(** No element of the array is followed by one the comparator puts first:
    every neighbouring pair is in descending order of distance or tied. *)
Fixpoint inOrder (cmp : Racer -> Racer -> float) (l : list Racer) : bool :=
  match l with
  | x :: (y :: _) as l' => (negb (0 <? cmp x y)%float && inOrder cmp l')%bool
  | _ => true
  end.

(** ** The formula of the specification *)

(** The speed sample as the specification writes it, with
    [consistencyFactor = consistency / 200] for every consistency. *)
Definition speedSample (speed aggression consistency : Z) (u1 u2 : float) : float :=
  let consistencyFactor := (num consistency / 200)%float in
  let noise := ((u1 * BASE_DRIFT) * (1 - consistencyFactor)
                - (BASE_DRIFT / 2) * (1 - consistencyFactor))%float in
  let aggressionBurst :=
    if (u2 <? num aggression / 500)%float then (num aggression / 20)%float else 0%float in
  Math_max 0 (num speed + aggressionBurst + noise).

(** ** Price events *)

(** The three calls of [applyPercentBigInt] in [runRace]. *)
Definition repriced (c : PriceCause) (p : Z) : Z :=
  match c with
  | ByOvertake => applyPercentBigInt p OVERTAKE_BONUS_PCT true
  | ByCrash => applyPercentBigInt p CRASH_PENALTY_PCT false
  | ByFinish => applyPercentBigInt p WINNER_BONUS_PCT true
  end.

(** The price after a sequence of events, oldest first. *)
Definition repricedBy (cs : list PriceCause) (p : Z) : Z :=
  fold_left (fun q c => repriced c q) cs p.

(** ** Termination *)

(** The loop leaves the [while] after some number of ticks. *)
Definition terminates (rs : RaceState) (w : World) : Prop :=
  exists fuel, raceLoop fuel rs w <> None.

(** ** Overtake lines *)

Definition isOvertake (l : Line) : bool :=
  match l with
  | Overtake _ _ _ _ => true
  | _ => false
  end.

(** The Overtake lines printed so far, newest first. *)
Definition overtakeLines (w : World) : list Line := filter isOvertake (console w).

(** ** A racer that zero draws keep on the start line *)

(** With every draw equal to [0] the racer crashes in every tick, and the
    crash takes back what the tick gave: it is at distance [0], unfinished,
    its crash probability is above [0], and one step from [0] followed by
    the crash penalty leaves it at [0]. *)
Definition stuckStats (r : Racer) : Prop :=
  (0 <? crashProb r)%float = true /\
  Math_max 0
    ((0 + racerSpeedTick (speedStat r) (aggression r) (consistency r) 0 0)
     - num (speedStat r) * 2)%float = 0%float.

Definition stuck (r : Racer) : Prop :=
  distance r = 0%float /\ finished r = false /\ stuckStats r.

(** ** Sample data *)

(** The roster of [scripts/mint-sample.js]; prices are [parseEther("1")]. *)
Definition sampleRoster : list Entity :=
  [ mkEntity 1 "Speedster" 200 120 180 1000000000000000000;
    mkEntity 2 "Thunder" 185 140 170 1000000000000000000;
    mkEntity 3 "Blaze" 195 130 160 1000000000000000000 ].

(** The answer of a server that has sent the transaction. *)
Definition mined : Answer :=
  Responded (mkFetchResponse 200 None (Ok (ReplyValue (Some "0x01"%string)))).

(** A world whose [Math.random()] always returns [0] and whose network
    always answers. *)
Definition crashWorld : World :=
  mkWorld (fun _ => 0%float) 0 (fun _ => mined) [] [].



(** A racer with [consistency = 0], and a world whose first draw is [0.75]
    and whose later draws are [0]. *)
Definition erratic : Racer := mkRacer 7 "Erratic" 10 0 0 0%float false 1000.

Definition firstDraw (u : float) : World :=
  mkWorld (fun n => if Nat.eqb n 0 then u else 0%float) 0 (fun _ => mined) [] [].

(** A racer whose noise and burst both count. *)
Definition bold : Racer := mkRacer 4 "Bold" 100 200 100 4950%float false 1000.

(** Two racers late in a race, the first ahead of the second. *)
Definition rookie : Racer := mkRacer 1 "Rookie" 100 0 200 4950%float false 1000.
Definition leader : Racer := mkRacer 2 "Leader" 120 0 200 4940%float false 2019.

(** A world whose [Math.random()] always returns [0.5]: with these stats no
    burst, no crash, and no noise at [consistency = 200]. *)
Definition calmWorld : World :=
  mkWorld (fun _ => 0.5%float) 0 (fun _ => mined) [] [].

(** A roster of two: [Champion] moves by 122 in every tick, [Chaser], a slow
    racer given to bursts, by 1 or, with a burst, by 13.  In [duelWorld]
    [Chaser] bursts in every tick but ticks 384 to 394 (draws 1272 to 1304)
    and nobody crashes before the crash draw of tick 395 (draw 1307). *)
Definition duel : list Entity :=
  [ mkEntity 1 "Champion" 122 0 200 1000; mkEntity 2 "Chaser" 1 240 200 1000 ].

Definition duelWorld : World :=
  mkWorld (fun n => if (Nat.leb 1272 n && Nat.ltb n 1305)%bool then 0.5%float
                    else if Nat.eqb n 1307 then 0%float else 0.375%float)
          0 (fun _ => mined) [] [].

(** That race when tick 394 has ended: [Champion] finished in tick 41 at
    5002, [Chaser] is ten units from the line. *)
Definition photoFinish : RaceState :=
  mkRaceState
    [ mkRacer 1 "Champion" 122 0 200 5002%float true 1050;
      mkRacer 2 "Chaser" 1 240 200 4990%float false 1000 ]
    (Some [1; 2]) 394.

(** Tick 19 has ended with [Steady] ahead of [Solo]; in the next tick the
    only draw that is not [0.5] is the crash draw of the second racer of the
    array, which is [0]. *)
Definition closing : RaceState :=
  mkRaceState
    [ mkRacer 1 "Steady" 100 0 200 4990%float false 1000;
      mkRacer 2 "Solo" 250 0 200 4750%float false 1000 ]
    (Some [1; 2]) 19.

Definition lateCrash : World :=
  mkWorld (fun n => if Nat.eqb n 5 then 0%float else 0.5%float) 0 (fun _ => mined) [] [].

(** The state after a tick that left [rookie] ahead of [leader]. *)
Definition twoRacers : RaceState := mkRaceState [rookie; leader] (Some [1; 2]) 1.

(** Id, distance and price of the racers of a result, in array order. *)
Definition standings (res : Result RaceState) : list (Z * float * Z) :=
  match res with
  | Ok rs => map (fun r => (id r, distance r, currentPriceWei r)) (state rs)
  | Throw _ => []
  end.

(** * The registry contract [TurboRacers.sol] *)

Module TurboRacers.

(** An account; [msg.sender] is never the zero address. *)
Definition address := Z.

Definition MAX_UINT256 : Z := 2 ^ 256 - 1.

Definition is_uint8 (z : Z) : bool := (0 <=? z) && (z <? 256).
Definition is_uint256 (z : Z) : bool := (0 <=? z) && (z <=? MAX_UINT256).

(** [struct Racer]. *)
Record Racer := mkRacer {
  id : Z;
  name : string;
  speed : Z;
  aggression : Z;
  consistency : Z;
  currentPrice : Z;
  exists_ : bool
}.

(** The value a mapping holds at a key that was never written. *)
Definition noRacer : Racer := mkRacer 0 "" 0 0 0 0 false.

Inductive Event :=
| RacerMinted (i : Z) (n : string) (price : Z)
| PriceUpdated (i : Z) (oldPrice newPrice : Z) (by_ : address)
| PriceUpdaterChanged (previousUpdater newUpdater : address).

(** The storage of the contract; [owner] is the slot of [Ownable].  A
    [mapping] is a total function. *)
Record Storage := mkStorage {
  owner : address;
  nextId : Z;
  racers : Z -> Racer;
  racerIds : list Z;
  priceUpdater : address
}.

(** A call either returns, with the storage it leaves and the events it
    emitted, or reverts, and then the storage is as before the call. *)
Inductive Outcome (A : Type) :=
| Returns (a : A) (s : Storage) (log : list Event)
| Reverts (reason : string).
Arguments Returns {A} a s log.
Arguments Reverts {A} reason.

(** [racers[i] = r] *)
Definition setRacer (m : Z -> Racer) (i : Z) (r : Racer) : Z -> Racer :=
  fun j => if j =? i then r else m j.

(** [constructor() Ownable(msg.sender)] *)
Definition constructor (sender : address) : Storage :=
  mkStorage sender 1 (fun _ => noRacer) [] sender.

(** [setPriceUpdater(_updater)], [onlyOwner]. *)
Definition setPriceUpdater (sender : address) (_updater : address) (s : Storage)
    : Outcome unit :=
  if negb (sender =? owner s) then Reverts "OwnableUnauthorizedAccount"
  else
    let prev := priceUpdater s in
    Returns tt (mkStorage (owner s) (nextId s) (racers s) (racerIds s) _updater)
            [PriceUpdaterChanged prev _updater].

(** [mintRacer(_name, _speed, _aggression, _consistency, _initialPrice)],
    [onlyOwner].  Arguments outside their declared types never reach the
    body (the ABI decoder reverts), and [nextId++] is checked arithmetic. *)
Definition mintRacer (sender : address) (_name : string)
    (_speed _aggression _consistency _initialPrice : Z) (s : Storage) : Outcome unit :=
  if negb (is_uint8 _speed && is_uint8 _aggression && is_uint8 _consistency
           && is_uint256 _initialPrice)
  then Reverts ""
  else if negb (sender =? owner s) then Reverts "OwnableUnauthorizedAccount"
  else if MAX_UINT256 <=? nextId s then Reverts "Panic(0x11)"
  else
    let i := nextId s in
    let r := mkRacer i _name _speed _aggression _consistency _initialPrice true in
    Returns tt
      (mkStorage (owner s) (nextId s + 1) (setRacer (racers s) i r)
                 (racerIds s ++ [i]) (priceUpdater s))
      [RacerMinted i _name _initialPrice].

(** [getRacer(id)], a view. *)
Definition getRacer (i : Z) (s : Storage)
    : Result (Z * string * Z * Z * Z * Z) :=
  if negb (exists_ (racers s i)) then Throw "No racer"
  else
    let r := racers s i in
    Ok (id r, name r, speed r, aggression r, consistency r, currentPrice r).

(** [getAllRacerIds()], a view. *)
Definition getAllRacerIds (s : Storage) : list Z := racerIds s.

(** [updatePrice(id, newPrice)], [onlyUpdater]. *)
Definition updatePrice (sender : address) (i newPrice : Z) (s : Storage)
    : Outcome unit :=
  if negb (is_uint256 i && is_uint256 newPrice) then Reverts ""
  else if negb ((sender =? owner s) || (sender =? priceUpdater s))
  then Reverts "Not authorized"
  else if negb (exists_ (racers s i)) then Reverts "No racer"
  else
    let r := racers s i in
    let old := currentPrice r in
    let r' := mkRacer (id r) (name r) (speed r) (aggression r) (consistency r)
                      newPrice (exists_ r) in
    Returns tt
      (mkStorage (owner s) (nextId s) (setRacer (racers s) i r')
                 (racerIds s) (priceUpdater s))
      [PriceUpdated i old newPrice sender].

(** [racerCount()], a view. *)
Definition racerCount (s : Storage) : Z := Z.of_nat (List.length (racerIds s)).

(** The transactions the contract declares.  ([Ownable] adds ownership
    transfer, which is not part of this file.) *)
Inductive Tx :=
| MintRacer (_name : string) (_speed _aggression _consistency _initialPrice : Z)
| UpdatePrice (i newPrice : Z)
| SetPriceUpdater (_updater : address).

Definition transact (sender : address) (tx : Tx) (s : Storage) : Outcome unit :=
  match tx with
  | MintRacer n sp ag co p => mintRacer sender n sp ag co p s
  | UpdatePrice i p => updatePrice sender i p s
  | SetPriceUpdater u => setPriceUpdater sender u s
  end.

(** The storage after a transaction. *)
Definition after (sender : address) (tx : Tx) (s : Storage) : Storage :=
  match transact sender tx s with
  | Returns _ s' _ => s'
  | Reverts _ => s
  end.

(** The storage after a sequence of transactions, each with its sender. *)
Definition afterAll (txs : list (address * Tx)) (s : Storage) : Storage :=
  fold_left (fun s' stx => after (fst stx) (snd stx) s') txs s.

(** What every reachable storage satisfies: ids are handed out from [1] in
    order, [racerIds] lists them, a racer exists exactly at those keys and
    is stored under its own id, with values of the declared types. *)
Record wellFormed (s : Storage) : Prop := {
  wf_nextId : 1 <= nextId s <= MAX_UINT256;
  wf_racerIds : racerIds s = map Z.of_nat (seq 1 (Z.to_nat (nextId s) - 1));
  wf_exists : forall i, exists_ (racers s i) = ((1 <=? i) && (i <? nextId s))%bool;
  wf_racer : forall i, exists_ (racers s i) = true ->
               id (racers s i) = i /\
               is_uint8 (speed (racers s i)) = true /\
               is_uint8 (aggression (racers s i)) = true /\
               is_uint8 (consistency (racers s i)) = true /\
               is_uint256 (currentPrice (racers s i)) = true
}.

End TurboRacers.

(** * The API server [server.js] *)

(** [process.env.X || dflt]: an unset and an empty variable both give the
    default. *)
Definition envOr (v : option string) (dflt : string) : string :=
  match v with
  | Some s => if String.eqb s "" then dflt else s
  | None => dflt
  end.

(** [ADMIN_SECRET] of the server and [ADMIN_TOKEN] of the race engine, both
    read from the variable [ADMIN_SECRET] of their own environment. *)
Definition serverSecret (env : option string) : string := envOr env "changeme".
Definition engineToken (env : option string) : string := envOr env "some-secret".

(** A JSON value of a request body, as far as the server looks at it. *)
Inductive Json :=
| JNull
| JBool (b : bool)
| JNumber (x : float)
| JString (s : string)
| JCompound.

(** [!!v] for a field of the body; [None] is a field that is not there. *)
Definition truthy (v : option Json) : bool :=
  match v with
  | None | Some JNull => false
  | Some (JBool b) => b
  | Some (JNumber x) => negb ((x =? 0)%float || PrimFloat.is_nan x)
  | Some (JString s) => negb (String.eqb s "")
  | Some JCompound => true
  end.

(** What the server answers. *)
Inductive Response (A : Type) :=
| Json200 (a : A)
| Status (code : Z) (error : string).
Arguments Json200 {A} a.
Arguments Status {A} code error.

(** The server process: its secret and the address of its wallet, absent
    when [PRIVATE_KEY] is empty. *)
Record Server := mkServer {
  ADMIN_SECRET : string;
  wallet : option TurboRacers.address
}.

(** A [POST /update-price]: the [x-admin-token] header and the fields [id]
    and [price] of the body. *)
Record UpdateRequest := mkUpdateRequest {
  x_admin_token : option string;
  body_id : option Json;
  body_price : option Json
}.

(** [Number(s)] for the decimal string [s] of a natural number [z]: the
    nearest binary64 value, ties to even; exact below [2 ^ 53]. *)
Definition Number_of_uint (z : Z) : Z :=
  let sh := Z.log2 z - 52 in
  if sh <=? 0 then z
  else
    let q := Z.shiftr z sh in
    let r := Z.land z (Z.ones sh) in
    let half := Z.shiftl 1 (sh - 1) in
    let q' := if ((half <? r) || ((r =? half) && Z.odd q))%bool then q + 1 else q in
    Z.shiftl q' sh.

(** The object that [GET /racers] pushes for one answer of [getRacer]. *)
Definition entityOf (r : Z * string * Z * Z * Z * Z) : Entity :=
  match r with
  | (i, n, sp, ag, co, p) => mkEntity (Number_of_uint i) n sp ag co p
  end.

(** The loop of [GET /racers] over [ids]; a revert of [getRacer] throws. *)
Fixpoint collectRacers (chain : TurboRacers.Storage) (ids : list Z)
    : Result (list Entity) :=
  match ids with
  | [] => Ok []
  | i :: rest =>
      match TurboRacers.getRacer i chain with
      | Throw e => Throw e
      | Ok r =>
          match collectRacers chain rest with
          | Throw e => Throw e
          | Ok out => Ok (entityOf r :: out)
          end
      end
  end.

(** [app.get('/racers', ...)] *)
Definition racersRoute (chain : TurboRacers.Storage) : Response (list Entity) :=
  match collectRacers chain (TurboRacers.getAllRacerIds chain) with
  | Ok out => Json200 out
  | Throw _ => Status 500 "failed"
  end.

Section UpdatePriceRoute.

(** How the contract binding turns an argument into a [uint256]; [None]
    when it throws. *)
Variable toUint256 : Json -> option Z.

(** [app.post('/update-price', ...)]: the response and the chain after it. *)
Definition updatePriceRoute (srv : Server) (req : UpdateRequest)
    (chain : TurboRacers.Storage) : Response unit * TurboRacers.Storage :=
  match x_admin_token req with
  | None => (Status 403 "forbidden", chain)
  | Some token =>
      if (String.eqb token "" || negb (String.eqb token (ADMIN_SECRET srv)))%bool
      then (Status 403 "forbidden", chain)
      else
        match wallet srv with
        | None => (Status 500 "no signer configured", chain)
        | Some signer =>
            if (negb (truthy (body_id req)) || negb (truthy (body_price req)))%bool
            then (Status 400 "bad request", chain)
            else
              match body_id req, body_price req with
              | Some vi, Some vp =>
                  match toUint256 vi, toUint256 vp with
                  | Some i, Some p =>
                      match TurboRacers.updatePrice signer i p chain with
                      | TurboRacers.Returns _ chain' _ => (Json200 tt, chain')
                      | TurboRacers.Reverts _ => (Status 500 "failed", chain)
                      end
                  | _, _ => (Status 500 "failed", chain)
                  end
              | _, _ => (Status 400 "bad request", chain)
              end
        end
  end.

End UpdatePriceRoute.

(** * The scripts *)

(** One row of the [racers] array of [mint-sample.js]. *)
Record MintSpec := mkMintSpec {
  m_name : string;
  m_speed : Z;
  m_aggression : Z;
  m_consistency : Z;
  m_price : Z
}.

(** The loop of [mint-sample.js]: one [mintRacer] per row, sent by
    [deployer]; the first transaction that fails ends the script, with what
    was minted before it left in place.  [true]: the script completed. *)
Fixpoint mintAll (deployer : TurboRacers.address) (rows : list MintSpec)
    (chain : TurboRacers.Storage) : bool * TurboRacers.Storage :=
  match rows with
  | [] => (true, chain)
  | r :: rest =>
      match TurboRacers.mintRacer deployer (m_name r) (m_speed r) (m_aggression r)
              (m_consistency r) (m_price r) chain with
      | TurboRacers.Returns _ chain' _ => mintAll deployer rest chain'
      | TurboRacers.Reverts _ => (false, chain)
      end
  end.

(** The rows of [mint-sample.js]. *)
Definition sampleRows : list MintSpec :=
  [ mkMintSpec "Speedster" 200 120 180 1000000000000000000;
    mkMintSpec "Thunder" 185 140 170 1000000000000000000;
    mkMintSpec "Blaze" 195 130 160 1000000000000000000 ].

(** The roster that row [k] onwards of a mint gives when ids start at [i]. *)
Fixpoint rosterFrom (i : Z) (rows : list MintSpec) : list Entity :=
  match rows with
  | [] => []
  | r :: rest =>
      mkEntity i (m_name r) (m_speed r) (m_aggression r) (m_consistency r) (m_price r)
      :: rosterFrom (i + 1) rest
  end.

(** The roster a registry holds: one entity per listed id, with the stored
    name, stats and price. *)
Definition rosterOf (chain : TurboRacers.Storage) : list Entity :=
  map (fun i =>
         let r := TurboRacers.racers chain i in
         mkEntity i (TurboRacers.name r) (TurboRacers.speed r) (TurboRacers.aggression r)
                  (TurboRacers.consistency r) (TurboRacers.currentPrice r))
      (TurboRacers.racerIds chain).

(** A row whose values fit the argument types of [mintRacer]. *)
Definition typedRow (r : MintSpec) : Prop :=
  0 <= m_speed r < 256 /\ 0 <= m_aggression r < 256 /\
  0 <= m_consistency r < 256 /\ 0 <= m_price r < 2 ^ 256.

(** A binding that encodes the number [2] and the string ["2220"] and
    throws on everything else; it serves as an example. *)
Definition toyUint256 (v : Json) : option Z :=
  match v with
  | JNumber x => if (x =? 2)%float then Some 2 else None
  | JString s => if String.eqb s "2220" then Some 2220 else None
  | _ => None
  end.

(** A registry with two racers, owned by account [100], whose price updater
    is account [55]. *)
Definition twoRacerChain : TurboRacers.Storage :=
  TurboRacers.afterAll
    [ (100, TurboRacers.MintRacer "Rookie" 100 0 200 1000);
      (100, TurboRacers.MintRacer "Leader" 120 0 200 2019);
      (100, TurboRacers.SetPriceUpdater 55) ]
    (TurboRacers.constructor 100).


(** [scripts/set-updater.js], run with the signer [signer].  The variables
    [CONTRACT_ADDRESS] and [SERVER_ADDRESS] are absent when unset or empty;
    the script throws when one is missing and when the transaction reverts,
    and the chain is then as it was.  [true]: the script completed. *)
Definition setUpdater (signer : TurboRacers.address)
    (contractAddress serverAddress : option TurboRacers.address)
    (chain : TurboRacers.Storage) : bool * TurboRacers.Storage :=
  match contractAddress, serverAddress with
  | Some _, Some a =>
      match TurboRacers.setPriceUpdater signer a chain with
      | TurboRacers.Returns _ chain' _ => (true, chain')
      | TurboRacers.Reverts _ => (false, chain)
      end
  | _, _ => (false, chain)
  end.
(** * More vocabulary for the race engine *)

(** How many racers of the array are still racing. *)
Definition unfinished (l : list Racer) : nat :=
  List.length (filter (fun r => negb (finished r)) l).

(** What identifies a racer and what the race reads of it. *)
Definition identity (r : Racer) : Z * string * Z * Z * Z :=
  (id r, name r, speedStat r, aggression r, consistency r).

Definition identityOf (e : Entity) : Z * string * Z * Z * Z :=
  (e_id e, e_name e, e_speed e, e_aggression e, e_consistency e).

(** A racer marked finished is at or beyond the finish line. *)
Definition pastTheLine (r : Racer) : Prop :=
  finished r = true -> (RACE_DISTANCE <=? distance r)%float = true.

(** Between [w] and [w'] as many requests were sent as event lines printed. *)
Definition balanced (w w' : World) : Prop :=
  (List.length (posted w') + List.length (events w)
   = List.length (posted w) + List.length (events w'))%nat.

(** From [w] to [w'] lines were only added to the console. *)
Definition grown (w w' : World) : Prop := exists newer, console w' = newer ++ console w.

(** * Basic facts *)

Lemma sameSources_refl w : sameSources w w.
Proof. split; reflexivity. Qed.

Lemma sameSources_trans w1 w2 w3 :
  sameSources w1 w2 -> sameSources w2 w3 -> sameSources w1 w3.
Proof. intros [A B] [C D]; split; congruence. Qed.

Lemma bind_Ok {A B} (m : M A) (f : A -> M B) w a w1 :
  m w = (Ok a, w1) -> bind m f w = f a w1.
Proof. intros H; unfold bind; rewrite H; reflexivity. Qed.

(** The try/catch block after a price change always completes: it sends one
    request and prints one line, whatever the answer. *)
Lemma pushPrice_spec c i p w :
  pushPrice c i p w =
  (Ok tt,
   mkWorld (draws w) (drawn w) (net w) ((i, p) :: posted w)
     (answerLine c (net w (List.length (posted w))) :: console w)).
Proof.
  unfold pushPrice, try_catch, bind, postUpdatePrice, console_log, answerLine, throw.
  destruct (net w (List.length (posted w))) as [m|res]; [reflexivity|].
  destruct (res_ok res); simpl; [|reflexivity].
  destruct (res_json res) as [[|h]|m]; reflexivity.
Qed.

(** The line of a price change is not an event line. *)
Lemma answerLine_isEvent c a : isEvent (answerLine c a) = false.
Proof.
  destruct a as [m|res]; unfold answerLine; [reflexivity|].
  destruct (res_ok res); [|reflexivity].
  destruct (res_json res) as [[|h]|m]; reflexivity.
Qed.

(** The event lines after an event branch: those before it and its line. *)
Lemma events_pushed c a l d n nt p cs :
  events (mkWorld d n nt p (answerLine c a :: l :: cs))
  = (if isEvent l then [l] else []) ++ filter isEvent cs.
Proof.
  unfold events; cbn [console filter]; rewrite answerLine_isEvent.
  destruct (isEvent l); reflexivity.
Qed.

Lemma evolves_trans r1 r2 r3 : evolves r1 r2 -> evolves r2 r3 -> evolves r1 r3.
Proof.
  intros H12 H23; induction H23; [assumption|].
  eapply evolves_step; [apply IHevolves; assumption | eassumption].
Qed.

Lemma evolves_one r r' : step r r' -> evolves r r'.
Proof. intros; eapply evolves_step; [apply evolves_refl | assumption]. Qed.

Lemma evolves_id r r' : evolves r r' -> id r' = id r.
Proof.
  induction 1 as [|r1 r2 r3 _ IH Hs]; [reflexivity|].
  rewrite <- IH; destruct Hs; reflexivity.
Qed.

Lemma evolves_stats r r' :
  evolves r r' ->
  name r' = name r /\ speedStat r' = speedStat r /\
  aggression r' = aggression r /\ consistency r' = consistency r.
Proof.
  induction 1 as [|r1 r2 r3 _ IH Hs]; [repeat split|].
  destruct IH as (A & B & C & D); destruct Hs; simpl; repeat split; assumption.
Qed.

(** A finished racer stays finished where it is. *)
Lemma evolves_finished r r' :
  evolves r r' -> finished r = true ->
  finished r' = true /\ distance r' = distance r.
Proof.
  induction 1 as [|r1 r2 r3 _ IH Hs]; intros Hf; [split; [assumption|reflexivity]|].
  destruct (IH Hf) as [F D]; destruct Hs; simpl; try congruence; split; assumption.
Qed.

Lemma applyPercentBigInt_nonneg (p pct : Z) (inc : bool) :
  0 <= p ->
  (pct, inc) = (OVERTAKE_BONUS_PCT, true) \/
  (pct, inc) = (CRASH_PENALTY_PCT, false) \/
  (pct, inc) = (WINNER_BONUS_PCT, true) ->
  0 <= applyPercentBigInt p pct inc.
Proof.
  intros Hp H; unfold applyPercentBigInt.
  destruct H as [H|[H|H]]; inversion H; subst; clear H;
    unfold OVERTAKE_BONUS_PCT, CRASH_PENALTY_PCT, WINNER_BONUS_PCT;
    rewrite Z.quot_div_nonneg by lia.
  - assert (0 <= p * 10 / 100) by (apply Z.div_pos; lia); lia.
  - assert (p * 20 / 100 <= p) by (apply Z.div_le_upper_bound; lia); lia.
  - assert (0 <= p * 5 / 100) by (apply Z.div_pos; lia); lia.
Qed.

Lemma evolves_price_nonneg r r' :
  evolves r r' -> 0 <= currentPriceWei r -> 0 <= currentPriceWei r'.
Proof.
  induction 1 as [|r1 r2 r3 _ IH Hs]; intros Hp; [assumption|].
  specialize (IH Hp); destruct Hs; simpl; try assumption.
  apply applyPercentBigInt_nonneg; assumption.
Qed.

Lemma priceOnly_refl r : priceOnly r r.
Proof. split; [apply evolves_refl | split; reflexivity]. Qed.

Lemma priceOnly_trans r1 r2 r3 : priceOnly r1 r2 -> priceOnly r2 r3 -> priceOnly r1 r3.
Proof.
  intros (E1 & D1 & F1) (E2 & D2 & F2); split; [|split; congruence].
  eapply evolves_trans; eassumption.
Qed.

(** ** Relations lifted to arrays *)

Section Lifted.
Variable R : Racer -> Racer -> Prop.
Hypothesis R_refl : forall r, R r r.
Hypothesis R_trans : forall r1 r2 r3, R r1 r2 -> R r2 r3 -> R r1 r3.

Lemma Forall2_reflexive l : Forall2 R l l.
Proof. induction l; constructor; auto. Qed.

Lemma Forall2_transitive l1 l2 l3 : Forall2 R l1 l2 -> Forall2 R l2 l3 -> Forall2 R l1 l3.
Proof.
  intros H; revert l3; induction H; intros l3 H3; inversion H3; subst; constructor.
  - eapply R_trans; eassumption.
  - apply IHForall2; assumption.
Qed.
End Lifted.

Lemma Forall2_weaken {A B} (R R' : A -> B -> Prop) l l' :
  (forall a b, R a b -> R' a b) -> Forall2 R l l' -> Forall2 R' l l'.
Proof. intros H; induction 1; constructor; auto. Qed.

Lemma Forall2_preimage {A B} (R : A -> B -> Prop) l l' b :
  Forall2 R l l' -> In b l' -> exists a, In a l /\ R a b.
Proof.
  induction 1 as [|x y l l' Hxy _ IH]; intros Hb; [destruct Hb|].
  destruct Hb as [->|Hb]; [exists x; split; [left; reflexivity | assumption]|].
  destruct (IH Hb) as (a & Ha & Hab); exists a; split; [right|]; assumption.
Qed.

Lemma Forall2_image {A B} (R : A -> B -> Prop) l l' a :
  Forall2 R l l' -> In a l -> exists b, In b l' /\ R a b.
Proof.
  induction 1 as [|x y l l' Hxy _ IH]; intros Ha; [destruct Ha|].
  destruct Ha as [->|Ha]; [exists y; split; [left; reflexivity | assumption]|].
  destruct (IH Ha) as (b & Hb & Hab); exists b; split; [right|]; assumption.
Qed.

Lemma Forall2_Permutation {A} (R : A -> A -> Prop) l' m' :
  Permutation l' m' ->
  forall l, Forall2 R l l' -> exists m, Permutation l m /\ Forall2 R m m'.
Proof.
  induction 1 as [|x a b _ IH|x y a|a b c _ IH1 _ IH2]; intros l HF.
  - inversion HF; subst; exists []; split; constructor.
  - inversion HF as [|x0 ? l0 ? Hx H0]; subst.
    destruct (IH _ H0) as (m & Pm & Fm).
    exists (x0 :: m); split; [apply perm_skip, Pm | constructor; assumption].
  - inversion HF as [|y0 ? l0 ? Hy H0]; subst.
    inversion H0 as [|x0 ? l1 ? Hx H1]; subst.
    exists (x0 :: y0 :: l1); split; [apply perm_swap | repeat constructor; assumption].
  - destruct (IH1 _ HF) as (m1 & P1 & F1).
    destruct (IH2 _ F1) as (m2 & P2 & F2).
    exists m2; split; [eapply perm_trans; eassumption | assumption].
Qed.

Lemma Forall2_evolves_ids l l' : Forall2 evolves l l' -> map id l' = map id l.
Proof.
  induction 1; simpl; [reflexivity|].
  f_equal; [apply evolves_id; assumption | assumption].
Qed.

Lemma reordered_refl l : reordered l l.
Proof. exists l; split; [apply Permutation_refl | apply Forall2_reflexive, evolves_refl]. Qed.

Lemma reordered_trans l1 l2 l3 :
  reordered l1 l2 -> reordered l2 l3 -> reordered l1 l3.
Proof.
  intros (a & Pa & Fa) (b & Pb & Fb).
  destruct (Forall2_Permutation evolves _ _ Pb _ Fa) as (m & Pm & Fm).
  exists m; split; [eapply perm_trans; eassumption|].
  eapply (Forall2_transitive _ evolves_trans); eassumption.
Qed.

Lemma reordered_In_l l l' r :
  reordered l l' -> In r l -> exists r', In r' l' /\ evolves r r'.
Proof.
  intros (m & Pm & Fm) Hr.
  apply (Forall2_image _ _ _ _ Fm), (Permutation_in _ Pm), Hr.
Qed.

Lemma reordered_In_r l l' r' :
  reordered l l' -> In r' l' -> exists r, In r l /\ evolves r r'.
Proof.
  intros (m & Pm & Fm) Hr.
  destruct (Forall2_preimage _ _ _ _ Fm Hr) as (r & Hr0 & He).
  exists r; split; [|assumption].
  eapply Permutation_in; [apply Permutation_sym, Pm | exact Hr0].
Qed.

(** ** Passes over the array *)

Section ForEachPass.
Variable body : Racer -> M Racer.
Variable R : (nat -> float) -> Racer -> Racer -> Prop.
Hypothesis body_ok :
  forall r w, exists r' w',
    body r w = (Ok r', w') /\ R (draws w) r r' /\ sameSources w w'.

(** A pass whose body completes on every racer completes on the array. *)
Lemma forEach_ok l :
  forall w, exists l' w',
    forEach body l w = (Ok l', w') /\ Forall2 (R (draws w)) l l' /\ sameSources w w'.
Proof.
  induction l as [|r l IH]; intros w; simpl.
  - exists [], w; repeat split; constructor.
  - destruct (body_ok r w) as (r' & w1 & E1 & HR & S1).
    destruct (IH w1) as (l' & w2 & E2 & HF & S2).
    exists (r' :: l'), w2; split; [|split].
    + rewrite (bind_Ok _ _ _ _ _ E1), (bind_Ok _ _ _ _ _ E2); reflexivity.
    + rewrite (proj1 S1) in HF; constructor; assumption.
    + eapply sameSources_trans; eassumption.
Qed.
End ForEachPass.

Lemma advanceOne_ok r w :
  exists r' w',
    advanceOne r w = (Ok r', w') /\ advanced (draws w) r r' /\ sameSources w w'.
Proof.
  unfold advanceOne; destruct (finished r) eqn:F.
  - exists r, w; repeat split; left; auto.
  - eexists _, _; split; [reflexivity|]; split; [|split; reflexivity].
    right; split; [exact F|]; exists (drawn w); reflexivity.
Qed.

(** The crash body, branch by branch. *)
Lemma crashOne_spec t r w :
  crashOne t r w =
  if finished r then (Ok r, w)
  else if (draws w (drawn w) <? crashProb r)%float then
    (Ok (crashed r),
     mkWorld (draws w) (S (drawn w)) (net w)
       ((id r, currentPriceWei (crashed r)) :: posted w)
       (answerLine ByCrash (net w (List.length (posted w)))
        :: Crash t (id r) :: console w))
  else (Ok r, mkWorld (draws w) (S (drawn w)) (net w) (posted w) (console w)).
Proof.
  unfold crashOne; destruct (finished r); [reflexivity|].
  unfold bind at 1; simpl.
  destruct (draws w (drawn w) <? crashProb r)%float; [|reflexivity].
  unfold bind, console_log; rewrite pushPrice_spec; reflexivity.
Qed.

Lemma crashOne_ok t r w :
  exists r' w',
    crashOne t r w = (Ok r', w') /\ crashedOrNot (draws w) r r' /\ sameSources w w'.
Proof.
  rewrite crashOne_spec; destruct (finished r) eqn:F.
  - exists r, w; repeat split; left; auto.
  - destruct (draws w (drawn w) <? crashProb r)%float eqn:C;
      eexists _, _; (split; [reflexivity|]); (split; [|split; reflexivity]);
      right; (split; [exact F|]); exists (drawn w); rewrite C; reflexivity.
Qed.

(** The finish body, branch by branch. *)
Lemma finishOne_spec t r w :
  finishOne t r w =
  if crossesLine r then
    (Ok (finishedNow r),
     mkWorld (draws w) (drawn w) (net w)
       ((id r, currentPriceWei (finishedNow r)) :: posted w)
       (answerLine ByFinish (net w (List.length (posted w)))
        :: Finish t (id r) :: console w))
  else (Ok r, w).
Proof.
  unfold finishOne; fold (crossesLine r); destruct (crossesLine r); [|reflexivity].
  unfold bind, console_log; rewrite pushPrice_spec; reflexivity.
Qed.

Lemma finishOne_ok t r w :
  exists r' w',
    finishOne t r w = (Ok r', w') /\ finishedOrNot r r' /\ sameSources w w'.
Proof.
  rewrite finishOne_spec; unfold finishedOrNot.
  destruct (crossesLine r); eexists _, _; repeat split.
Qed.

Lemma advanced_evolves d r r' : advanced d r r' -> evolves r r'.
Proof.
  intros [[_ ->]|[F (n & ->)]]; [apply evolves_refl|].
  apply evolves_one, step_distance, F.
Qed.

Lemma crashed_evolves r : finished r = false -> evolves r (crashed r).
Proof.
  intros F; unfold crashed; eapply evolves_step.
  - apply evolves_one, step_distance, F.
  - apply (step_price (set_distance _ r) CRASH_PENALTY_PCT false); auto.
Qed.

Lemma crashedOrNot_evolves d r r' : crashedOrNot d r r' -> evolves r r'.
Proof.
  intros [[_ ->]|[F (n & ->)]]; [apply evolves_refl|].
  destruct (d n <? crashProb r)%float; [apply crashed_evolves, F | apply evolves_refl].
Qed.

Lemma crossesLine_unfinished r : crossesLine r = true -> finished r = false.
Proof. unfold crossesLine; destruct (finished r); [discriminate | reflexivity]. Qed.

Lemma finishedOrNot_evolves r r' : finishedOrNot r r' -> evolves r r'.
Proof.
  unfold finishedOrNot; intros ->.
  destruct (crossesLine r) eqn:C; [|apply evolves_refl].
  unfold finishedNow; eapply evolves_step.
  - apply evolves_one, step_finished, crossesLine_unfinished, C.
  - apply (step_price (set_finished true r) WINNER_BONUS_PCT true); auto.
Qed.

(** The event lines of the finish pass: one per racer that crosses. *)
Lemma finishPass_events t l :
  forall w l' w',
    forEach (finishOne t) l w = (Ok l', w') ->
    events w' = rev (finishLines t l) ++ events w.
Proof.
  induction l as [|r l IH]; intros w l' w' H; simpl in H.
  - inversion H; subst; reflexivity.
  - unfold bind at 1 in H; rewrite finishOne_spec in H.
    unfold finishLines; simpl filter.
    destruct (crossesLine r);
      match type of H with
      | bind (forEach _ _) _ ?w1 = _ =>
          destruct (forEach_ok (finishOne t) (fun _ => finishedOrNot)
                      (finishOne_ok t) l w1) as (l1 & w2 & E & _ & _);
          rewrite (bind_Ok _ _ _ _ _ E) in H; inversion H; subst;
          rewrite (IH _ _ _ E)
      end.
    + rewrite events_pushed; simpl; rewrite <- app_assoc; reflexivity.
    + reflexivity.
Qed.

(** ** The sort *)

Lemma insert_perm cmp x l : Permutation (x :: l) (insert cmp x l).
Proof.
  induction l as [|y l IH]; simpl; [apply Permutation_refl|].
  destruct (0 <? cmp x y)%float; [|apply Permutation_refl].
  eapply perm_trans; [apply perm_swap | apply perm_skip, IH].
Qed.

Lemma Array_sort_perm cmp l : Permutation l (Array_sort cmp l).
Proof.
  induction l as [|x l IH]; simpl; [apply perm_nil|].
  eapply perm_trans; [apply perm_skip, IH | apply insert_perm].
Qed.

(** An array already in order comes back as it is. *)
Lemma Array_sort_inOrder cmp l : inOrder cmp l = true -> Array_sort cmp l = l.
Proof.
  induction l as [|x l IH]; [reflexivity|]; intros H.
  destruct l as [|y l]; [reflexivity|].
  simpl in H; apply andb_true_iff in H; destruct H as [Hxy Hl].
  change (Array_sort cmp (x :: y :: l)) with (insert cmp x (Array_sort cmp (y :: l))).
  rewrite (IH Hl); simpl.
  apply negb_true_iff in Hxy; rewrite Hxy; reflexivity.
Qed.

Lemma before_split a b l :
  before a b l <-> exists l1 l2 l3, l = l1 ++ a :: l2 ++ b :: l3.
Proof.
  split.
  - induction 1 as [l Hb | x l _ (l1 & l2 & l3 & ->)].
    + apply in_split in Hb; destruct Hb as (l2 & l3 & ->).
      exists [], l2, l3; reflexivity.
    + exists (x :: l1), l2, l3; reflexivity.
  - intros (l1 & l2 & l3 & ->).
    induction l1 as [|x l1 IH]; simpl.
    + apply before_here, in_or_app; right; left; reflexivity.
    + apply before_later, IH.
Qed.

Lemma insert_In cmp x y l : In y l -> In y (insert cmp x l).
Proof.
  intros H; eapply Permutation_in; [apply insert_perm | right; exact H].
Qed.

Lemma insert_keeps_before cmp x a b l :
  before a b l -> before a b (insert cmp x l).
Proof.
  induction 1 as [l Hb | y l H IH]; simpl.
  - destruct (0 <? cmp x a)%float.
    + apply before_here, insert_In, Hb.
    + apply before_later, before_here, Hb.
  - destruct (0 <? cmp x y)%float.
    + apply before_later, IH.
    + apply before_later, before_later; assumption.
Qed.

Lemma insert_before_tied cmp x b l :
  In b l -> (0 <? cmp x b)%float = false -> before x b (insert cmp x l).
Proof.
  intros Hb Hx; induction l as [|y l IH]; [destruct Hb|]; simpl.
  destruct (0 <? cmp x y)%float eqn:C.
  - destruct Hb as [->|Hb]; [congruence|].
    apply before_later, IH, Hb.
  - apply before_here, Hb.
Qed.

(** The sort is stable: a pair the comparator does not put in the other
    order keeps its order. *)
Lemma Array_sort_stable cmp a b l :
  before a b l -> (0 <? cmp a b)%float = false -> before a b (Array_sort cmp l).
Proof.
  intros H Hab; induction H as [l Hb | x l _ IH]; simpl.
  - apply insert_before_tied; [|assumption].
    eapply Permutation_in; [apply Array_sort_perm | exact Hb].
  - apply insert_keeps_before, IH.
Qed.

(** A number minus itself is never positive: it is a zero, or NaN for an
    infinity. *)
Lemma sub_diag_not_pos (d : float) : (0 <? d - d)%float = false.
Proof.
  rewrite ltb_spec, sub_spec.
  change (Prim2SF 0) with (S754_zero false).
  destruct (Prim2SF d) as [s|s| |s m e]; try (destruct s; reflexivity); try reflexivity.
  unfold SF64sub, SFsub; rewrite Z.sub_diag; reflexivity.
Qed.

Lemma byDistanceDesc_tie a b :
  distance a = distance b -> (0 <? byDistanceDesc a b)%float = false.
Proof. unfold byDistanceDesc; intros ->; apply sub_diag_not_pos. Qed.

Lemma binary_round_negative m e :
  SFltb (S754_zero false) (binary_round prec emax true m e) = false.
Proof.
  unfold binary_round.
  destruct (shl_align _ _ _) as [mz ez].
  unfold binary_round_aux.
  destruct (shr_fexp _ _ _ _ _) as [mrs' e'].
  destruct (shr_fexp _ _ _ _ _) as [mrs'' e''].
  destruct (shr_m mrs''); [reflexivity | | reflexivity].
  destruct (Z.leb e'' (Z.sub emax prec)); reflexivity.
Qed.

(** If [a - b] is positive, [b - a] is not. *)
Lemma sub_pos_antisym (a b : float) :
  (0 <? a - b)%float = true -> (0 <? b - a)%float = false.
Proof.
  rewrite !ltb_spec, !sub_spec.
  change (Prim2SF 0) with (S754_zero false).
  unfold SF64sub, SFsub.
  destruct (Prim2SF a) as [sa|sa| |sa ma ea], (Prim2SF b) as [sb|sb| |sb mb eb];
    try solve [unfold SFltb, SFcompare;
               repeat match goal with s : bool |- _ => destruct s end;
               simpl; congruence].
  rewrite (Z.min_comm eb ea).
  set (za := cond_Zopp sa (Zpos (fst (shl_align ma ea (Z.min ea eb))))).
  set (zb := cond_Zopp sb (Zpos (fst (shl_align mb eb (Z.min ea eb))))).
  replace (Z.sub zb za) with (Z.opp (Z.sub za zb)) by (unfold Z.sub; lia).
  destruct (Z.sub za zb) as [|d|d]; simpl.
  - discriminate.
  - intros _; apply binary_round_negative.
  - rewrite binary_round_negative; discriminate.
Qed.

(** ** The sign of a difference of two numbers *)

(** Shifting a mantissa to the left multiplies it by a power of two. *)
Lemma iter_xO_value m d : Zpos (Pos.iter xO m d) = Zpos m * 2 ^ Zpos d.
Proof.
  induction d as [|d IH] using Pos.peano_ind.
  - simpl; lia.
  - rewrite Pos.iter_succ, Pos2Z.inj_succ, Z.pow_succ_r by lia.
    rewrite Pos2Z.inj_xO, IH; lia.
Qed.

Lemma shl_align_value m e ez :
  ez <= e ->
  shl_align m e ez = (fst (shl_align m e ez), ez) /\
  Zpos (fst (shl_align m e ez)) = Zpos m * 2 ^ (e - ez).
Proof.
  intros H; unfold shl_align.
  destruct (ez - e) as [|d|d] eqn:E; try lia.
  - assert (ez = e) by lia; subst; simpl; rewrite Z.sub_diag, Z.pow_0_r; split; [reflexivity | lia].
  - simpl; rewrite iter_xO_value; replace (e - ez) with (Zpos d) by lia.
    split; reflexivity.
Qed.

Lemma digits2_bounds m :
  2 ^ (Zpos (digits2_pos m) - 1) <= Zpos m < 2 ^ Zpos (digits2_pos m).
Proof.
  induction m as [m IH|m IH|]; simpl digits2_pos.
  - rewrite Pos2Z.inj_succ, Z.pow_succ_r by lia.
    replace (Z.succ (Zpos (digits2_pos m)) - 1) with (Z.succ (Zpos (digits2_pos m) - 1)) by lia.
    rewrite Z.pow_succ_r by lia; lia.
  - rewrite Pos2Z.inj_succ, Z.pow_succ_r by lia.
    replace (Z.succ (Zpos (digits2_pos m)) - 1) with (Z.succ (Zpos (digits2_pos m) - 1)) by lia.
    rewrite Z.pow_succ_r by lia; lia.
  - simpl; lia.
Qed.

Lemma shr_1_m mrs : 0 <= shr_m mrs -> shr_m (shr_1 mrs) = shr_m mrs / 2.
Proof.
  destruct mrs as [m r s]; cbn [shr_m]; intros H.
  destruct m as [|[p|p|]|p]; unfold shr_1; cbn [shr_m]; try lia.
  - reflexivity.
  - apply Z.div_unique with (r := 1); lia.
  - apply Z.div_unique with (r := 0); lia.
  - reflexivity.
Qed.

Lemma iter_shr_1_m p :
  forall mrs, 0 <= shr_m mrs ->
    shr_m (iter_pos shr_1 p mrs) = shr_m mrs / 2 ^ Zpos p.
Proof.
  induction p as [p IH|p IH|]; intros mrs H; simpl iter_pos.
  - assert (P : 0 < 2 ^ Zpos p) by (apply Z.pow_pos_nonneg; lia).
    assert (H1 : 0 <= shr_m (shr_1 mrs))
      by (rewrite shr_1_m by exact H; apply Z.div_pos; lia).
    assert (H2 : 0 <= shr_m (iter_pos shr_1 p (shr_1 mrs)))
      by (rewrite IH by exact H1; apply Z.div_pos; lia).
    rewrite (IH _ H2), (IH _ H1), (shr_1_m _ H).
    rewrite !Z.div_div by lia.
    assert (E : 2 ^ Zpos p~1 = 2 * (2 ^ Zpos p * 2 ^ Zpos p)).
    { rewrite <- Z.pow_add_r, <- Z.pow_succ_r by lia; f_equal; lia. }
    rewrite E; reflexivity.
  - assert (P : 0 < 2 ^ Zpos p) by (apply Z.pow_pos_nonneg; lia).
    assert (H2 : 0 <= shr_m (iter_pos shr_1 p mrs))
      by (rewrite IH by exact H; apply Z.div_pos; lia).
    rewrite (IH _ H2), (IH _ H).
    rewrite Z.div_div by lia.
    assert (E : 2 ^ Zpos p~0 = 2 ^ Zpos p * 2 ^ Zpos p).
    { rewrite <- Z.pow_add_r by lia; f_equal; lia. }
    rewrite E; reflexivity.
  - rewrite shr_1_m by exact H; reflexivity.
Qed.

(** ** Rounding a positive mantissa gives a positive number *)

Lemma shr_record_of_loc_m m l : shr_m (shr_record_of_loc m l) = m.
Proof. destruct l as [|[]]; reflexivity. Qed.

Lemma shr_fexp_positive m e l :
  SpecFloat.emin prec emax <= e ->
  (exists m', shr_m (fst (shr_fexp prec emax (Zpos m) e l)) = Zpos m') /\
  SpecFloat.emin prec emax <= snd (shr_fexp prec emax (Zpos m) e l).
Proof.
  unfold shr_fexp, shr, fexp, SpecFloat.emin; change prec with 53; change emax with 1024.
  cbn [Zdigits2]; intros He.
  destruct (Z.max (Zpos (digits2_pos m) + e - 53) (3 - 1024 - 53) - e) as [|q|q] eqn:E;
    cbn [fst snd]; try (rewrite shr_record_of_loc_m; split; [eexists; reflexivity | lia]).
  split; [|lia].
  rewrite iter_shr_1_m by (rewrite shr_record_of_loc_m; lia).
  rewrite shr_record_of_loc_m.
  pose proof (digits2_bounds m) as [Hlo _].
  assert (Hq : Zpos q <= Zpos (digits2_pos m) - 1) by lia.
  assert (Hpow : 2 ^ Zpos q <= Zpos m).
  { eapply Z.le_trans; [|exact Hlo]; apply Z.pow_le_mono_r; lia. }
  assert (P : 0 < 2 ^ Zpos q) by (apply Z.pow_pos_nonneg; lia).
  assert (Hd : 1 <= Zpos m / 2 ^ Zpos q)
    by (apply Z.div_le_lower_bound; lia).
  destruct (Zpos m / 2 ^ Zpos q) as [|m'|m']; try lia.
  exists m'; reflexivity.
Qed.

Lemma binary_round_aux_positive m e l :
  SpecFloat.emin prec emax <= e ->
  SFltb (S754_zero false) (binary_round_aux prec emax false (Zpos m) e l) = true.
Proof.
  intros He; unfold binary_round_aux.
  destruct (shr_fexp_positive m e l He) as [[m1 H1] He1].
  destruct (shr_fexp prec emax (Zpos m) e l) as [mrs' e']; cbn [fst snd] in H1, He1.
  rewrite H1.
  assert (Hr : exists m2, round_nearest_even (Zpos m1) (loc_of_shr_record mrs') = Zpos m2).
  { unfold round_nearest_even; destruct (loc_of_shr_record mrs') as [|[]];
      try (eexists; reflexivity).
    destruct (Z.even (Zpos m1)); eexists; reflexivity. }
  destruct Hr as [m2 ->].
  destruct (shr_fexp_positive m2 e' loc_Exact He1) as [[m3 H3] _].
  destruct (shr_fexp prec emax (Zpos m2) e' loc_Exact) as [mrs'' e'']; cbn [fst] in H3.
  rewrite H3; destruct (Z.leb e'' (emax - prec)); reflexivity.
Qed.

Lemma binary_round_positive m e :
  SpecFloat.emin prec emax <= e ->
  SFltb (S754_zero false) (binary_round prec emax false m e) = true.
Proof.
  intros He; unfold binary_round.
  assert (Hf : SpecFloat.emin prec emax <= fexp prec emax (Zpos (digits2_pos m) + e))
    by (unfold fexp; lia).
  unfold shl_align.
  destruct (fexp prec emax (Zpos (digits2_pos m) + e) - e);
    apply binary_round_aux_positive; assumption.
Qed.

(** ** The order of two finite numbers is that of their aligned mantissas *)

Lemma bounded_canonical m e :
  bounded prec emax m e = true ->
  SpecFloat.emin prec emax <= e /\ Zpos (digits2_pos m) <= prec /\
  (SpecFloat.emin prec emax < e -> Zpos (digits2_pos m) = prec).
Proof.
  unfold bounded, canonical_mantissa, fexp, SpecFloat.emin.
  change prec with 53; change emax with 1024.
  intros H; apply andb_true_iff in H; destruct H as [H _].
  apply Z.eqb_eq in H; lia.
Qed.

Lemma magnitude_compare m1 e1 m2 e2 :
  bounded prec emax m1 e1 = true -> bounded prec emax m2 e2 = true ->
  match Z.compare e1 e2 with
  | Lt => Lt
  | Gt => Gt
  | Eq => Pos.compare_cont Eq m1 m2
  end
  = Z.compare (Zpos (fst (shl_align m1 e1 (Z.min e1 e2))))
              (Zpos (fst (shl_align m2 e2 (Z.min e1 e2)))).
Proof.
  intros B1 B2.
  destruct (bounded_canonical _ _ B1) as (L1 & D1 & N1).
  destruct (bounded_canonical _ _ B2) as (L2 & D2 & N2).
  destruct (shl_align_value m1 e1 (Z.min e1 e2) ltac:(lia)) as [_ ->].
  destruct (shl_align_value m2 e2 (Z.min e1 e2) ltac:(lia)) as [_ ->].
  pose proof (digits2_bounds m1) as [Lo1 Hi1].
  pose proof (digits2_bounds m2) as [Lo2 Hi2].
  change prec with 53 in *.
  assert (P53 : forall d, d <= 53 -> 2 ^ d <= 2 ^ 53)
    by (intros d Hd; destruct (Z_le_gt_dec 0 d);
        [apply Z.pow_le_mono_r; lia | rewrite Z.pow_neg_r by lia; lia]).
  destruct (Z.compare_spec e1 e2) as [E|E|E].
  - subst e2; rewrite Z.min_id, Z.sub_diag, Z.pow_0_r, !Z.mul_1_r; reflexivity.
  - rewrite Z.min_l, Z.sub_diag, Z.pow_0_r, Z.mul_1_r by lia.
    symmetry; apply Z.compare_lt_iff.
    rewrite (N2 ltac:(lia)) in Lo2.
    assert (2 <= 2 ^ (e2 - e1)) by (apply (Z.pow_le_mono_r 2 1); lia).
    assert (Zpos m1 < 2 ^ 53) by (specialize (P53 _ D1); lia).
    change (2 ^ (53 - 1)) with 4503599627370496 in Lo2.
    change (2 ^ 53) with 9007199254740992 in *; nia.
  - rewrite Z.min_r, Z.sub_diag, Z.pow_0_r, Z.mul_1_r by lia.
    symmetry; apply Z.compare_gt_iff.
    rewrite (N1 ltac:(lia)) in Lo1.
    assert (2 <= 2 ^ (e1 - e2)) by (apply (Z.pow_le_mono_r 2 1); lia).
    assert (Zpos m2 < 2 ^ 53) by (specialize (P53 _ D2); lia).
    change (2 ^ (53 - 1)) with 4503599627370496 in Lo1.
    change (2 ^ 53) with 9007199254740992 in *; nia.
Qed.

(** The sign of a rounded difference is the sign of the difference. *)
Lemma binary_normalize_positive d e :
  SpecFloat.emin prec emax <= e ->
  SFltb (S754_zero false) (binary_normalize prec emax d e false) = (0 <? d).
Proof.
  intros He; destruct d as [|d|d]; simpl binary_normalize.
  - reflexivity.
  - apply binary_round_positive, He.
  - apply binary_round_negative.
Qed.

(** For numbers of a valid representation, [y - x] is positive exactly
    when [x] is below [y]. *)
Lemma SFsub_positive x y :
  valid_binary x = true -> valid_binary y = true ->
  SFltb (S754_zero false) (SF64sub y x) = SFltb x y.
Proof.
  intros Vx Vy.
  destruct x as [sx|sx| |sx mx ex], y as [sy|sy| |sy my ey];
    try solve [unfold SF64sub, SFsub, SFltb, SFcompare;
               repeat match goal with s : bool |- _ => destruct s end; reflexivity].
  unfold valid_binary in Vx, Vy; simpl in Vx, Vy.
  destruct (bounded_canonical _ _ Vx) as (Lx & _), (bounded_canonical _ _ Vy) as (Ly & _).
  unfold SF64sub, SFsub.
  rewrite binary_normalize_positive by lia.
  pose proof (magnitude_compare mx ex my ey Vx Vy) as M.
  rewrite (Z.min_comm ey ex).
  set (ax := Zpos (fst (shl_align mx ex (Z.min ex ey)))) in *.
  set (ay := Zpos (fst (shl_align my ey (Z.min ex ey)))) in *.
  assert (0 < ax /\ 0 < ay) as [Px Py] by (unfold ax, ay; lia).
  clearbody ax ay.
  assert (M' : match Z.compare ex ey with
               | Lt => Gt
               | Gt => Lt
               | Eq => CompOpp (Pos.compare_cont Eq mx my)
               end = CompOpp (Z.compare ax ay))
    by (rewrite <- M; destruct (Z.compare ex ey); reflexivity).
  unfold SFltb, SFcompare.
  destruct sx, sy; cbv [cond_Zopp].
  - rewrite M'; destruct (Z.compare_spec ax ay); simpl;
      [apply Z.ltb_ge | apply Z.ltb_ge | apply Z.ltb_lt]; lia.
  - apply Z.ltb_lt; lia.
  - apply Z.ltb_ge; lia.
  - rewrite M; destruct (Z.compare_spec ax ay); simpl;
      [apply Z.ltb_ge | apply Z.ltb_lt | apply Z.ltb_ge]; lia.
Qed.

(** In JavaScript's numbers [b - a] is positive exactly when [a < b]. *)
Lemma sub_positive_iff (a b : float) : (0 <? b - a)%float = (a <? b)%float.
Proof.
  rewrite !ltb_spec, sub_spec.
  change (Prim2SF 0) with (S754_zero false).
  apply SFsub_positive; apply Prim2SF_valid.
Qed.

(** The comparator of the sort is positive exactly when its first argument
    is behind its second. *)
Lemma byDistanceDesc_positive a b :
  (0 <? byDistanceDesc a b)%float = (distance a <? distance b)%float.
Proof. apply sub_positive_iff. Qed.

Lemma byDistanceDesc_antisym a b :
  (0 <? byDistanceDesc a b)%float = true -> (0 <? byDistanceDesc b a)%float = false.
Proof. apply sub_pos_antisym. Qed.

Section InOrder.
Variable cmp : Racer -> Racer -> float.
Hypothesis cmp_antisym :
  forall a b, (0 <? cmp a b)%float = true -> (0 <? cmp b a)%float = false.

Lemma insert_inOrder x l : inOrder cmp l = true -> inOrder cmp (insert cmp x l) = true.
Proof.
  induction l as [|y l IH]; intros H; [reflexivity|].
  simpl insert; destruct (0 <? cmp x y)%float eqn:C.
  - assert (Hl : inOrder cmp l = true).
    { destruct l; [reflexivity|]; simpl in H; apply andb_true_iff in H; apply H. }
    specialize (IH Hl).
    destruct l as [|z l]; simpl insert in *.
    + simpl; rewrite (cmp_antisym _ _ C); reflexivity.
    + simpl in H; apply andb_true_iff in H; destruct H as [Hyz _].
      destruct (0 <? cmp x z)%float eqn:C2.
      * change (inOrder cmp (y :: z :: insert cmp x l))
          with (negb (0 <? cmp y z)%float && inOrder cmp (z :: insert cmp x l))%bool.
        rewrite Hyz; exact IH.
      * change (inOrder cmp (y :: x :: z :: l))
          with (negb (0 <? cmp y x)%float && inOrder cmp (x :: z :: l))%bool.
        rewrite (cmp_antisym _ _ C); exact IH.
  - change (inOrder cmp (x :: y :: l))
      with (negb (0 <? cmp x y)%float && inOrder cmp (y :: l))%bool.
    rewrite C; exact H.
Qed.

Lemma Array_sort_is_inOrder l : inOrder cmp (Array_sort cmp l) = true.
Proof. induction l as [|x l IH]; [reflexivity | apply insert_inOrder, IH]. Qed.
End InOrder.

(** An array is in order exactly when no racer is directly followed by one
    that the comparator puts first. *)
Lemma inOrder_adjacent cmp l :
  inOrder cmp l = true <->
  forall l1 a b l2, l = l1 ++ a :: b :: l2 -> (0 <? cmp a b)%float = false.
Proof.
  induction l as [|x l IH].
  - split; [intros _ [|? ?] ? ? ? H; discriminate | reflexivity].
  - destruct l as [|y l].
    + split; [|reflexivity].
      intros _ [|? [|? ?]] ? ? ? H; discriminate.
    + change (inOrder cmp (x :: y :: l))
        with (negb (0 <? cmp x y)%float && inOrder cmp (y :: l))%bool.
      rewrite andb_true_iff, negb_true_iff, IH; split.
      * intros [Hxy Hl] [|z l1] a b l2 H; simpl in H; inversion H; subst.
        -- exact Hxy.
        -- eapply Hl; eassumption.
      * intros H; split; [apply (H [] x y l); reflexivity|].
        intros l1 a b l2 E; apply (H (x :: l1) a b l2); rewrite E; reflexivity.
Qed.

(** An array is in descending order of distance, ties allowed, exactly when
    no racer is directly followed by one with a greater distance. *)
Lemma descending_adjacent l :
  inOrder byDistanceDesc l = true <->
  forall l1 a b l2, l = l1 ++ a :: b :: l2 -> (distance a <? distance b)%float = false.
Proof.
  rewrite inOrder_adjacent; split; intros H l1 a b l2 E.
  - rewrite <- byDistanceDesc_positive; eapply H; exact E.
  - rewrite byDistanceDesc_positive; eapply H; exact E.
Qed.

(** ** Looking up ids *)

(** In an array without repeats [indexOf] of the element at [k] is [k]. *)
Lemma indexOf_nth_error l :
  NoDup l -> forall k x, nth_error l k = Some x -> indexOf x l = Z.of_nat k.
Proof.
  induction 1 as [|y l Hy _ IH]; intros k x Hk; [destruct k; discriminate|].
  destruct k as [|k]; simpl in *.
  - inversion Hk; subst; rewrite Z.eqb_refl; reflexivity.
  - destruct (Z.eqb_spec y x) as [->|N].
    + exfalso; apply Hy; eapply nth_error_In; eassumption.
    + rewrite (IH _ _ Hk).
      destruct (Z.of_nat k <? 0) eqn:E; [apply Z.ltb_lt in E; lia | lia].
Qed.

Lemma indexOf_range x l : -1 <= indexOf x l < Z.of_nat (List.length l).
Proof.
  induction l as [|y l IH]; simpl; [lia|].
  destruct (y =? x); [lia|].
  destruct (indexOf x l <? 0) eqn:E; [lia|].
  apply Z.ltb_ge in E; lia.
Qed.

Lemma indexOf_missing x l : ~ In x l -> indexOf x l = -1.
Proof.
  induction l as [|y l IH]; simpl; intros H; [reflexivity|].
  destruct (Z.eqb_spec y x) as [->|N]; [exfalso; auto|].
  rewrite IH by tauto; reflexivity.
Qed.

(** [indexOf] gives the previous index: the first index that holds the id. *)
Lemma indexOf_first x l : forall p, previousIndex l x p -> indexOf x l = Z.of_nat p.
Proof.
  induction l as [|y l IH]; intros p [Hn Hmin]; [destruct p; discriminate|].
  simpl; destruct (Z.eqb_spec y x) as [->|N].
  - destruct p as [|p]; [reflexivity|].
    exfalso; apply (Hmin O); [lia | reflexivity].
  - destruct p as [|p]; [simpl in Hn; congruence|].
    rewrite (IH p).
    + destruct (Z.of_nat p <? 0) eqn:E; [apply Z.ltb_lt in E; lia | lia].
    + split; [exact Hn|].
      intros q Hq; apply (Hmin (S q)); lia.
Qed.

Lemma indexOf_found x l :
  0 <= indexOf x l -> previousIndex l x (Z.to_nat (indexOf x l)).
Proof.
  induction l as [|y l IH]; simpl; [lia|].
  destruct (Z.eqb_spec y x) as [->|N].
  - intros _; split; [reflexivity | intros q Hq; simpl in Hq; lia].
  - destruct (indexOf x l <? 0) eqn:E; [lia|]; intros _.
    apply Z.ltb_ge in E; destruct (IH E) as [Hn Hmin].
    replace (Z.to_nat (indexOf x l + 1)) with (S (Z.to_nat (indexOf x l))) by lia.
    split; [exact Hn|].
    intros [|q] Hq; simpl; [congruence | apply Hmin; lia].
Qed.

(** The previous index of an id is above [i] exactly when [indexOf] is. *)
Lemma previousIndex_above x l i :
  indexOf x l > i /\ 0 <= i <-> exists p, previousIndex l x p /\ i < Z.of_nat p /\ 0 <= i.
Proof.
  split.
  - intros [H Hi]; exists (Z.to_nat (indexOf x l)); split; [apply indexOf_found; lia | lia].
  - intros (p & Hp & H & Hi); rewrite (indexOf_first x l p Hp); lia.
Qed.


Lemma find_by_id x st :
  In x (map id st) ->
  exists r, List.find (fun y => id y =? x) st = Some r /\ id r = x.
Proof.
  induction st as [|y st IH]; simpl; intros H; [destruct H|].
  destruct (Z.eqb_spec (id y) x) as [E|N].
  - exists y; split; [reflexivity | assumption].
  - destruct H as [H|H]; [contradiction | apply IH, H].
Qed.

Lemma updateFirst_priceOnly p f st r :
  List.find p st = Some r -> priceOnly r (f r) ->
  Forall2 priceOnly st (updateFirst p f st).
Proof.
  intros Hfind Hf; induction st as [|x st IH]; simpl in *; [constructor|].
  destruct (p x).
  - inversion Hfind; subst; constructor; [assumption | apply Forall2_reflexive, priceOnly_refl].
  - constructor; [apply priceOnly_refl | apply IH, Hfind].
Qed.

Lemma combine_seq_In {A} (l : list A) k i x :
  In (i, x) (combine (seq k (List.length l)) l) <->
  (k <= i)%nat /\ nth_error l (i - k) = Some x.
Proof.
  revert k; induction l as [|y l IH]; intros k; simpl.
  - split; [intros [] | intros [_ H]; destruct (i - k)%nat; discriminate].
  - split.
    + intros [H|H].
      * inversion H; subst; rewrite Nat.sub_diag; split; [lia | reflexivity].
      * apply IH in H; destruct H as [Hk Hn]; split; [lia|].
        replace (i - k)%nat with (S (i - S k)) by lia; exact Hn.
    + intros [Hk Hn]; destruct (i - k)%nat as [|n] eqn:E.
      * left; inversion Hn; subst; f_equal; lia.
      * right; apply IH; split; [lia|].
        replace (i - S k)%nat with n by lia; exact Hn.
Qed.

Lemma Forall2_priceOnly_ids l l' : Forall2 priceOnly l l' -> map id l' = map id l.
Proof.
  intros H; apply Forall2_evolves_ids.
  eapply Forall2_weaken; [|exact H]; intros a b Hab; apply Hab.
Qed.

(** ** The overtake loop *)

Lemma overtakeEventsFrom_cons t prev x rest k :
  overtakeEventsFrom t prev (x :: rest) k =
  (if indexOf x prev >? Z.of_nat k
   then [Overtake t x (indexOf x prev + 1) (Z.of_nat k + 1)] else [])
  ++ overtakeEventsFrom t prev rest (S k).
Proof. reflexivity. Qed.

(** The loop never meets an id that [state.find] misses, so it completes; it
    only re-prices, and the event lines it prints are those of the rule. *)
Lemma overtakeLoop_ok t prev cur :
  forall k st w,
    (forall x, In x cur -> In x (map id st)) ->
    exists st' w',
      overtakeLoop t prev cur (Z.of_nat k) st w = (Ok st', w') /\
      Forall2 priceOnly st st' /\ sameSources w w' /\
      events w' = rev (overtakeEventsFrom t prev cur k) ++ events w.
Proof.
  induction cur as [|x rest IH]; intros k st w Hin.
  - exists st, w; repeat split; apply Forall2_reflexive, priceOnly_refl.
  - rewrite overtakeEventsFrom_cons.
    assert (Hnext : Z.of_nat k + 1 = Z.of_nat (S k)) by lia.
    cbn [overtakeLoop]; unfold overtakeAt.
    destruct (indexOf x prev >? Z.of_nat k) eqn:G.
    + destruct (find_by_id x st (Hin x (or_introl eq_refl))) as (r & Hfind & Hid).
      rewrite Hfind, Hid.
      set (nw := applyPercentBigInt (currentPriceWei r) OVERTAKE_BONUS_PCT true) in *.
      set (st1 := updateFirst (fun y => id y =? x) (set_currentPriceWei nw) st).
      assert (H1 : Forall2 priceOnly st st1).
      { apply (updateFirst_priceOnly _ _ _ r Hfind).
        split; [|split; reflexivity].
        apply evolves_one, (step_price r OVERTAKE_BONUS_PCT true); auto. }
      set (w1 := mkWorld (draws w) (drawn w) (net w) ((x, nw) :: posted w)
                   (answerLine ByOvertake (net w (List.length (posted w)))
                    :: Overtake t x (indexOf x prev + 1) (Z.of_nat k + 1) :: console w)).
      destruct (IH (S k) st1 w1) as (st' & w' & E & F & Hs & Ev).
      { intros y Hy; rewrite (Forall2_priceOnly_ids _ _ H1); apply Hin; right; exact Hy. }
      exists st', w'; split; [|split; [|split]].
      * unfold bind, console_log; rewrite pushPrice_spec; unfold ret.
        rewrite <- Hnext in E; exact E.
      * eapply (Forall2_transitive _ priceOnly_trans); eassumption.
      * exact Hs.
      * rewrite Ev; unfold w1; rewrite events_pushed; simpl.
        rewrite <- app_assoc; reflexivity.
    + unfold bind at 1, ret at 1; rewrite Hnext.
      destruct (IH (S k) st w) as (st' & w' & E & F & Hs & Ev).
      { intros y Hy; apply Hin; right; exact Hy. }
      exists st', w'; repeat split; try assumption; apply Hs.
Qed.

Lemma detectOvertakes_ok t last st w :
  exists st' w',
    detectOvertakes t last st w = (Ok (st', map id st), w') /\
    Forall2 priceOnly st st' /\ sameSources w w' /\
    events w' = rev (expectedOvertakes t last (map id st)) ++ events w.
Proof.
  destruct last as [prev|]; simpl.
  - destruct (overtakeLoop_ok t prev (map id st) 0 st w (fun x H => H))
      as (st' & w' & E & F & Hs & Ev).
    exists st', w'; repeat split; try assumption; try apply Hs.
    change 0 with (Z.of_nat 0); rewrite (bind_Ok _ _ _ _ _ E); reflexivity.
  - exists st, w; repeat split; apply Forall2_reflexive, priceOnly_refl.
Qed.

(** ** One tick *)

(** The loop body always completes, pass after pass: distance pass, sort,
    overtake detection, crash pass, finish pass. *)
Lemma tickBody_anatomy rs w :
  let t := S (tick rs) in
  exists st1 w1 st3 w3 st4 w4 st5 w5,
    forEach advanceOne (state rs) w = (Ok st1, w1) /\
    Forall2 (advanced (draws w)) (state rs) st1 /\
    detectOvertakes t (lastOrder rs) (Array_sort byDistanceDesc st1) w1
      = (Ok (st3, map id (Array_sort byDistanceDesc st1)), w3) /\
    Forall2 priceOnly (Array_sort byDistanceDesc st1) st3 /\
    events w3 = rev (expectedOvertakes t (lastOrder rs)
                       (map id (Array_sort byDistanceDesc st1))) ++ events w1 /\
    forEach (crashOne t) st3 w3 = (Ok st4, w4) /\
    Forall2 (crashedOrNot (draws w)) st3 st4 /\
    forEach (finishOne t) st4 w4 = (Ok st5, w5) /\
    Forall2 finishedOrNot st4 st5 /\
    tickBody rs w
      = (Ok (mkRaceState st5 (Some (map id (Array_sort byDistanceDesc st1))) t), w5) /\
    sameSources w w5.
Proof.
  intros t.
  destruct (forEach_ok advanceOne advanced advanceOne_ok (state rs) w)
    as (st1 & w1 & E1 & F1 & S1).
  destruct (detectOvertakes_ok t (lastOrder rs) (Array_sort byDistanceDesc st1) w1)
    as (st3 & w3 & E3 & F3 & S3 & Ev3).
  destruct (forEach_ok (crashOne t) crashedOrNot (crashOne_ok t) st3 w3)
    as (st4 & w4 & E4 & F4 & S4).
  destruct (forEach_ok (finishOne t) (fun _ => finishedOrNot) (finishOne_ok t) st4 w4)
    as (st5 & w5 & E5 & F5 & S5).
  exists st1, w1, st3, w3, st4, w4, st5, w5.
  assert (S13 : sameSources w w3) by (eapply sameSources_trans; eassumption).
  rewrite (proj1 S13) in F4.
  repeat (split; [assumption|]); split.
  - unfold tickBody; fold t.
    rewrite (bind_Ok _ _ _ _ _ E1), (bind_Ok _ _ _ _ _ E3); simpl.
    rewrite (bind_Ok _ _ _ _ _ E4), (bind_Ok _ _ _ _ _ E5); reflexivity.
  - eapply sameSources_trans; [exact S13|].
    eapply sameSources_trans; eassumption.
Qed.

(** In short: the body completes, keeps the random source and the network,
    counts the tick, records the order in which it leaves the array, and
    every racer of the new array is a racer of the old one after some of the
    loop's assignments. *)
Lemma tickBody_ok rs w :
  exists rs' w',
    tickBody rs w = (Ok rs', w') /\ sameSources w w' /\
    tick rs' = S (tick rs) /\
    lastOrder rs' = Some (map id (state rs')) /\
    reordered (state rs) (state rs').
Proof.
  destruct (tickBody_anatomy rs w)
    as (st1 & w1 & st3 & w3 & st4 & w4 & st5 & w5 &
        _ & F1 & _ & F3 & _ & _ & F4 & _ & F5 & E & Hs).
  apply (Forall2_weaken _ evolves _ _ (advanced_evolves _)) in F1.
  apply (Forall2_weaken _ evolves _ _ (fun a b H => proj1 H)) in F3.
  apply (Forall2_weaken _ evolves _ _ (crashedOrNot_evolves _)) in F4.
  apply (Forall2_weaken _ evolves _ _ finishedOrNot_evolves) in F5.
  assert (F35 : Forall2 evolves (Array_sort byDistanceDesc st1) st5).
  { eapply (Forall2_transitive _ evolves_trans); [exact F3|].
    eapply (Forall2_transitive _ evolves_trans); eassumption. }
  eexists _, w5; split; [exact E|]; split; [exact Hs|]; split; [reflexivity|]; split.
  - simpl; rewrite (Forall2_evolves_ids _ _ F35); reflexivity.
  - simpl.
    destruct (Forall2_Permutation evolves _ _ (Array_sort_perm byDistanceDesc st1) _ F1)
      as (m & Pm & Fm).
    exists m; split; [exact Pm | eapply (Forall2_transitive _ evolves_trans); eassumption].
Qed.

(** Any number of ticks completes, with the same guarantees. *)
Lemma ticks_ok n :
  forall rs w, exists rs' w',
    ticks n rs w = (Ok rs', w') /\ sameSources w w' /\
    tick rs' = (n + tick rs)%nat /\ reordered (state rs) (state rs').
Proof.
  induction n as [|n IH]; intros rs w.
  - exists rs, w; repeat split; apply reordered_refl.
  - destruct (tickBody_ok rs w) as (rs1 & w1 & E1 & S1 & T1 & _ & R1).
    destruct (IH rs1 w1) as (rs' & w' & E & S' & T' & R').
    exists rs', w'; split; [|split; [|split]].
    + simpl; rewrite (bind_Ok _ _ _ _ _ E1); exact E.
    + eapply sameSources_trans; eassumption.
    + rewrite T', T1; lia.
    + eapply reordered_trans; eassumption.
Qed.

(** ** Independence from the network *)

Lemma sameDraws_refl w : sameDraws w w.
Proof. split; reflexivity. Qed.

Lemma oblivious_ret {A} (a : A) : oblivious (ret a).
Proof. intros w1 w2 H; split; [reflexivity | exact H]. Qed.

Lemma oblivious_throw {A} e : oblivious (@throw A e).
Proof. intros w1 w2 H; split; [reflexivity | exact H]. Qed.

Lemma oblivious_bind {A B} (m : M A) (f : A -> M B) :
  oblivious m -> (forall a, oblivious (f a)) -> oblivious (bind m f).
Proof.
  intros Hm Hf w1 w2 H; destruct (Hm w1 w2 H) as [E S]; unfold bind.
  destruct (m w1) as [[a1|e1] w1'], (m w2) as [[a2|e2] w2'];
    simpl in E, S; inversion E; subst.
  - apply Hf, S.
  - split; [reflexivity | exact S].
Qed.

Lemma oblivious_Math_random : oblivious Math_random.
Proof.
  intros w1 w2 [D N]; unfold Math_random, sameDraws; simpl.
  rewrite D, N; repeat split.
Qed.

Lemma oblivious_console_log l : oblivious (console_log l).
Proof. intros w1 w2 H; split; [reflexivity | exact H]. Qed.

(** The try/catch absorbs the only place where the network is read. *)
Lemma oblivious_pushPrice c i p : oblivious (pushPrice c i p).
Proof. intros w1 w2 H; rewrite !pushPrice_spec; split; [reflexivity | exact H]. Qed.

Ltac oblivious :=
  repeat first
    [ apply oblivious_ret
    | apply oblivious_throw
    | apply oblivious_Math_random
    | apply oblivious_console_log
    | apply oblivious_pushPrice
    | apply oblivious_bind; [|intros]
    | match goal with
      | |- oblivious (if ?b then _ else _) => destruct b
      | |- oblivious (match ?x with _ => _ end) => destruct x
      end ].

Lemma oblivious_forEach body l :
  (forall r, oblivious (body r)) -> oblivious (forEach body l).
Proof. intros H; induction l; simpl; oblivious; auto. Qed.

Lemma oblivious_advanceOne r : oblivious (advanceOne r).
Proof. unfold advanceOne; oblivious. Qed.

Lemma oblivious_crashOne t r : oblivious (crashOne t r).
Proof. unfold crashOne; oblivious. Qed.

Lemma oblivious_finishOne t r : oblivious (finishOne t r).
Proof. unfold finishOne; oblivious. Qed.

Lemma oblivious_overtakeLoop t prev cur :
  forall i st, oblivious (overtakeLoop t prev cur i st).
Proof.
  induction cur as [|x rest IH]; intros i st; simpl; [oblivious|].
  apply oblivious_bind; [unfold overtakeAt; oblivious | intros; apply IH].
Qed.

Lemma oblivious_detectOvertakes t last st : oblivious (detectOvertakes t last st).
Proof.
  unfold detectOvertakes; destruct last; [|oblivious].
  apply oblivious_bind; [apply oblivious_overtakeLoop | intros; oblivious].
Qed.

Lemma oblivious_tickBody rs : oblivious (tickBody rs).
Proof.
  unfold tickBody.
  apply oblivious_bind; [apply oblivious_forEach, oblivious_advanceOne | intros].
  apply oblivious_bind; [apply oblivious_detectOvertakes | intros].
  apply oblivious_bind; [apply oblivious_forEach, oblivious_crashOne | intros].
  apply oblivious_bind; [apply oblivious_forEach, oblivious_finishOne | intros].
  oblivious.
Qed.

Lemma oblivious_finalRanking rs : oblivious (finalRanking rs).
Proof. unfold finalRanking; oblivious. Qed.

(** The loop does the same to the race whatever the network answers. *)
Lemma raceLoop_oblivious fuel :
  forall rs w1 w2, sameDraws w1 w2 ->
    option_map fst (raceLoop fuel rs w1) = option_map fst (raceLoop fuel rs w2).
Proof.
  induction fuel as [|fuel IH]; intros rs w1 w2 H; simpl; [reflexivity|].
  destruct (oblivious_tickBody rs w1 w2 H) as [E S].
  destruct (tickBody rs w1) as [[rs1|e1] w1'], (tickBody rs w2) as [[rs2|e2] w2'];
    simpl in E, S; inversion E; subst; [|reflexivity].
  destruct (allFinished rs2); [|apply IH, S].
  simpl; f_equal; apply (oblivious_finalRanking rs2), S.
Qed.

(** ** The loop *)

Lemma ticks_S k rs w rs1 w1 :
  tickBody rs w = (Ok rs1, w1) -> ticks (S k) rs w = ticks k rs1 w1.
Proof. intros E; simpl; apply bind_Ok, E. Qed.

Lemma forallb_Permutation {A} (f : A -> bool) l l' :
  Permutation l l' -> forallb f l = forallb f l'.
Proof.
  induction 1; simpl; try congruence.
  destruct (f x), (f y); reflexivity.
Qed.

(** The exit branch completes and all racers are still finished in the
    final ranking. *)
Lemma finalRanking_ok rs w :
  exists rs' w',
    finalRanking rs w = (Ok rs', w') /\ allFinished rs' = allFinished rs /\
    Permutation (state rs) (state rs').
Proof.
  eexists _, _; split; [reflexivity|]; simpl; split.
  - unfold allFinished; simpl; symmetry.
    apply forallb_Permutation, Array_sort_perm.
  - apply Array_sort_perm.
Qed.

(** The loop has left the [while] within [fuel] ticks exactly when some tick
    [n] of those is the first to end with every racer finished; what it
    returns is the final ranking of that tick. *)
Lemma raceLoop_Some fuel :
  forall rs w res w',
    raceLoop fuel rs w = Some (res, w') <->
    exists n rs_n w_n,
      (1 <= n <= fuel)%nat /\ ticks n rs w = (Ok rs_n, w_n) /\
      allFinished rs_n = true /\
      (forall k rs_k w_k, (1 <= k < n)%nat ->
         ticks k rs w = (Ok rs_k, w_k) -> allFinished rs_k = false) /\
      finalRanking rs_n w_n = (res, w').
Proof.
  induction fuel as [|f IH]; intros rs w res w'.
  - simpl; split; [discriminate | intros (n & ? & ? & Hn & _); lia].
  - simpl; destruct (tickBody_ok rs w) as (rs1 & w1 & E1 & _); rewrite E1.
    pose proof (fun k => ticks_S k rs w rs1 w1 E1) as T1.
    destruct (allFinished rs1) eqn:A.
    + split.
      * intros H; inversion H as [H0].
        exists 1%nat, rs1, w1; split; [lia|]; split; [rewrite T1; reflexivity|].
        split; [exact A|]; split; [intros; lia | reflexivity].
      * intros (n & rs_n & w_n & Hn & Ht & Hfin & Hmin & Hfinal).
        destruct n as [|[|n]]; [lia | |].
        -- rewrite T1 in Ht; inversion Ht; subst; rewrite Hfinal; reflexivity.
        -- rewrite (Hmin 1%nat rs1 w1) in A; [discriminate | lia | rewrite T1; reflexivity].
    + rewrite IH; split.
      * intros (n & rs_n & w_n & Hn & Ht & Hfin & Hmin & Hfinal).
        exists (S n), rs_n, w_n; split; [lia|]; split; [rewrite T1; exact Ht|].
        split; [exact Hfin|]; split; [|exact Hfinal].
        intros k rs_k w_k Hk Hk2; destruct k as [|[|k]]; [lia | |].
        -- rewrite T1 in Hk2; inversion Hk2; subst; exact A.
        -- rewrite T1 in Hk2; apply (Hmin (S k) rs_k w_k); [lia | exact Hk2].
      * intros (n & rs_n & w_n & Hn & Ht & Hfin & Hmin & Hfinal).
        destruct n as [|[|n]]; [lia | |].
        -- rewrite T1 in Ht; inversion Ht; subst; congruence.
        -- exists (S n), rs_n, w_n; split; [lia|]; split; [rewrite <- T1; exact Ht|].
           split; [exact Hfin|]; split; [|exact Hfinal].
           intros k rs_k w_k Hk Hk2; apply (Hmin (S k) rs_k w_k); [lia|].
           rewrite T1; exact Hk2.
Qed.

(** The loop is still running after [fuel] ticks exactly when each of them
    ended with some racer unfinished. *)
Lemma raceLoop_None fuel :
  forall rs w,
    raceLoop fuel rs w = None <->
    forall k rs_k w_k, (1 <= k <= fuel)%nat ->
      ticks k rs w = (Ok rs_k, w_k) -> allFinished rs_k = false.
Proof.
  induction fuel as [|f IH]; intros rs w.
  - simpl; split; [intros; lia | reflexivity].
  - simpl; destruct (tickBody_ok rs w) as (rs1 & w1 & E1 & _); rewrite E1.
    pose proof (fun k => ticks_S k rs w rs1 w1 E1) as T1.
    destruct (allFinished rs1) eqn:A.
    + split; [intros H; destruct (finalRanking rs1 w1); discriminate|].
      intros H; rewrite (H 1%nat rs1 w1) in A; [discriminate | lia | rewrite T1; reflexivity].
    + rewrite IH; split.
      * intros H k rs_k w_k Hk Hk2; destruct k as [|[|k]]; [lia | |].
        -- rewrite T1 in Hk2; inversion Hk2; subst; exact A.
        -- rewrite T1 in Hk2; apply (H (S k) rs_k w_k); [lia | exact Hk2].
      * intros H k rs_k w_k Hk Hk2; apply (H (S k) rs_k w_k); [lia|].
        rewrite T1; exact Hk2.
Qed.

(** No exception leaves the loop. *)
Lemma raceLoop_no_throw fuel :
  forall rs w e w', raceLoop fuel rs w <> Some (Throw e, w').
Proof.
  induction fuel as [|f IH]; intros rs w e w'; simpl; [discriminate|].
  destruct (tickBody_ok rs w) as (rs1 & w1 & E1 & _); rewrite E1.
  destruct (allFinished rs1); [|apply IH].
  destruct (finalRanking_ok rs1 w1) as (rs2 & w2 & E2 & _); rewrite E2; discriminate.
Qed.

(** * The distance pass (section 4.1) *)

(** Away from [consistency = 0] the engine's speed is the formula of the
    specification. *)
Lemma racerSpeedTick_speedSample s a c u1 u2 :
  c <> 0 -> racerSpeedTick s a c u1 u2 = speedSample s a c u1 u2.
Proof.
  intros H; unfold racerSpeedTick, speedSample, orDefault.
  destruct (Z.eqb_spec c 0); [contradiction | reflexivity].
Qed.

(** C1: the distance pass does not compute the claimed increment at
    [consistency = 0].  For the racer [erratic] ([speed = 10],
    [aggression = 0], [consistency = 0], distance [0]) and a noise draw of
    [0.75] it adds [10.625] where the formula with
    [consistencyFactor = 0 / 200] gives [11.25].  The cause is
    [racer.consistency || 100]: for every speed, aggression and pair of
    draws the engine computes at consistency [0] what the formula gives at
    consistency [100], so that [0] is steadier than [1] (same stats and
    draws, above [11] at consistency [1]); the crash pass of the same tick
    reads the stat without a default and takes [0] for the least consistent
    value (at aggression [255] the crash probability is higher at
    consistency [0] than at [100]). *)
Theorem consistency_zero_is_read_as_100 :
  advanceOne erratic (firstDraw 0.75)
    = (Ok (mkRacer 7 "Erratic" 10 0 0 10.625 false 1000),
       mkWorld (draws (firstDraw 0.75)) 2 (net (firstDraw 0.75)) [] []) /\
  (distance erratic + speedSample 10 0 0 0.75 0)%float = 11.25%float /\
  (forall s a u1 u2, racerSpeedTick s a 0 u1 u2 = speedSample s a 100 u1 u2) /\
  (11 <? racerSpeedTick 10 0 1 0.75 0)%float = true /\
  (crashProb (mkRacer 7 "Erratic" 10 255 100 0 false 1000)
   <? crashProb (mkRacer 7 "Erratic" 10 255 0 0 false 1000))%float = true.
Proof.
  split; [reflexivity|]; split; [reflexivity|]; split; [reflexivity|].
  split; reflexivity.
Qed.

(** X22: for an unfinished racer whose consistency is not [0], the distance
    pass draws twice and adds to the distance the speed sample of the
    specification for the racer's stats and those two draws:
    [max(0, speedStat + aggressionBurst + noise)] with
    [consistencyFactor = consistency / 200], not clamped; nothing else of
    the racer or of the world changes. *)
Theorem speed_sample_nonzero_consistency r w :
  finished r = false ->
  consistency r <> 0 ->
  advanceOne r w =
  (Ok (mkRacer (id r) (name r) (speedStat r) (aggression r) (consistency r)
         (distance r +
          speedSample (speedStat r) (aggression r) (consistency r)
            (draws w (drawn w)) (draws w (S (drawn w))))%float
         false (currentPriceWei r)),
   mkWorld (draws w) (S (S (drawn w))) (net w) (posted w) (console w)).
Proof.
  intros F C; unfold advanceOne; rewrite F.
  rewrite <- (racerSpeedTick_speedSample _ _ _ _ _ C).
  unfold set_distance; rewrite F; reflexivity.
Qed.

(** A racer of consistency [100] and aggression [200] with a noise draw of
    [0.75] and a burst draw of [0]: noise [0.625], burst [10]. *)
Lemma speed_sample_nonzero_consistency_witness :
  advanceOne bold (firstDraw 0.75) =
  (Ok (mkRacer 4 "Bold" 100 200 100 5060.625 false 1000),
   mkWorld (draws (firstDraw 0.75)) 2 (net (firstDraw 0.75)) [] []).
Proof.
  rewrite (speed_sample_nonzero_consistency bold (firstDraw 0.75));
    [reflexivity | reflexivity | discriminate].
Defined.

(** * Prices *)

Lemma quot_floor p k : 0 <= p -> 0 <= k -> Z.quot (p * k) 100 = p * k / 100.
Proof. intros; apply Z.quot_div_nonneg; nia. Qed.

Lemma repriced_floor c p :
  0 <= p ->
  repriced c p =
  match c with
  | ByOvertake => p + p * 10 / 100
  | ByCrash => p - p * 20 / 100
  | ByFinish => p + p * 5 / 100
  end.
Proof.
  intros Hp; destruct c; unfold repriced, applyPercentBigInt,
    OVERTAKE_BONUS_PCT, CRASH_PENALTY_PCT, WINNER_BONUS_PCT;
    rewrite quot_floor by lia; reflexivity.
Qed.

Lemma find_updateFirst p f st r :
  List.find p st = Some r -> p (f r) = true ->
  List.find p (updateFirst p f st) = Some (f r).
Proof.
  intros Hfind Hp; induction st as [|x st IH]; simpl in *; [discriminate|].
  destruct (p x) eqn:Px.
  - inversion Hfind; subst; simpl; rewrite Hp; reflexivity.
  - simpl; rewrite Px; apply IH, Hfind.
Qed.

(** * Overtake re-pricing (section 4.2) *)



(** * The crash pass (section 4.3) *)

(** [Math.max(0, x)] is [x] when [x] is above [0], NaN when [x] is NaN, and
    [0] otherwise. *)
Lemma Math_max_zero x :
  Math_max 0 x =
  if PrimFloat.is_nan x then PrimFloat.nan else if (0 <? x)%float then x else 0%float.
Proof.
  unfold Math_max; change (PrimFloat.is_nan 0) with false; cbn [orb].
  destruct (PrimFloat.is_nan x); [reflexivity|].
  destruct (0 <? x)%float; [reflexivity|].
  destruct (x <? 0)%float; reflexivity.
Qed.

(** C4, as the claim states it, fails in the iteration that ends the race.
    In the race of [duel] in [duelWorld], tick 395 is the last: [Chaser]
    passes the finished [Champion] (5003 against 5002), crashes back to 5001
    and finishes; the loop exits, and the final-ranking sort of that same
    iteration puts it behind [Champion] again: the array leaves the
    iteration in the order [1; 2] while the sort of the tick, which the tick
    recorded, gave [2; 1]. *)
Lemma crash_is_reranked_at_the_exit :
  exists rs' w',
    raceLoop 395 (initState duel) duelWorld = Some (Ok rs', w') /\
    firstn 7 (console w') =
      [ FinalRanking [1; 2];
        TxLogged ByFinish (Some "0x01"%string); Finish 395 2;
        TxLogged ByCrash (Some "0x01"%string); Crash 395 2;
        TxLogged ByOvertake (Some "0x01"%string); Overtake 395 2 2 1 ] /\
    map (fun r => (id r, distance r)) (state rs') = [(1, 5002%float); (2, 5001%float)] /\
    lastOrder rs' = Some [2; 1] /\
    Some (map id (state rs')) <> lastOrder rs'.
Proof.
  eexists _, _; split; [vm_compute; reflexivity|].
  split; [reflexivity|]; split; [reflexivity|]; split; [reflexivity | discriminate].
Qed.

(** C4, amended: when the draw of an unfinished racer with a non-negative
    price [p] is below its crash probability, the crash body completes; the
    racer's distance becomes [Math.max(0, distance - speedStat * 2)], that
    is the difference when it is above [0] and [0] otherwise (NaN for NaN),
    its price [max(0, p - floor(p * 20 / 100))], and nothing else of it
    changes; one request with that price is handed to [fetch] and the Crash
    line and the line of the write are printed.  The crash pass leaves every
    racer at its index, and the order that a tick records, which is the
    order of its array when it ends, is that of the sort made before the
    crash pass: the tick does not sort again.  The next sort does: that of
    the next tick, which starts from the array this tick leaves, or, when
    the tick ends the race, the final-ranking sort of the same iteration,
    which sorts the array of that tick while the recorded order stays. *)
Theorem crash_effect t r w :
  finished r = false ->
  (draws w (drawn w) <? crashProb r)%float = true ->
  0 <= currentPriceWei r ->
  let x := (distance r - num (speedStat r) * 2)%float in
  let p := currentPriceWei r in
  (exists line,
     crashOne t r w =
       (Ok (mkRacer (id r) (name r) (speedStat r) (aggression r) (consistency r)
              (if PrimFloat.is_nan x then PrimFloat.nan
               else if (0 <? x)%float then x else 0%float)
              false (Z.max 0 (p - p * 20 / 100))),
        mkWorld (draws w) (S (drawn w)) (net w)
          ((id r, Z.max 0 (p - p * 20 / 100)) :: posted w)
          (line :: Crash t (id r) :: console w)) /\
     isEvent line = false) /\
  (forall l w0, exists l' w0',
     forEach (crashOne t) l w0 = (Ok l', w0') /\ map id l' = map id l) /\
  (forall rs w0, exists st1 w1 rs' w',
     forEach advanceOne (state rs) w0 = (Ok st1, w1) /\
     tickBody rs w0 = (Ok rs', w') /\
     map id (state rs') = map id (Array_sort byDistanceDesc st1) /\
     lastOrder rs' = Some (map id (state rs'))) /\
  (forall fuel rs w0 res w',
     raceLoop fuel rs w0 = Some (res, w') ->
     exists n rs_n w_n,
       (1 <= n <= fuel)%nat /\ ticks n rs w0 = (Ok rs_n, w_n) /\
       res = Ok (mkRaceState (Array_sort byDistanceDesc (state rs_n))
                   (lastOrder rs_n) (tick rs_n))).
Proof.
  intros F C Hp x p; split; [|split; [|split]].
  - exists (answerLine ByCrash (net w (List.length (posted w)))).
    split; [|apply answerLine_isEvent].
    rewrite crashOne_spec, F, C.
    assert (Hprice : currentPriceWei (crashed r) = Z.max 0 (p - p * 20 / 100)).
    { change (currentPriceWei (crashed r)) with (repriced ByCrash (currentPriceWei r)).
      unfold p; rewrite (repriced_floor ByCrash _ Hp).
      assert (currentPriceWei r * 20 / 100 <= currentPriceWei r)
        by (apply Z.div_le_upper_bound; lia).
      lia. }
    unfold crashed, set_currentPriceWei, set_distance in *; simpl in *.
    fold x; rewrite Hprice, Math_max_zero, F; reflexivity.
  - intros l w0.
    destruct (forEach_ok (crashOne t) crashedOrNot (crashOne_ok t) l w0)
      as (l' & w0' & E & HF & _).
    exists l', w0'; split; [exact E|].
    apply Forall2_evolves_ids.
    eapply Forall2_weaken; [|exact HF]; intros a b; apply crashedOrNot_evolves.
  - intros rs w0.
    destruct (tickBody_anatomy rs w0)
      as (st1 & w1 & st3 & w3 & st4 & w4 & st5 & w5 &
          E1 & _ & _ & F3 & _ & _ & F4 & _ & F5 & E & _).
    exists st1, w1; eexists _, w5; split; [exact E1|]; split; [exact E|].
    assert (Hids : map id st5 = map id (Array_sort byDistanceDesc st1)).
    { apply Forall2_priceOnly_ids in F3.
      apply (Forall2_weaken _ evolves _ _ (crashedOrNot_evolves _)) in F4.
      apply (Forall2_weaken _ evolves _ _ finishedOrNot_evolves) in F5.
      apply Forall2_evolves_ids in F4, F5; congruence. }
    simpl; split; [exact Hids | rewrite Hids; reflexivity].
  - intros fuel rs w0 res w' H; apply raceLoop_Some in H.
    destruct H as (n & rs_n & w_n & Hn & Ht & _ & _ & Hfinal).
    exists n, rs_n, w_n; split; [exact Hn|]; split; [exact Ht|].
    unfold finalRanking, bind, console_log, ret in Hfinal; congruence.
Qed.

(** A racer at distance 100 whose speed stat is 195: the crash leaves it at
    distance [0]. *)
Lemma crash_effect_witness :
  crashOne 3 (mkRacer 3 "Blaze" 195 130 160 100 false 1004) crashWorld =
    (Ok (mkRacer 3 "Blaze" 195 130 160 0 false 804),
     mkWorld (fun _ => 0%float) 1 (fun _ => mined) [(3, 804)]
       [TxLogged ByCrash (Some "0x01"%string); Crash 3 3]).
Proof.
  destruct (crash_effect 3 (mkRacer 3 "Blaze" 195 130 160 100 false 1004) crashWorld)
    as ((line & E & _) & _ & _ & _); [reflexivity | reflexivity | discriminate |].
  reflexivity.
Defined.

(** * Overtake detection (section 4.2) *)

Section Keeps.
Variable body : Racer -> M Racer.
Variable P : World -> World -> Prop.
Hypothesis P_refl : forall w, P w w.
Hypothesis P_trans : forall w1 w2 w3, P w1 w2 -> P w2 w3 -> P w1 w3.
Hypothesis body_keeps : forall r w, P w (snd (body r w)).

(** What every run of the body keeps, the pass keeps. *)
Lemma forEach_keeps l : forall w, P w (snd (forEach body l w)).
Proof.
  induction l as [|r l IH]; intros w; simpl; [apply P_refl|].
  unfold bind; pose proof (body_keeps r w) as H.
  destruct (body r w) as [[r'|e] w1]; simpl in H; [|exact H].
  pose proof (IH w1) as H1.
  destruct (forEach body l w1) as [[l'|e] w2]; simpl in *; eapply P_trans; eassumption.
Qed.
End Keeps.

Lemma answerLine_isOvertake c a : isOvertake (answerLine c a) = false.
Proof.
  destruct a as [m|res]; unfold answerLine; [reflexivity|].
  destruct (res_ok res); [|reflexivity].
  destruct (res_json res) as [[|h]|m]; reflexivity.
Qed.

Lemma advanceOne_overtakeLines r w :
  overtakeLines (snd (advanceOne r w)) = overtakeLines w.
Proof. unfold advanceOne; destruct (finished r); reflexivity. Qed.

Lemma crashOne_overtakeLines t r w :
  overtakeLines (snd (crashOne t r w)) = overtakeLines w.
Proof.
  rewrite crashOne_spec; destruct (finished r); [reflexivity|].
  destruct (draws w (drawn w) <? crashProb r)%float; [|reflexivity].
  unfold overtakeLines; cbn [snd console filter]; rewrite answerLine_isOvertake; reflexivity.
Qed.

Lemma finishOne_overtakeLines t r w :
  overtakeLines (snd (finishOne t r w)) = overtakeLines w.
Proof.
  rewrite finishOne_spec; destruct (crossesLine r); [|reflexivity].
  unfold overtakeLines; cbn [snd console filter]; rewrite answerLine_isOvertake; reflexivity.
Qed.

Lemma pass_keeps_overtakeLines body :
  (forall r w, overtakeLines (snd (body r w)) = overtakeLines w) ->
  forall l w, overtakeLines (snd (forEach body l w)) = overtakeLines w.
Proof.
  intros H l w.
  apply (forEach_keeps body (fun w w' => overtakeLines w' = overtakeLines w));
    [reflexivity | intros; congruence | exact H].
Qed.

Lemma overtakeLines_events w : filter isOvertake (events w) = overtakeLines w.
Proof.
  unfold events, overtakeLines; induction (console w) as [|l c IH]; [reflexivity|].
  simpl; destruct l; simpl; rewrite IH; reflexivity.
Qed.

Lemma filter_all {A} (f : A -> bool) l :
  Forall (fun x => f x = true) l -> filter f l = l.
Proof. induction 1 as [|x l Hx _ IH]; simpl; [reflexivity|]; rewrite Hx, IH; reflexivity. Qed.

Lemma overtakeEventsFrom_isOvertake t prev cur :
  forall k, Forall (fun l => isOvertake l = true) (overtakeEventsFrom t prev cur k).
Proof.
  induction cur as [|x rest IH]; intros k; [constructor|].
  rewrite overtakeEventsFrom_cons; apply Forall_app; split; [|apply IH].
  destruct (indexOf x prev >? Z.of_nat k); repeat constructor.
Qed.

Lemma expectedOvertakes_isOvertake t last cur :
  Forall (fun l => isOvertake l = true) (expectedOvertakes t last cur).
Proof. destruct last; [apply overtakeEventsFrom_isOvertake | constructor]. Qed.

(** The lines of the rule, one by one. *)
Lemma overtakeEvents_In t prev cur l :
  In l (overtakeEvents t prev cur) <->
  exists i x, nth_error cur i = Some x /\ indexOf x prev > Z.of_nat i /\
              l = Overtake t x (indexOf x prev + 1) (Z.of_nat i + 1).
Proof.
  unfold overtakeEvents, overtakeEventsFrom; rewrite in_flat_map; split.
  - intros ([i x] & Hin & Hl); apply combine_seq_In in Hin; destruct Hin as [_ Hn].
    rewrite Nat.sub_0_r in Hn; simpl in Hl.
    destruct (indexOf x prev >? Z.of_nat i) eqn:G; [|destruct Hl].
    destruct Hl as [<-|[]]; exists i, x; repeat split; [exact Hn|].
    apply Z.gtb_lt in G; lia.
  - intros (i & x & Hn & Hgt & ->); exists (i, x); split.
    + apply combine_seq_In; rewrite Nat.sub_0_r; split; [lia | exact Hn].
    + simpl; assert (G : (indexOf x prev >? Z.of_nat i) = true) by (apply Z.gtb_lt; lia).
      rewrite G; left; reflexivity.
Qed.

(** Against its own order an array without repeated ids has no overtake. *)
Lemma overtakeEvents_same_order t cur : NoDup cur -> overtakeEvents t cur cur = [].
Proof.
  intros ND; destruct (overtakeEvents t cur cur) as [|l ls] eqn:E; [reflexivity|].
  assert (H : In l (overtakeEvents t cur cur)) by (rewrite E; left; reflexivity).
  apply overtakeEvents_In in H; destruct H as (i & x & Hn & Hgt & _).
  rewrite (indexOf_nth_error cur ND i x Hn) in Hgt; lia.
Qed.

(** The lines of the rule, with the previous index said as the first index
    of the recorded order that holds the id: the indexes that improved, in
    increasing order, and one line for each. *)
Lemma overtakeEventsFrom_rule t prev cur :
  forall k, exists idxs,
    StronglySorted lt idxs /\
    Forall (fun i => (k <= i)%nat) idxs /\
    (forall i, In i idxs <->
       (k <= i)%nat /\
       exists x p, nth_error cur (i - k) = Some x /\
                   previousIndex prev x p /\ (i < p)%nat) /\
    Forall2 (fun i l => (k <= i)%nat /\
               exists x p, nth_error cur (i - k) = Some x /\
                           previousIndex prev x p /\
                           l = Overtake t x (Z.of_nat p + 1) (Z.of_nat i + 1))
      idxs (overtakeEventsFrom t prev cur k).
Proof.
  induction cur as [|x rest IH]; intros k.
  - exists []; split; [constructor|]; split; [constructor|]; split; [|constructor].
    intros i; split; [intros [] | intros (_ & y & p & H & _)].
    destruct (i - k)%nat; discriminate.
  - destruct (IH (S k)) as (idxs & Hs & Hge & Hin & HF).
    assert (Shift : forall i y, (S k <= i)%nat ->
              nth_error rest (i - S k) = Some y ->
              nth_error (x :: rest) (i - k) = Some y).
    { intros i y Hi H; replace (i - k)%nat with (S (i - S k)) by lia; exact H. }
    assert (HF' : Forall2 (fun i l => (k <= i)%nat /\
                     exists y p, nth_error (x :: rest) (i - k) = Some y /\
                                 previousIndex prev y p /\
                                 l = Overtake t y (Z.of_nat p + 1) (Z.of_nat i + 1))
                    idxs (overtakeEventsFrom t prev rest (S k))).
    { eapply Forall2_weaken; [|exact HF].
      intros i l (Hi & y & p & Hn & Hp & ->); split; [lia|].
      exists y, p; split; [apply Shift; assumption | split; [exact Hp | reflexivity]]. }
    assert (Tail : forall i, In i idxs <->
              (S k <= i)%nat /\
              exists y p, nth_error (x :: rest) (i - k) = Some y /\
                          previousIndex prev y p /\ (i < p)%nat).
    { intros i; rewrite Hin; split.
      - intros (Hi & y & p & Hn & Hp & Hlt); split; [exact Hi|].
        exists y, p; split; [apply Shift; assumption | split; assumption].
      - intros (Hi & y & p & Hn & Hp & Hlt); split; [exact Hi|].
        exists y, p; split; [|split; assumption].
        replace (i - k)%nat with (S (i - S k)) in Hn by lia; exact Hn. }
    rewrite overtakeEventsFrom_cons.
    destruct (indexOf x prev >? Z.of_nat k) eqn:G.
    + apply Z.gtb_lt in G.
      assert (Hx : previousIndex prev x (Z.to_nat (indexOf x prev)))
        by (apply indexOf_found; lia).
      exists (k :: idxs); split; [|split; [|split]].
      * constructor; [exact Hs|].
        eapply Forall_impl; [|exact Hge]; intros i Hi; simpl in Hi; lia.
      * constructor; [lia|].
        eapply Forall_impl; [|exact Hge]; intros i Hi; simpl in Hi; lia.
      * intros i; simpl; rewrite Tail; split.
        -- intros [<-|(Hi & H)]; [|split; [lia | exact H]].
           split; [lia|]; exists x, (Z.to_nat (indexOf x prev)).
           rewrite Nat.sub_diag; split; [reflexivity | split; [exact Hx | lia]].
        -- intros (Hi & H); destruct (Nat.eq_dec k i) as [E|N]; [left; exact E|].
           right; split; [lia | exact H].
      * simpl; constructor; [|exact HF'].
        split; [lia|]; exists x, (Z.to_nat (indexOf x prev)).
        rewrite Nat.sub_diag; split; [reflexivity | split; [exact Hx|]].
        f_equal; lia.
    + exists idxs; split; [exact Hs|]; split; [|split; [|exact HF']].
      * eapply Forall_impl; [|exact Hge]; intros i Hi; simpl in Hi; lia.
      * intros i; rewrite Tail; split; [intros (Hi & H); split; [lia | exact H]|].
        intros (Hi & y & p & Hn & Hp & Hlt).
        destruct (Nat.eq_dec k i) as [<-|N]; [|split; [lia|]; exists y, p; auto].
        exfalso; rewrite Nat.sub_diag in Hn; simpl in Hn; inversion Hn; subst y.
        rewrite (indexOf_first x prev p Hp), Z.gtb_ltb in G.
        apply Z.ltb_ge in G; lia.
Qed.

(** C2: a tick completes.  Its sort gives the array of the distance pass in
    descending order of distance (no racer is directly followed by one with
    a greater distance), with two racers of equal distance in the order they
    had; the order that the tick
    records, and in which it leaves the array, is the id order of that sort.
    The Overtake lines it prints are those of the rule, in index order: none
    when no order was recorded before, which is how a race starts (tick 1);
    and with a recorded order one line with ranks [p + 1] and [i + 1] for
    each new index [i] whose id had a previous index [p] above [i], and no
    other.  So when the recorded order is that of the array, without repeated
    ids, and the distance pass leaves the array in descending order, ties
    included, the sort returns it as it was and no Overtake line is
    printed. *)
Theorem overtake_detection rs w :
  let t := S (tick rs) in
  exists st1 w1 rs' w' lines,
    let sorted := Array_sort byDistanceDesc st1 in
    forEach advanceOne (state rs) w = (Ok st1, w1) /\
    tickBody rs w = (Ok rs', w') /\
    Permutation st1 sorted /\
    (forall l1 a b l2, sorted = l1 ++ a :: b :: l2 ->
       (distance a <? distance b)%float = false) /\
    (forall a b, before a b st1 -> distance a = distance b -> before a b sorted) /\
    map id (state rs') = map id sorted /\
    lastOrder rs' = Some (map id sorted) /\
    overtakeLines w' = rev lines ++ overtakeLines w /\
    (lastOrder rs = None -> lines = []) /\
    (forall roster, lastOrder (initState roster) = None) /\
    (forall prev, lastOrder rs = Some prev ->
       exists idxs,
         StronglySorted lt idxs /\
         (forall i, In i idxs <->
            exists x p, nth_error (map id sorted) i = Some x /\
                        previousIndex prev x p /\ (i < p)%nat) /\
         Forall2 (fun i l =>
                    exists x p, nth_error (map id sorted) i = Some x /\
                                previousIndex prev x p /\
                                l = Overtake t x (Z.of_nat p + 1) (Z.of_nat i + 1))
           idxs lines) /\
    (lastOrder rs = Some (map id (state rs)) -> NoDup (map id (state rs)) ->
     (forall l1 a b l2, st1 = l1 ++ a :: b :: l2 ->
        (distance a <? distance b)%float = false) ->
     sorted = st1 /\ lines = []).
Proof.
  intros t.
  destruct (tickBody_anatomy rs w)
    as (st1 & w1 & st3 & w3 & st4 & w4 & st5 & w5 &
        E1 & F1 & E3 & F3 & Ev3 & E4 & F4 & E5 & F5 & E & _).
  fold t in E3, Ev3, E4, E5, E.
  exists st1, w1; eexists _, w5.
  exists (expectedOvertakes t (lastOrder rs) (map id (Array_sort byDistanceDesc st1))).
  assert (L1 : overtakeLines w1 = overtakeLines w).
  { pose proof (pass_keeps_overtakeLines advanceOne advanceOne_overtakeLines (state rs) w) as H.
    rewrite E1 in H; exact H. }
  assert (L4 : overtakeLines w4 = overtakeLines w3).
  { pose proof (pass_keeps_overtakeLines (crashOne t) (crashOne_overtakeLines t) st3 w3) as H.
    rewrite E4 in H; exact H. }
  assert (L5 : overtakeLines w5 = overtakeLines w4).
  { pose proof (pass_keeps_overtakeLines (finishOne t) (finishOne_overtakeLines t) st4 w4) as H.
    rewrite E5 in H; exact H. }
  assert (L : overtakeLines w5 =
              rev (expectedOvertakes t (lastOrder rs)
                     (map id (Array_sort byDistanceDesc st1))) ++ overtakeLines w).
  { rewrite L5, L4, <- L1, <- !overtakeLines_events, Ev3, filter_app.
    f_equal; apply filter_all, Forall_rev, expectedOvertakes_isOvertake. }
  assert (Ids1 : map id st1 = map id (state rs)).
  { apply Forall2_evolves_ids.
    eapply Forall2_weaken; [|exact F1]; intros a b; apply advanced_evolves. }
  assert (Ids5 : map id st5 = map id (Array_sort byDistanceDesc st1)).
  { apply Forall2_priceOnly_ids in F3.
    apply (Forall2_weaken _ evolves _ _ (crashedOrNot_evolves _)) in F4.
    apply (Forall2_weaken _ evolves _ _ finishedOrNot_evolves) in F5.
    apply Forall2_evolves_ids in F4, F5; congruence. }
  pose proof (Array_sort_is_inOrder byDistanceDesc byDistanceDesc_antisym) as Sorted.
  cbv zeta; split; [exact E1|]; split; [exact E|]; split; [apply Array_sort_perm|].
  split; [|split; [|split; [exact Ids5|]; split; [reflexivity|]; split; [exact L|]]].
  - apply descending_adjacent, Sorted.
  - intros a b Hab Hd; apply Array_sort_stable; [exact Hab|].
    apply byDistanceDesc_tie, Hd.
  - split; [intros HN; rewrite HN; reflexivity|]; split; [reflexivity|]; split.
    + intros prev HS; rewrite HS; unfold expectedOvertakes, overtakeEvents.
      destruct (overtakeEventsFrom_rule t prev
                  (map id (Array_sort byDistanceDesc st1)) 0)
        as (idxs & Hs & _ & Hin & HF).
      exists idxs; split; [exact Hs|]; split.
      * intros i; rewrite Hin, Nat.sub_0_r; split; [intros [_ H]; exact H|].
        intros H; split; [lia | exact H].
      * eapply Forall2_weaken; [|exact HF].
        intros i l (_ & x & p & Hn & Hp & ->); rewrite Nat.sub_0_r in Hn.
        exists x, p; split; [exact Hn | split; [exact Hp | reflexivity]].
    + intros HS ND Hin.
      apply descending_adjacent in Hin.
      rewrite (Array_sort_inOrder _ _ Hin) in *.
      split; [reflexivity|].
      rewrite HS, Ids1; simpl; apply (overtakeEvents_same_order _ _ ND).
Qed.

(** Tick 2 of [twoRacers] in the calm world: [leader], at index 1 of the
    recorded order, is at index 0 after the sort and gets the one Overtake
    line, with ranks 2 and 1. *)
Lemma overtake_detection_witness :
  tickBody twoRacers calmWorld =
    (Ok (mkRaceState
           [ mkRacer 2 "Leader" 120 0 200 5060 true 2331;
             mkRacer 1 "Rookie" 100 0 200 5050 true 1050 ]
           (Some [2; 1]) 2),
     mkWorld (draws calmWorld) 6 (net calmWorld) [(1, 1050); (2, 2331); (2, 2220)]
       [ TxLogged ByFinish (Some "0x01"%string); Finish 2 1;
         TxLogged ByFinish (Some "0x01"%string); Finish 2 2;
         TxLogged ByOvertake (Some "0x01"%string); Overtake 2 2 2 1 ]).
Proof.
  destruct (overtake_detection twoRacers calmWorld) as (st1 & w1 & rs' & w' & lines & H).
  vm_compute; reflexivity.
Defined.

(** * Failed writes (sections 4.5 and 7) *)

(** C6: with a network on which every [postUpdatePrice] fails, a tick
    completes and returns the race state it returns with any other network;
    no exception leaves the loop; and the loop, run for any number of ticks,
    is still running or has returned the same final state, prices included,
    as with any other network.  The same holds of any two networks, however
    their writes fail: with the same random draws the loop is still running
    on both or has returned the same state on both, never an exception. *)
Theorem write_failures_do_not_abort fuel rs w :
  (exists rs1 w1,
     tickBody rs (offline w) = (Ok rs1, w1) /\ fst (tickBody rs w) = Ok rs1) /\
  (forall e w', raceLoop fuel rs (offline w) <> Some (Throw e, w')) /\
  option_map fst (raceLoop fuel rs (offline w)) = option_map fst (raceLoop fuel rs w) /\
  (forall w2, draws w2 = draws w -> drawn w2 = drawn w ->
     option_map fst (raceLoop fuel rs w2) = option_map fst (raceLoop fuel rs w) /\
     forall e w', raceLoop fuel rs w2 <> Some (Throw e, w')).
Proof.
  assert (S : sameDraws (offline w) w) by (split; reflexivity).
  split; [|split; [|split]].
  - destruct (tickBody_ok rs (offline w)) as (rs1 & w1 & E & _).
    exists rs1, w1; split; [exact E|].
    rewrite <- (proj1 (oblivious_tickBody rs _ _ S)), E; reflexivity.
  - apply raceLoop_no_throw.
  - apply raceLoop_oblivious, S.
  - intros w2 D N; split; [apply raceLoop_oblivious; split; assumption|].
    apply raceLoop_no_throw.
Qed.

(** * The finish pass (section 4.4) *)

Lemma Forall_Forall2 {A} (P Q : A -> Prop) (R : A -> A -> Prop) l l' :
  (forall a b, P a -> R a b -> Q b) -> Forall P l -> Forall2 R l l' -> Forall Q l'.
Proof.
  intros H HP HR; induction HR; constructor; inversion HP; subst; eauto.
Qed.

Lemma Forall2_and {A} (P : A -> Prop) (R : A -> A -> Prop) l l' :
  Forall P l -> Forall2 R l l' -> Forall2 (fun a b => P a /\ R a b) l l'.
Proof.
  intros HP HR; induction HR; constructor; inversion HP; subst; auto.
Qed.

Lemma reordered_price_nonneg l l' :
  reordered l l' ->
  Forall (fun r => 0 <= currentPriceWei r) l ->
  Forall (fun r => 0 <= currentPriceWei r) l'.
Proof.
  intros (m & Pm & Fm) H.
  eapply Forall_Forall2; [|eapply Permutation_Forall; eassumption | exact Fm].
  intros a b Ha Hab; eapply evolves_price_nonneg; eassumption.
Qed.

(** The requests of the finish pass: one per racer that crosses. *)
Lemma finishPass_posted t l :
  forall w l' w',
    forEach (finishOne t) l w = (Ok l', w') ->
    posted w' =
    rev (map (fun r => (id r, currentPriceWei (finishedNow r))) (filter crossesLine l))
    ++ posted w.
Proof.
  induction l as [|r l IH]; intros w l' w' H; simpl in H.
  - inversion H; subst; reflexivity.
  - unfold bind at 1 in H; rewrite finishOne_spec in H.
    simpl filter.
    destruct (crossesLine r);
      match type of H with
      | bind (forEach _ _) _ ?w1 = _ =>
          destruct (forEach_ok (finishOne t) (fun _ => finishedOrNot)
                      (finishOne_ok t) l w1) as (l1 & w2 & E & _ & _);
          rewrite (bind_Ok _ _ _ _ _ E) in H; inversion H; subst;
          rewrite (IH _ _ _ E)
      end.
    + simpl; rewrite <- app_assoc; reflexivity.
    + reflexivity.
Qed.

(** C5: in a tick that starts with non-negative prices the passes run one
    after the other on the same array: distance pass, sort and overtake
    detection, crash pass, finish pass.  The crash pass leaves a racer as it
    was or, when it was unfinished, at the crash distance with the crash
    price; on the array that the crash pass returns the finish pass turns
    every racer that is unfinished and whose distance is at least
    [RACE_DISTANCE] into the same racer marked finished, with price
    [p + floor(p * 5 / 100)], and leaves every other racer, an already
    finished one included, as it is; what it returns is the array of the
    tick.  It prints one Finish line and hands one request to [fetch] for
    each racer that crosses, and no other event line; and on a finished
    racer the finish body does nothing at all. *)
Theorem finish_pass rs w :
  Forall (fun r => 0 <= currentPriceWei r) (state rs) ->
  let t := S (tick rs) in
  let crosses := fun r => (negb (finished r) && (RACE_DISTANCE <=? distance r)%float)%bool in
  (exists st1 w1 st3 w3 st4 w4 rs' w',
     forEach advanceOne (state rs) w = (Ok st1, w1) /\
     detectOvertakes t (lastOrder rs) (Array_sort byDistanceDesc st1) w1
       = (Ok (st3, map id (Array_sort byDistanceDesc st1)), w3) /\
     forEach (crashOne t) st3 w3 = (Ok st4, w4) /\
     forEach (finishOne t) st4 w4 = (Ok (state rs'), w') /\
     tickBody rs w = (Ok rs', w') /\
     Forall2
       (fun r3 r4 =>
          r4 = r3 \/
          (finished r3 = false /\
           let x := (distance r3 - num (speedStat r3) * 2)%float in
           r4 = mkRacer (id r3) (name r3) (speedStat r3) (aggression r3) (consistency r3)
                  (if PrimFloat.is_nan x then PrimFloat.nan
                   else if (0 <? x)%float then x else 0%float)
                  false (currentPriceWei r3 - currentPriceWei r3 * 20 / 100)))
       st3 st4 /\
     Forall2
       (fun r4 r' =>
          r' = if crosses r4
               then mkRacer (id r4) (name r4) (speedStat r4) (aggression r4)
                      (consistency r4) (distance r4) true
                      (currentPriceWei r4 + currentPriceWei r4 * 5 / 100)
               else r4)
       st4 (state rs') /\
     events w' = rev (map (fun r => Finish t (id r)) (filter crosses st4)) ++ events w4 /\
     posted w' =
       rev (map (fun r => (id r, currentPriceWei r + currentPriceWei r * 5 / 100))
              (filter crosses st4)) ++ posted w4) /\
  (forall r w0, finished r = true -> finishOne t r w0 = (Ok r, w0)).
Proof.
  intros Hp t crosses; split.
  - destruct (tickBody_anatomy rs w)
      as (st1 & w1 & st3 & w3 & st4 & w4 & st5 & w5 &
          E1 & F1 & E3 & F3 & _ & E4 & F4 & E5 & F5 & E & _).
    exists st1, w1, st3, w3, st4, w4,
      (mkRaceState st5 (Some (map id (Array_sort byDistanceDesc st1))) t), w5.
    assert (Hp3 : Forall (fun r => 0 <= currentPriceWei r) st3).
    { apply (Forall2_weaken _ evolves _ _ (advanced_evolves _)) in F1.
      assert (Hp1 : Forall (fun r => 0 <= currentPriceWei r)
                      (Array_sort byDistanceDesc st1)).
      { eapply Permutation_Forall; [apply Array_sort_perm|].
        eapply Forall_Forall2; [|exact Hp | exact F1].
        intros a b Ha Hab; eapply evolves_price_nonneg; eassumption. }
      eapply Forall_Forall2; [|exact Hp1 | exact F3].
      intros a b Ha Hab; eapply evolves_price_nonneg; [apply Hab | exact Ha]. }
    assert (Hp4 : Forall (fun r => 0 <= currentPriceWei r) st4).
    { eapply Forall_Forall2; [|exact Hp3 | exact F4].
      intros a b Ha Hab; eapply evolves_price_nonneg; [|exact Ha].
      eapply crashedOrNot_evolves; exact Hab. }
    assert (Hfin : forall r, 0 <= currentPriceWei r ->
              currentPriceWei (finishedNow r)
              = currentPriceWei r + currentPriceWei r * 5 / 100).
    { intros r Hr.
      change (currentPriceWei (finishedNow r)) with (repriced ByFinish (currentPriceWei r)).
      apply (repriced_floor ByFinish _ Hr). }
    split; [exact E1|]; split; [exact E3|]; split; [exact E4|]; split; [exact E5|].
    split; [exact E|]; split; [|split; [|split]].
    + eapply Forall2_weaken; [|exact (Forall2_and _ _ _ _ Hp3 F4)].
      intros a b [Ha [[_ ->]|[Fa (n & ->)]]]; [left; reflexivity|].
      destruct (draws w n <? crashProb a)%float; [|left; reflexivity].
      right; split; [exact Fa|]; cbv zeta.
      unfold crashed, set_currentPriceWei, set_distance; simpl.
      rewrite Math_max_zero, Fa; f_equal.
      apply (repriced_floor ByCrash _ Ha).
    + simpl; eapply Forall2_weaken; [|exact (Forall2_and _ _ _ _ Hp4 F5)].
      intros a b [Ha Hab]; unfold finishedOrNot in Hab; subst b.
      unfold crosses; fold (crossesLine a); destruct (crossesLine a); [|reflexivity].
      unfold finishedNow, set_currentPriceWei, set_finished; simpl; f_equal.
      apply (repriced_floor ByFinish _ Ha).
    + apply (finishPass_events _ _ _ _ _ E5).
    + rewrite (finishPass_posted _ _ _ _ _ E5); f_equal; f_equal.
      apply map_ext_in; intros r Hr; f_equal; apply Hfin.
      apply filter_In in Hr; destruct Hr as [Hr _].
      rewrite Forall_forall in Hp4; apply Hp4, Hr.
  - intros r w0 F; rewrite finishOne_spec; unfold crossesLine; rewrite F; reflexivity.
Qed.

(** [Steady] crosses the line and stays beyond it; [Solo] reaches exactly
    [RACE_DISTANCE] in the distance pass, crashes back to 4500 and is not
    finished by this tick. *)
Lemma finish_pass_witness :
  tickBody closing lateCrash =
    (Ok (mkRaceState
           [ mkRacer 1 "Steady" 100 0 200 5090 true 1050;
             mkRacer 2 "Solo" 250 0 200 4500 false 800 ]
           (Some [1; 2]) 20),
     mkWorld (draws lateCrash) 6 (net lateCrash) [(1, 1050); (2, 800)]
       [ TxLogged ByFinish (Some "0x01"%string); Finish 20 1;
         TxLogged ByCrash (Some "0x01"%string); Crash 20 2 ]).
Proof.
  destruct (finish_pass closing lateCrash) as [(st1 & w1 & st3 & w3 & st4 & w4 & H) _];
    [repeat constructor; discriminate|].
  vm_compute; reflexivity.
Defined.

(** * Prices stay non-negative *)

(** C9: each of the three price adjustments of a non-negative price is
    non-negative; so from a state with non-negative prices any number of
    ticks completes in a state with non-negative prices, racer by racer (a
    racer of the new array comes from one of the old array with the same id
    and has a non-negative price if that one had), and so has the final
    ranking when the loop exits. *)
Theorem price_never_negative n rs w :
  Forall (fun r => 0 <= currentPriceWei r) (state rs) ->
  (forall c p, 0 <= p -> 0 <= repriced c p) /\
  (exists rs' w',
     ticks n rs w = (Ok rs', w') /\
     Forall (fun r => 0 <= currentPriceWei r) (state rs') /\
     (forall r', In r' (state rs') ->
        exists r, In r (state rs) /\ id r = id r' /\
                  (0 <= currentPriceWei r -> 0 <= currentPriceWei r'))) /\
  (forall res w', raceLoop n rs w = Some (res, w') ->
     exists rs', res = Ok rs' /\
       Forall (fun r => 0 <= currentPriceWei r) (state rs')).
Proof.
  intros Hp; split; [|split].
  - intros c p H; destruct c; apply applyPercentBigInt_nonneg; auto.
  - destruct (ticks_ok n rs w) as (rs' & w' & E & _ & _ & R).
    exists rs', w'; split; [exact E|]; split.
    + eapply reordered_price_nonneg; eassumption.
    + intros r' Hr'; destruct (reordered_In_r _ _ _ R Hr') as (r & Hr & He).
      exists r; split; [exact Hr|]; split; [symmetry; apply evolves_id, He|].
      apply evolves_price_nonneg, He.
  - intros res w' H; apply raceLoop_Some in H.
    destruct H as (k & rs_k & w_k & _ & Hk & _ & _ & Hfinal).
    destruct (ticks_ok k rs w) as (rs1 & w1 & E & _ & _ & R).
    rewrite E in Hk; inversion Hk; subst.
    destruct (finalRanking_ok rs_k w_k) as (rs2 & w2 & E2 & _ & P2).
    rewrite E2 in Hfinal; inversion Hfinal; subst.
    exists rs2; split; [reflexivity|].
    eapply Permutation_Forall; [exact P2|].
    eapply reordered_price_nonneg; eassumption.
Qed.

Lemma price_never_negative_witness :
  (forall c p, 0 <= p -> 0 <= repriced c p) /\
  (exists rs' w',
     ticks 3 (initState sampleRoster) crashWorld = (Ok rs', w') /\
     Forall (fun r => 0 <= currentPriceWei r) (state rs') /\
     (forall r', In r' (state rs') ->
        exists r, In r (state (initState sampleRoster)) /\ id r = id r' /\
                  (0 <= currentPriceWei r -> 0 <= currentPriceWei r'))) /\
  (forall res w', raceLoop 3 (initState sampleRoster) crashWorld = Some (res, w') ->
     exists rs', res = Ok rs' /\
       Forall (fun r => 0 <= currentPriceWei r) (state rs')).
Proof.
  apply (price_never_negative 3 (initState sampleRoster) crashWorld).
  repeat constructor; discriminate.
Defined.

(** * Zero is the only price that adjusts to zero *)

Lemma repriced_zero_iff c p : 0 <= p -> (repriced c p = 0 <-> p = 0).
Proof.
  intros Hp; rewrite (repriced_floor c p Hp); destruct c.
  - assert (0 <= p * 10 / 100) by (apply Z.div_pos; lia).
    split; [lia | intros ->; reflexivity].
  - split; [|intros ->; reflexivity].
    intros H; destruct (Z.eq_dec p 0) as [|N]; [assumption|].
    assert (p * 20 / 100 < p) by (apply Z.div_lt_upper_bound; lia); lia.
  - assert (0 <= p * 5 / 100) by (apply Z.div_pos; lia).
    split; [lia | intros ->; reflexivity].
Qed.

Lemma repriced_pos c p : 0 < p -> 0 < repriced c p.
Proof.
  intros Hp.
  assert (H0 : 0 <= repriced c p) by (destruct c; apply applyPercentBigInt_nonneg; auto; lia).
  assert (H1 : repriced c p <> 0) by (rewrite repriced_zero_iff; lia).
  lia.
Qed.

Lemma step_price_sign r r' :
  step r r' ->
  (currentPriceWei r = 0 -> currentPriceWei r' = 0) /\
  (0 < currentPriceWei r -> 0 < currentPriceWei r').
Proof.
  intros H; destruct H as [r d F | r F | r pct inc Hc]; simpl; [tauto | tauto |].
  assert (Hc' : exists c, applyPercentBigInt (currentPriceWei r) pct inc
                          = repriced c (currentPriceWei r)).
  { destruct Hc as [Hc|[Hc|Hc]]; inversion Hc; subst;
      [exists ByOvertake | exists ByCrash | exists ByFinish]; reflexivity. }
  destruct Hc' as (c & ->); split.
  - intros ->; destruct c; reflexivity.
  - apply repriced_pos.
Qed.

(** C10: for a non-negative price [p] and each of the three adjustments, the
    adjusted price is [0] exactly when [p] is [0]; a positive price stays
    positive and the price [0] stays [0] through every sequence of
    adjustments, and so they do for every racer through the assignments of
    the loop. *)
Theorem price_zero_iff c p :
  0 <= p ->
  (repriced c p = 0 <-> p = 0) /\
  (forall cs, 0 < p -> 0 < repricedBy cs p) /\
  (forall cs, repricedBy cs 0 = 0) /\
  (forall r r', evolves r r' -> currentPriceWei r = p ->
     (p = 0 -> currentPriceWei r' = 0) /\ (0 < p -> 0 < currentPriceWei r')).
Proof.
  intros Hp; split; [apply repriced_zero_iff, Hp|]; split; [|split].
  - intros cs; revert p Hp; induction cs as [|c0 cs IH]; intros p Hp Hpos; [exact Hpos|].
    simpl; apply IH; [|apply repriced_pos, Hpos].
    apply Z.lt_le_incl, repriced_pos, Hpos.
  - intros cs; induction cs as [|c0 cs IH]; [reflexivity|].
    simpl; destruct c0; exact IH.
  - intros r r' H; induction H as [|r1 r2 r3 _ IH Hs]; intros E.
    + split; intros; lia.
    + destruct (IH E) as [Z0 P0], (step_price_sign _ _ Hs) as [Z1 P1]; split; auto.
Qed.

Lemma price_zero_iff_witness :
  (repriced ByCrash 4 = 0 <-> 4 = 0) /\
  (forall cs, 0 < 4 -> 0 < repricedBy cs 4) /\
  (forall cs, repricedBy cs 0 = 0) /\
  (forall r r', evolves r r' -> currentPriceWei r = 4 ->
     (4 = 0 -> currentPriceWei r' = 0) /\ (0 < 4 -> 0 < currentPriceWei r')).
Proof. apply (price_zero_iff ByCrash 4); lia. Defined.

(** * Exit of the loop (section 4.5) *)

Lemma crashProb_stats r r' :
  aggression r' = aggression r -> consistency r' = consistency r ->
  crashProb r' = crashProb r.
Proof. intros A C; unfold crashProb; rewrite A, C; reflexivity. Qed.

Lemma stuckStats_stats r r' :
  speedStat r' = speedStat r -> aggression r' = aggression r ->
  consistency r' = consistency r -> stuckStats r -> stuckStats r'.
Proof.
  intros S A C [H1 H2]; unfold stuckStats.
  rewrite (crashProb_stats r r' A C), S, A, C; split; assumption.
Qed.

(** With every draw equal to [0], a tick takes stuck racers to stuck racers. *)
Lemma stuck_tick rs w :
  draws w = (fun _ => 0%float) ->
  Forall stuck (state rs) ->
  exists rs' w',
    tickBody rs w = (Ok rs', w') /\ draws w' = (fun _ => 0%float) /\
    Forall stuck (state rs') /\
    List.length (state rs') = List.length (state rs).
Proof.
  intros Hd Hs.
  destruct (tickBody_anatomy rs w)
    as (st1 & w1 & st3 & w3 & st4 & w4 & st5 & w5 &
        _ & F1 & _ & F3 & _ & _ & F4 & _ & F5 & E & Hsrc).
  rewrite Hd in F1, F4.
  set (mid := fun r : Racer =>
         distance r = (0 + racerSpeedTick (speedStat r) (aggression r) (consistency r) 0 0)%float
         /\ finished r = false /\ stuckStats r).
  assert (M1 : Forall mid st1).
  { eapply Forall_Forall2; [|exact Hs | exact F1].
    intros a b (Da & Fa & Sa) [[Fb _]|[_ (n & ->)]]; [congruence|].
    unfold mid; simpl; rewrite Da.
    split; [reflexivity | split; [exact Fa | exact Sa]]. }
  assert (M3 : Forall mid st3).
  { eapply Forall_Forall2;
      [|eapply Permutation_Forall; [apply Array_sort_perm | exact M1] | exact F3].
    intros a b (Da & Fa & Sa) (Eab & Db & Fb).
    destruct (evolves_stats _ _ Eab) as (_ & S & A & C).
    unfold mid; rewrite Db, Fb, S, A, C.
    split; [exact Da | split; [exact Fa | eapply stuckStats_stats; eassumption]]. }
  assert (M4 : Forall stuck st4).
  { eapply Forall_Forall2; [|exact M3 | exact F4].
    intros a b (Da & Fa & Sa) [[Fb _]|[_ (n & ->)]]; [congruence|].
    rewrite (proj1 Sa); unfold stuck, crashed; simpl; rewrite Da.
    split; [exact (proj2 Sa) | split; [exact Fa | exact Sa]]. }
  assert (M5 : Forall stuck st5).
  { eapply Forall_Forall2; [|exact M4 | exact F5].
    intros a b (Da & Fa & Sa) ->.
    assert (C : crossesLine a = false)
      by (unfold crossesLine; rewrite Da, Fa; reflexivity).
    rewrite C; split; [exact Da | split; [exact Fa | exact Sa]]. }
  eexists _, w5; split; [exact E|]; split; [|split; [exact M5|]].
  - rewrite (proj1 Hsrc); exact Hd.
  - simpl.
    rewrite <- (Forall2_length F5), <- (Forall2_length F4), <- (Forall2_length F3).
    rewrite <- (Permutation_length (Array_sort_perm byDistanceDesc st1)).
    symmetry; apply (Forall2_length F1).
Qed.

Lemma stuck_not_allFinished rs :
  Forall stuck (state rs) -> state rs <> [] -> allFinished rs = false.
Proof.
  unfold allFinished; destruct (state rs) as [|r l]; [congruence|].
  intros H _; inversion H as [|? ? (_ & F & _) _]; subst; simpl; rewrite F; reflexivity.
Qed.

(** A roster of stuck racers never leaves the loop when every draw is [0]. *)
Lemma stuck_forever fuel :
  forall rs w,
    draws w = (fun _ => 0%float) -> Forall stuck (state rs) -> state rs <> [] ->
    raceLoop fuel rs w = None.
Proof.
  induction fuel as [|fuel IH]; intros rs w Hd Hs Hne; [reflexivity|].
  destruct (stuck_tick rs w Hd Hs) as (rs' & w' & E & Hd' & Hs' & Hlen).
  assert (Hne' : state rs' <> []).
  { intros H0; rewrite H0 in Hlen; destruct (state rs); [congruence | discriminate]. }
  simpl; rewrite E, (stuck_not_allFinished rs' Hs' Hne'); apply IH; assumption.
Qed.

(** C7, as the claim states it, fails: the roster of [mint-sample.js] has
    only positive speed stats, and when every draw is [0] every racer
    crashes in every tick back to distance [0], so the loop never exits. *)
Lemma sample_roster_never_finishes :
  Forall (fun e => 0 < e_speed e) sampleRoster /\
  ~ terminates (initState sampleRoster) crashWorld.
Proof.
  split; [repeat constructor|].
  intros [fuel H]; apply H, stuck_forever; [reflexivity | | discriminate].
  repeat constructor.
Qed.

(** C7, amended: the loop is still running after [fuel] ticks exactly when
    each of those ticks ended with some racer unfinished; when it has
    returned, it returned a state, not an exception, in which every racer is
    finished; and it terminates exactly when some tick ends with every racer
    finished. *)
Theorem race_loop_exit fuel rs w :
  (raceLoop fuel rs w = None <->
   forall k rs_k w_k, (1 <= k <= fuel)%nat ->
     ticks k rs w = (Ok rs_k, w_k) -> allFinished rs_k = false) /\
  (forall res w', raceLoop fuel rs w = Some (res, w') ->
     exists rs', res = Ok rs' /\ allFinished rs' = true) /\
  (terminates rs w <->
   exists n rs_n w_n,
     (1 <= n)%nat /\ ticks n rs w = (Ok rs_n, w_n) /\ allFinished rs_n = true).
Proof.
  split; [apply raceLoop_None|]; split.
  - intros res w' H; apply raceLoop_Some in H.
    destruct H as (n & rs_n & w_n & _ & _ & Hfin & _ & Hfinal).
    destruct (finalRanking_ok rs_n w_n) as (rs2 & w2 & E2 & A2 & _).
    rewrite E2 in Hfinal; inversion Hfinal; subst.
    exists rs2; split; [reflexivity | congruence].
  - split.
    + intros [f H].
      destruct (raceLoop f rs w) as [[res w']|] eqn:E; [|congruence].
      apply raceLoop_Some in E.
      destruct E as (n & rs_n & w_n & Hn & Ht & Hfin & _).
      exists n, rs_n, w_n; split; [lia|]; split; assumption.
    + intros (n & rs_n & w_n & Hn & Ht & Hfin); exists n; intros HN.
      rewrite raceLoop_None in HN.
      rewrite (HN n rs_n w_n) in Hfin; [discriminate | lia | exact Ht].
Qed.

(** * Finished is final (section 3) *)

Lemma reordered_ids l l' : reordered l l' -> Permutation (map id l) (map id l').
Proof.
  intros (m & Pm & Fm); rewrite (Forall2_evolves_ids _ _ Fm).
  apply Permutation_map, Pm.
Qed.

(** C8: any number of ticks completes, and a racer that was finished before
    them is in the array after them, finished, at the distance it had; every
    racer of the array after them comes from a racer of the array before
    with the same id, and is finished at the same distance if that one was;
    the ids after are the ids before in some order.  The distance body and
    the crash body leave a finished racer and the world as they are, and the
    sort permutes the whole array, finished racers included.  In every tick
    the distance pass returns the finished racers as they were, and the
    array that the tick leaves has at each index the racer that the sort by
    distance of that whole array put there, a finished racer still finished
    at its distance: finished racers take part in the sort, in descending
    order of distance with the others. *)
Theorem finished_is_final n rs w :
  exists rs' w',
    ticks n rs w = (Ok rs', w') /\
    (forall r, In r (state rs) -> finished r = true ->
       exists r', In r' (state rs') /\ id r' = id r /\
                  finished r' = true /\ distance r' = distance r) /\
    (forall r', In r' (state rs') ->
       exists r, In r (state rs) /\ id r = id r' /\
                 (finished r = true ->
                  finished r' = true /\ distance r' = distance r)) /\
    Permutation (map id (state rs)) (map id (state rs')) /\
    (forall t r w0, finished r = true ->
       advanceOne r w0 = (Ok r, w0) /\ crashOne t r w0 = (Ok r, w0)) /\
    (forall l, Permutation l (Array_sort byDistanceDesc l)) /\
    (forall rs0 w0, exists st1 w1 rs1 w1',
       forEach advanceOne (state rs0) w0 = (Ok st1, w1) /\
       tickBody rs0 w0 = (Ok rs1, w1') /\
       Forall2 (fun r r1 => id r1 = id r /\ (finished r = true -> r1 = r))
         (state rs0) st1 /\
       Forall2 (fun a b => id b = id a /\
                  (finished a = true -> finished b = true /\ distance b = distance a))
         (Array_sort byDistanceDesc st1) (state rs1) /\
       (forall l1 a b l2, Array_sort byDistanceDesc st1 = l1 ++ a :: b :: l2 ->
          (distance a <? distance b)%float = false)).
Proof.
  destruct (ticks_ok n rs w) as (rs' & w' & E & _ & _ & R).
  exists rs', w'; split; [exact E|]; split; [|split; [|split; [|split; [|split]]]].
  - intros r Hr F; destruct (reordered_In_l _ _ _ R Hr) as (r' & Hr' & He).
    exists r'; split; [exact Hr'|]; split; [apply evolves_id, He|].
    apply (evolves_finished _ _ He F).
  - intros r' Hr'; destruct (reordered_In_r _ _ _ R Hr') as (r & Hr & He).
    exists r; split; [exact Hr|]; split; [symmetry; apply evolves_id, He|].
    apply (evolves_finished _ _ He).
  - apply reordered_ids, R.
  - intros t r w0 F; unfold advanceOne, crashOne; rewrite F; split; reflexivity.
  - intros l; apply Array_sort_perm.
  - intros rs0 w0.
    destruct (tickBody_anatomy rs0 w0)
      as (st1 & w1 & st3 & w3 & st4 & w4 & st5 & w5 &
          E1 & F1 & _ & F3 & _ & _ & F4 & _ & F5 & E5 & _).
    exists st1, w1; eexists _, w5; split; [exact E1|]; split; [exact E5|].
    split; [|split].
    + eapply Forall2_weaken; [|exact F1].
      intros a b [[_ ->]|[Fa (k & ->)]]; [split; [reflexivity | auto]|].
      split; [reflexivity | congruence].
    + simpl.
      apply (Forall2_weaken _ evolves _ _ (fun a b H => proj1 H)) in F3.
      apply (Forall2_weaken _ evolves _ _ (crashedOrNot_evolves _)) in F4.
      apply (Forall2_weaken _ evolves _ _ finishedOrNot_evolves) in F5.
      assert (F35 : Forall2 evolves (Array_sort byDistanceDesc st1) st5).
      { eapply (Forall2_transitive _ evolves_trans); [exact F3|].
        eapply (Forall2_transitive _ evolves_trans); eassumption. }
      eapply Forall2_weaken; [|exact F35].
      intros a b Hab; split; [apply evolves_id, Hab | apply evolves_finished, Hab].
    + apply descending_adjacent.
      apply (Array_sort_is_inOrder byDistanceDesc byDistanceDesc_antisym).
Qed.

(** The race of [duel]: after tick 394 the finished [Champion] is first in
    the array; in tick 395 [Chaser] passes it, and the tick leaves it second,
    still finished, at 5002. *)
Lemma finished_is_final_witness :
  fst (ticks 394 (initState duel) duelWorld) = Ok photoFinish /\
  fst (ticks 395 (initState duel) duelWorld) =
    Ok (mkRaceState
          [ mkRacer 2 "Chaser" 1 240 200 5001 true 924;
            mkRacer 1 "Champion" 122 0 200 5002 true 1050 ]
          (Some [2; 1]) 395).
Proof.
  destruct (finished_is_final 395 (initState duel) duelWorld) as (rs' & w' & H).
  split; vm_compute; reflexivity.
Defined.

(** * The engine at work *)

(** One ether after one overtake (section 8). *)
Example overtake_bonus_one_ether :
  applyPercentBigInt 1000000000000000000 OVERTAKE_BONUS_PCT true = 1100000000000000000.
Proof. reflexivity. Qed.

(** Tick 2 of [twoRacers] in the calm world: [leader] passes [rookie], gets
    the overtake bonus, then both cross the line and get the finish bonus;
    the loop exits with the final ranking. *)
Example two_racers_tick_2 :
  option_map (fun x => (fst x, rev (console (snd x)))) (raceLoop 1 twoRacers calmWorld) =
  Some
    (Ok (mkRaceState
           [ mkRacer 2 "Leader" 120 0 200 5060 true 2331;
             mkRacer 1 "Rookie" 100 0 200 5050 true 1050 ]
           (Some [2; 1]) 2),
     [ Overtake 2 2 2 1; TxLogged ByOvertake (Some "0x01"%string);
       Finish 2 2; TxLogged ByFinish (Some "0x01"%string);
       Finish 2 1; TxLogged ByFinish (Some "0x01"%string);
       FinalRanking [2; 1] ]).
Proof. vm_compute; reflexivity. Qed.

(** The sample roster in the calm world: nobody bursts or crashes, the
    racers move by their speed stat, [Blaze] and [Thunder] each pass a
    finished racer once, and the last one crosses in tick 28. *)
Example calm_sample_race :
  raceLoop 27 (initState sampleRoster) calmWorld = None /\
  option_map (fun x => standings (fst x)) (raceLoop 28 (initState sampleRoster) calmWorld)
  = Some [(2, 5180%float, 1155000000000000000);
          (3, 5070%float, 1155000000000000000);
          (1, 5000%float, 1050000000000000000)].
Proof. split; vm_compute; reflexivity. Qed.


(** * The registry contract *)

Lemma range_map_app n :
  map Z.of_nat (seq 1 (S n)) = map Z.of_nat (seq 1 n) ++ [Z.of_nat (S n)].
Proof. rewrite seq_S, map_app; reflexivity. Qed.

Lemma range_In n i : In i (map Z.of_nat (seq 1 n)) <-> 1 <= i <= Z.of_nat n.
Proof.
  rewrite in_map_iff; split.
  - intros (k & <- & Hk); apply in_seq in Hk; lia.
  - intros H; exists (Z.to_nat i); split; [lia | apply in_seq; lia].
Qed.

Lemma wellFormed_constructor d : TurboRacers.wellFormed (TurboRacers.constructor d).
Proof.
  split; simpl.
  - unfold TurboRacers.MAX_UINT256; lia.
  - reflexivity.
  - intros i; destruct (1 <=? i) eqn:A, (i <? 1) eqn:B; try reflexivity; lia.
  - discriminate.
Qed.

Lemma wellFormed_mintRacer sender n sp ag co p s s' log :
  TurboRacers.wellFormed s ->
  TurboRacers.mintRacer sender n sp ag co p s = TurboRacers.Returns tt s' log ->
  TurboRacers.wellFormed s'.
Proof.
  intros [Hn Hids Hex Hr]; unfold TurboRacers.mintRacer.
  destruct (TurboRacers.is_uint8 sp && TurboRacers.is_uint8 ag
            && TurboRacers.is_uint8 co && TurboRacers.is_uint256 p)%bool eqn:T;
    [|discriminate].
  destruct (sender =? TurboRacers.owner s); [|discriminate].
  destruct (TurboRacers.MAX_UINT256 <=? TurboRacers.nextId s) eqn:M; [discriminate|].
  apply Z.leb_gt in M; simpl; intros H; inversion H; subst; clear H.
  apply andb_true_iff in T; destruct T as [T Tp].
  apply andb_true_iff in T; destruct T as [T Tc].
  apply andb_true_iff in T; destruct T as [Ts Ta].
  split; simpl.
  - lia.
  - rewrite Hids.
    replace (Z.to_nat (TurboRacers.nextId s + 1) - 1)%nat
      with (S (Z.to_nat (TurboRacers.nextId s) - 1)) by lia.
    rewrite range_map_app; f_equal; f_equal; lia.
  - intros i; unfold TurboRacers.setRacer.
    destruct (Z.eqb_spec i (TurboRacers.nextId s)) as [->|N]; simpl.
    + symmetry; apply andb_true_iff; split; [apply Z.leb_le | apply Z.ltb_lt]; lia.
    + rewrite Hex; f_equal.
      destruct (i <? TurboRacers.nextId s) eqn:A, (i <? TurboRacers.nextId s + 1) eqn:B;
        try reflexivity; lia.
  - intros i; unfold TurboRacers.setRacer.
    destruct (Z.eqb_spec i (TurboRacers.nextId s)) as [->|N]; simpl.
    + intros _; repeat split; assumption.
    + apply Hr.
Qed.

Lemma wellFormed_updatePrice sender i p s s' log :
  TurboRacers.wellFormed s ->
  TurboRacers.updatePrice sender i p s = TurboRacers.Returns tt s' log ->
  TurboRacers.wellFormed s'.
Proof.
  intros [Hn Hids Hex Hr]; unfold TurboRacers.updatePrice.
  destruct (TurboRacers.is_uint256 i && TurboRacers.is_uint256 p)%bool eqn:T;
    [|discriminate].
  destruct ((sender =? TurboRacers.owner s) || (sender =? TurboRacers.priceUpdater s))%bool;
    [|discriminate].
  destruct (TurboRacers.exists_ (TurboRacers.racers s i)) eqn:E; [|discriminate].
  simpl; intros H; inversion H; subst; clear H.
  apply andb_true_iff in T; destruct T as [_ Tp].
  split; simpl; try assumption.
  - intros j; unfold TurboRacers.setRacer.
    destruct (Z.eqb_spec j i) as [->|N]; simpl; [rewrite <- Hex; congruence | apply Hex].
  - intros j; unfold TurboRacers.setRacer.
    destruct (Z.eqb_spec j i) as [->|N]; simpl; [|apply Hr].
    intros _; destruct (Hr i E) as (A & B & C & D & _); repeat split; assumption.
Qed.

Lemma wellFormed_after sender tx s :
  TurboRacers.wellFormed s -> TurboRacers.wellFormed (TurboRacers.after sender tx s).
Proof.
  intros W; unfold TurboRacers.after.
  destruct (TurboRacers.transact sender tx s) as [[] s' log|reason] eqn:E; [|exact W].
  destruct tx; simpl in E.
  - eapply wellFormed_mintRacer; eassumption.
  - eapply wellFormed_updatePrice; eassumption.
  - unfold TurboRacers.setPriceUpdater in E.
    destruct (sender =? TurboRacers.owner s); [|discriminate].
    simpl in E; inversion E; subst; destruct W; split; assumption.
Qed.

Lemma wellFormed_afterAll txs :
  forall s, TurboRacers.wellFormed s -> TurboRacers.wellFormed (TurboRacers.afterAll txs s).
Proof.
  induction txs as [|[a tx] txs IH]; intros s W; [exact W|].
  apply IH, wellFormed_after, W.
Qed.

Lemma getRacer_Ok_iff i s :
  (exists data, TurboRacers.getRacer i s = Ok data) <->
  TurboRacers.exists_ (TurboRacers.racers s i) = true.
Proof.
  unfold TurboRacers.getRacer.
  destruct (TurboRacers.exists_ (TurboRacers.racers s i)); simpl; split;
    try discriminate; try reflexivity.
  - intros _; eexists; reflexivity.
  - intros [d H]; discriminate.
Qed.

Lemma wellFormed_count s :
  TurboRacers.wellFormed s -> TurboRacers.nextId s = TurboRacers.racerCount s + 1.
Proof.
  intros [Hn Hids _ _]; unfold TurboRacers.racerCount.
  rewrite Hids, length_map, length_seq; lia.
Qed.

(** X1: whatever transactions are sent to a freshly deployed contract, by
    whomever, the ids it lists are [1, 2, .., racerCount] in that order,
    [nextId] is [racerCount + 1], [getRacer] answers exactly for the listed
    ids (so never for [0]), and what it answers carries the id asked for and
    stats and price within their declared types. *)
Theorem registry_invariant deployer txs :
  let s := TurboRacers.afterAll txs (TurboRacers.constructor deployer) in
  TurboRacers.getAllRacerIds s
    = map Z.of_nat (seq 1 (Z.to_nat (TurboRacers.racerCount s))) /\
  TurboRacers.nextId s = TurboRacers.racerCount s + 1 /\
  (forall i, (exists data, TurboRacers.getRacer i s = Ok data) <->
             In i (TurboRacers.getAllRacerIds s)) /\
  (forall i, (exists data, TurboRacers.getRacer i s = Ok data) <->
             1 <= i <= TurboRacers.racerCount s) /\
  (forall i j n sp ag co p,
     TurboRacers.getRacer i s = Ok (j, n, sp, ag, co, p) ->
     j = i /\ 0 <= sp < 256 /\ 0 <= ag < 256 /\ 0 <= co < 256 /\ 0 <= p < 2 ^ 256).
Proof.
  intros s.
  assert (W : TurboRacers.wellFormed s)
    by apply wellFormed_afterAll, wellFormed_constructor.
  pose proof (wellFormed_count s W) as Hc.
  destruct W as [Hn Hids Hex Hr].
  assert (Hrange : forall i, TurboRacers.exists_ (TurboRacers.racers s i) = true <->
                             1 <= i <= TurboRacers.racerCount s).
  { intros i; rewrite Hex, andb_true_iff, Z.leb_le, Z.ltb_lt; lia. }
  assert (Hlist : TurboRacers.getAllRacerIds s
                  = map Z.of_nat (seq 1 (Z.to_nat (TurboRacers.racerCount s)))).
  { unfold TurboRacers.getAllRacerIds; rewrite Hids; do 2 f_equal; lia. }
  split; [exact Hlist|]; split; [exact Hc|]; split; [|split].
  - intros i; rewrite getRacer_Ok_iff, Hrange, Hlist, range_In; lia.
  - intros i; rewrite getRacer_Ok_iff; apply Hrange.
  - intros i j n sp ag co p H; unfold TurboRacers.getRacer in H.
    destruct (TurboRacers.exists_ (TurboRacers.racers s i)) eqn:E; [|discriminate].
    simpl in H; inversion H; subst; clear H.
    destruct (Hr i E) as (A & B & C & D & P).
    unfold TurboRacers.is_uint8, TurboRacers.is_uint256, TurboRacers.MAX_UINT256 in *.
    repeat match goal with
           | H : (_ && _)%bool = true |- _ => apply andb_true_iff in H; destruct H
           | H : (_ <=? _) = true |- _ => apply Z.leb_le in H
           | H : (_ <? _) = true |- _ => apply Z.ltb_lt in H
           end.
    repeat split; try assumption; lia.
Qed.


Lemma is_uint8_true z : 0 <= z < 256 -> TurboRacers.is_uint8 z = true.
Proof.
  intros H; unfold TurboRacers.is_uint8.
  apply andb_true_iff; split; [apply Z.leb_le | apply Z.ltb_lt]; lia.
Qed.

Lemma is_uint256_true z : 0 <= z < 2 ^ 256 -> TurboRacers.is_uint256 z = true.
Proof.
  intros H; unfold TurboRacers.is_uint256, TurboRacers.MAX_UINT256.
  apply andb_true_iff; split; apply Z.leb_le; lia.
Qed.

Lemma getRacer_setRacer_other m i r j s s' :
  TurboRacers.racers s' = TurboRacers.setRacer m i r ->
  m = TurboRacers.racers s -> j <> i ->
  TurboRacers.getRacer j s' = TurboRacers.getRacer j s.
Proof.
  intros H -> N; unfold TurboRacers.getRacer; rewrite H; unfold TurboRacers.setRacer.
  destruct (Z.eqb_spec j i); [contradiction | reflexivity].
Qed.

(** X2: on a well-formed registry with room for one more id, a mint by the
    owner with arguments of the declared types returns and emits
    [RacerMinted]; the new racer gets the id [nextId], which answered
    "No racer" before, and [getRacer] of that id now returns exactly what
    was minted; the id is appended to the list, the count grows by one, and
    every other id answers as before. *)
Theorem mint_then_get sender n sp ag co p s :
  TurboRacers.wellFormed s ->
  sender = TurboRacers.owner s ->
  0 <= sp < 256 -> 0 <= ag < 256 -> 0 <= co < 256 -> 0 <= p < 2 ^ 256 ->
  TurboRacers.nextId s < TurboRacers.MAX_UINT256 ->
  let i := TurboRacers.nextId s in
  exists s',
    TurboRacers.mintRacer sender n sp ag co p s
      = TurboRacers.Returns tt s' [TurboRacers.RacerMinted i n p] /\
    TurboRacers.getRacer i s = Throw "No racer" /\
    TurboRacers.getRacer i s' = Ok (i, n, sp, ag, co, p) /\
    TurboRacers.getAllRacerIds s' = TurboRacers.getAllRacerIds s ++ [i] /\
    TurboRacers.racerCount s' = TurboRacers.racerCount s + 1 /\
    (forall j, j <> i -> TurboRacers.getRacer j s' = TurboRacers.getRacer j s).
Proof.
  intros W -> Hs Ha Hc Hp Hroom i.
  unfold TurboRacers.mintRacer.
  rewrite (is_uint8_true _ Hs), (is_uint8_true _ Ha), (is_uint8_true _ Hc),
    (is_uint256_true _ Hp), Z.eqb_refl; simpl.
  destruct (TurboRacers.MAX_UINT256 <=? TurboRacers.nextId s) eqn:M;
    [apply Z.leb_le in M; lia|].
  eexists; split; [reflexivity|]; split; [|split; [|split; [|split]]].
  - unfold TurboRacers.getRacer; rewrite (TurboRacers.wf_exists s W).
    destruct (i <? TurboRacers.nextId s) eqn:L; [apply Z.ltb_lt in L; unfold i in L; lia|].
    rewrite andb_false_r; reflexivity.
  - unfold TurboRacers.getRacer, TurboRacers.setRacer; simpl; fold i.
    rewrite Z.eqb_refl; reflexivity.
  - reflexivity.
  - unfold TurboRacers.racerCount; simpl; rewrite length_app; simpl; lia.
  - intros j N; eapply getRacer_setRacer_other; [reflexivity | reflexivity | exact N].
Qed.

Lemma mint_then_get_witness :
  exists s',
    TurboRacers.mintRacer 100 "Speedster" 200 120 180 1000000000000000000
      (TurboRacers.constructor 100)
      = TurboRacers.Returns tt s'
          [TurboRacers.RacerMinted 1 "Speedster" 1000000000000000000] /\
    TurboRacers.getRacer 1 (TurboRacers.constructor 100) = Throw "No racer" /\
    TurboRacers.getRacer 1 s' = Ok (1, "Speedster"%string, 200, 120, 180, 1000000000000000000) /\
    TurboRacers.getAllRacerIds s' = [] ++ [1] /\
    TurboRacers.racerCount s' = 0 + 1 /\
    (forall j, j <> 1 ->
       TurboRacers.getRacer j s' = TurboRacers.getRacer j (TurboRacers.constructor 100)).
Proof.
  apply (mint_then_get 100 "Speedster" 200 120 180 1000000000000000000
           (TurboRacers.constructor 100));
    [apply wellFormed_constructor | reflexivity | lia | lia | lia | lia | reflexivity].
Defined.

Lemma stranger_reverts sender tx s :
  sender <> TurboRacers.owner s -> sender <> TurboRacers.priceUpdater s ->
  exists reason, TurboRacers.transact sender tx s = TurboRacers.Reverts reason.
Proof.
  intros No Nu; apply Z.eqb_neq in No, Nu; destruct tx; simpl.
  - unfold TurboRacers.mintRacer; rewrite No.
    destruct (TurboRacers.is_uint8 _ && _ && _ && _)%bool; eexists; reflexivity.
  - unfold TurboRacers.updatePrice; rewrite No, Nu.
    destruct (TurboRacers.is_uint256 _ && _)%bool; eexists; reflexivity.
  - unfold TurboRacers.setPriceUpdater; rewrite No; eexists; reflexivity.
Qed.

(** X3: transactions sent by accounts that are neither the owner nor the
    price updater all revert, whatever they are, and leave the storage as it
    was. *)
Theorem strangers_change_nothing txs s :
  Forall (fun stx => fst stx <> TurboRacers.owner s /\
                     fst stx <> TurboRacers.priceUpdater s) txs ->
  TurboRacers.afterAll txs s = s /\
  Forall (fun stx => exists reason,
            TurboRacers.transact (fst stx) (snd stx) s = TurboRacers.Reverts reason) txs.
Proof.
  induction 1 as [|[a tx] txs [No Nu] _ [IH1 IH2]]; [split; [reflexivity | constructor]|].
  simpl in No, Nu; destruct (stranger_reverts a tx s No Nu) as [reason E].
  split.
  - unfold TurboRacers.afterAll in *; simpl; unfold TurboRacers.after; rewrite E; exact IH1.
  - constructor; [exists reason; exact E | exact IH2].
Qed.

Lemma strangers_change_nothing_witness :
  TurboRacers.afterAll
    [(7, TurboRacers.MintRacer "Ghost" 255 255 255 1);
     (8, TurboRacers.UpdatePrice 1 0);
     (9, TurboRacers.SetPriceUpdater 9)]
    (TurboRacers.constructor 100) = TurboRacers.constructor 100 /\
  Forall (fun stx => exists reason,
            TurboRacers.transact (fst stx) (snd stx) (TurboRacers.constructor 100)
            = TurboRacers.Reverts reason)
    [(7, TurboRacers.MintRacer "Ghost" 255 255 255 1);
     (8, TurboRacers.UpdatePrice 1 0);
     (9, TurboRacers.SetPriceUpdater 9)].
Proof.
  apply (strangers_change_nothing _ (TurboRacers.constructor 100)).
  repeat constructor; simpl; lia.
Defined.

(** A price update by the owner or the price updater of a racer that exists
    returns, with the storage in which only that price differs. *)
Lemma updatePrice_returns sender i p s :
  sender = TurboRacers.owner s \/ sender = TurboRacers.priceUpdater s ->
  0 <= i < 2 ^ 256 -> 0 <= p < 2 ^ 256 ->
  TurboRacers.exists_ (TurboRacers.racers s i) = true ->
  TurboRacers.updatePrice sender i p s =
  TurboRacers.Returns tt
    (TurboRacers.mkStorage (TurboRacers.owner s) (TurboRacers.nextId s)
       (TurboRacers.setRacer (TurboRacers.racers s) i
          (TurboRacers.mkRacer
             (TurboRacers.id (TurboRacers.racers s i))
             (TurboRacers.name (TurboRacers.racers s i))
             (TurboRacers.speed (TurboRacers.racers s i))
             (TurboRacers.aggression (TurboRacers.racers s i))
             (TurboRacers.consistency (TurboRacers.racers s i))
             p true))
       (TurboRacers.racerIds s) (TurboRacers.priceUpdater s))
    [TurboRacers.PriceUpdated i (TurboRacers.currentPrice (TurboRacers.racers s i)) p sender].
Proof.
  intros Hauth Hi Hp E; unfold TurboRacers.updatePrice.
  rewrite (is_uint256_true _ Hi), (is_uint256_true _ Hp), E; simpl.
  assert (A : ((sender =? TurboRacers.owner s)
               || (sender =? TurboRacers.priceUpdater s))%bool = true).
  { apply orb_true_iff; destruct Hauth as [->| ->]; [left | right]; apply Z.eqb_refl. }
  rewrite A; reflexivity.
Qed.

(** X4: when the owner or the price updater updates the price of a racer the
    registry holds, the call returns and emits [PriceUpdated] with the old
    and the new price; [getRacer] then gives the new price with the same id,
    name and stats; every other id answers as before, and the id list, the
    owner, the updater and [nextId] are unchanged. *)
Theorem updatePrice_then_get sender i p s j n sp ag co old :
  sender = TurboRacers.owner s \/ sender = TurboRacers.priceUpdater s ->
  0 <= i < 2 ^ 256 -> 0 <= p < 2 ^ 256 ->
  TurboRacers.getRacer i s = Ok (j, n, sp, ag, co, old) ->
  exists s',
    TurboRacers.updatePrice sender i p s
      = TurboRacers.Returns tt s' [TurboRacers.PriceUpdated i old p sender] /\
    TurboRacers.getRacer i s' = Ok (j, n, sp, ag, co, p) /\
    (forall k, k <> i -> TurboRacers.getRacer k s' = TurboRacers.getRacer k s) /\
    TurboRacers.getAllRacerIds s' = TurboRacers.getAllRacerIds s /\
    TurboRacers.owner s' = TurboRacers.owner s /\
    TurboRacers.priceUpdater s' = TurboRacers.priceUpdater s /\
    TurboRacers.nextId s' = TurboRacers.nextId s.
Proof.
  intros Hauth Hi Hp Hget; unfold TurboRacers.getRacer in Hget.
  destruct (TurboRacers.exists_ (TurboRacers.racers s i)) eqn:E; [|discriminate].
  simpl in Hget; inversion Hget; subst; clear Hget.
  rewrite (updatePrice_returns sender i p s Hauth Hi Hp E).
  eexists; split; [reflexivity|]; split; [|split; [|repeat split]].
  - unfold TurboRacers.getRacer, TurboRacers.setRacer; simpl.
    rewrite Z.eqb_refl; reflexivity.
  - intros k N; eapply getRacer_setRacer_other; [reflexivity | reflexivity | exact N].
Qed.

Lemma updatePrice_then_get_witness :
  exists s',
    TurboRacers.updatePrice 100 1 1100
      (TurboRacers.after 100 (TurboRacers.MintRacer "Solo" 200 0 200 1000)
         (TurboRacers.constructor 100))
      = TurboRacers.Returns tt s' [TurboRacers.PriceUpdated 1 1000 1100 100] /\
    TurboRacers.getRacer 1 s' = Ok (1, "Solo"%string, 200, 0, 200, 1100) /\
    (forall k, k <> 1 ->
       TurboRacers.getRacer k s'
       = TurboRacers.getRacer k
           (TurboRacers.after 100 (TurboRacers.MintRacer "Solo" 200 0 200 1000)
              (TurboRacers.constructor 100))) /\
    TurboRacers.getAllRacerIds s' = [1] /\
    TurboRacers.owner s' = 100 /\
    TurboRacers.priceUpdater s' = 100 /\
    TurboRacers.nextId s' = 2.
Proof.
  apply (updatePrice_then_get 100 1 1100
           (TurboRacers.after 100 (TurboRacers.MintRacer "Solo" 200 0 200 1000)
              (TurboRacers.constructor 100)) 1 "Solo" 200 0 200 1000);
    [left; reflexivity | lia | lia | reflexivity].
Defined.

(** One transaction leaves the id, name and stats of a racer of a
    well-formed registry as they are, and its price too unless the
    transaction is an [updatePrice] of that racer to the new price by the
    owner or the price updater. *)
Lemma after_keeps_racer sender tx s i j n sp ag co p :
  TurboRacers.wellFormed s ->
  TurboRacers.getRacer i s = Ok (j, n, sp, ag, co, p) ->
  exists p',
    TurboRacers.getRacer i (TurboRacers.after sender tx s) = Ok (j, n, sp, ag, co, p') /\
    (p' <> p ->
     tx = TurboRacers.UpdatePrice i p' /\
     (sender = TurboRacers.owner s \/ sender = TurboRacers.priceUpdater s)).
Proof.
  intros W Hget; unfold TurboRacers.after.
  destruct (TurboRacers.transact sender tx s) as [[] s' log|reason] eqn:E;
    [|exists p; split; [exact Hget | congruence]].
  assert (Ex : TurboRacers.exists_ (TurboRacers.racers s i) = true).
  { apply getRacer_Ok_iff; eexists; exact Hget. }
  destruct tx as [m msp mag mco mp | k q | u]; simpl in E.
  - unfold TurboRacers.mintRacer in E.
    destruct (TurboRacers.is_uint8 _ && _ && _ && _)%bool; [|discriminate].
    destruct (sender =? TurboRacers.owner s); [|discriminate].
    destruct (TurboRacers.MAX_UINT256 <=? TurboRacers.nextId s); [discriminate|].
    simpl in E; inversion E; subst; clear E.
    exists p; split; [|congruence].
    rewrite <- Hget; eapply getRacer_setRacer_other; [reflexivity | reflexivity|].
    rewrite (TurboRacers.wf_exists s W) in Ex.
    apply andb_true_iff in Ex; destruct Ex as [_ L]; apply Z.ltb_lt in L; lia.
  - unfold TurboRacers.updatePrice in E.
    destruct (TurboRacers.is_uint256 k && TurboRacers.is_uint256 q)%bool; [|discriminate].
    destruct ((sender =? TurboRacers.owner s)
              || (sender =? TurboRacers.priceUpdater s))%bool eqn:A; [|discriminate].
    destruct (TurboRacers.exists_ (TurboRacers.racers s k)) eqn:Ek; [|discriminate].
    simpl in E; inversion E; subst; clear E.
    destruct (Z.eq_dec i k) as [->|N].
    + exists q; split.
      * unfold TurboRacers.getRacer in *; unfold TurboRacers.setRacer; simpl.
        rewrite Z.eqb_refl; simpl; rewrite Ek in *; simpl in *.
        inversion Hget; subst; reflexivity.
      * intros _; split; [reflexivity|].
        apply orb_true_iff in A; destruct A as [A|A]; apply Z.eqb_eq in A; auto.
    + exists p; split; [|congruence].
      rewrite <- Hget; eapply getRacer_setRacer_other; [reflexivity | reflexivity | exact N].
  - unfold TurboRacers.setPriceUpdater in E.
    destruct (sender =? TurboRacers.owner s); [|discriminate].
    simpl in E; inversion E; subst; clear E.
    exists p; split; [exact Hget | congruence].
Qed.

(** X5: once a well-formed registry holds a racer, no sequence of
    transactions, by whomever, changes its id, name or stats or makes it
    disappear: [getRacer] keeps answering with them, only the price may
    differ. *)
Theorem identity_is_immutable txs s i j n sp ag co p :
  TurboRacers.wellFormed s ->
  TurboRacers.getRacer i s = Ok (j, n, sp, ag, co, p) ->
  exists p',
    TurboRacers.getRacer i (TurboRacers.afterAll txs s) = Ok (j, n, sp, ag, co, p').
Proof.
  revert s p; induction txs as [|[a tx] txs IH]; intros s p W Hget; [exists p; exact Hget|].
  destruct (after_keeps_racer a tx s i j n sp ag co p W Hget) as (p1 & H1 & _).
  apply (IH (TurboRacers.after a tx s) p1 (wellFormed_after a tx s W) H1).
Qed.

Lemma identity_is_immutable_witness :
  exists p',
    TurboRacers.getRacer 1
      (TurboRacers.afterAll
         [(100, TurboRacers.UpdatePrice 1 7); (100, TurboRacers.MintRacer "Two" 1 2 3 4)]
         (TurboRacers.after 100 (TurboRacers.MintRacer "Solo" 200 0 200 1000)
            (TurboRacers.constructor 100)))
    = Ok (1, "Solo"%string, 200, 0, 200, p').
Proof.
  apply (identity_is_immutable _ _ 1 1 "Solo" 200 0 200 1000);
    [apply wellFormed_after, wellFormed_constructor | reflexivity].
Defined.

(** X6: in a well-formed registry the price of a racer differs after a
    transaction only if that transaction is [updatePrice] of that racer to
    that price, sent by the owner or the price updater. *)
Theorem price_changes_only_by_update sender tx s i j n sp ag co p j' n' sp' ag' co' p' :
  TurboRacers.wellFormed s ->
  TurboRacers.getRacer i s = Ok (j, n, sp, ag, co, p) ->
  TurboRacers.getRacer i (TurboRacers.after sender tx s) = Ok (j', n', sp', ag', co', p') ->
  p' <> p ->
  tx = TurboRacers.UpdatePrice i p' /\
  (sender = TurboRacers.owner s \/ sender = TurboRacers.priceUpdater s).
Proof.
  intros W Hget Hget' Hne.
  destruct (after_keeps_racer sender tx s i j n sp ag co p W Hget) as (q & Hq & Hchange).
  rewrite Hq in Hget'; inversion Hget'; subst; apply Hchange, Hne.
Qed.

Lemma price_changes_only_by_update_witness :
  TurboRacers.UpdatePrice 1 1100 = TurboRacers.UpdatePrice 1 1100 /\
  (100 = TurboRacers.owner
           (TurboRacers.after 100 (TurboRacers.MintRacer "Solo" 200 0 200 1000)
              (TurboRacers.constructor 100)) \/
   100 = TurboRacers.priceUpdater
           (TurboRacers.after 100 (TurboRacers.MintRacer "Solo" 200 0 200 1000)
              (TurboRacers.constructor 100))).
Proof.
  apply (price_changes_only_by_update 100 (TurboRacers.UpdatePrice 1 1100)
           (TurboRacers.after 100 (TurboRacers.MintRacer "Solo" 200 0 200 1000)
              (TurboRacers.constructor 100))
           1 1 "Solo" 200 0 200 1000 1 "Solo" 200 0 200 1100);
    [apply wellFormed_after, wellFormed_constructor | reflexivity | reflexivity | lia].
Defined.

(** X7: when the owner names a new price updater, the call returns, emits
    [PriceUpdaterChanged] and changes nothing else; from then on the new
    updater's price updates of existing racers go through, the owner's still
    do, and every price update by the previous updater, if it is neither the
    owner nor the new updater, reverts. *)
Theorem updater_handover sender u s :
  sender = TurboRacers.owner s ->
  exists s',
    TurboRacers.setPriceUpdater sender u s
      = TurboRacers.Returns tt s'
          [TurboRacers.PriceUpdaterChanged (TurboRacers.priceUpdater s) u] /\
    TurboRacers.priceUpdater s' = u /\
    TurboRacers.owner s' = TurboRacers.owner s /\
    TurboRacers.nextId s' = TurboRacers.nextId s /\
    TurboRacers.racers s' = TurboRacers.racers s /\
    TurboRacers.racerIds s' = TurboRacers.racerIds s /\
    (forall who i p,
       who = u \/ who = TurboRacers.owner s ->
       0 <= i < 2 ^ 256 -> 0 <= p < 2 ^ 256 ->
       (exists data, TurboRacers.getRacer i s = Ok data) ->
       exists s'' log, TurboRacers.updatePrice who i p s' = TurboRacers.Returns tt s'' log) /\
    (forall i p,
       TurboRacers.priceUpdater s <> u ->
       TurboRacers.priceUpdater s <> TurboRacers.owner s ->
       exists reason,
         TurboRacers.updatePrice (TurboRacers.priceUpdater s) i p s'
         = TurboRacers.Reverts reason).
Proof.
  intros ->; unfold TurboRacers.setPriceUpdater; rewrite Z.eqb_refl; simpl.
  eexists; split; [reflexivity|]; repeat (split; [reflexivity|]); split.
  - intros who i p Hwho Hi Hp Hget; apply getRacer_Ok_iff in Hget.
    eexists _, _.
    apply (updatePrice_returns who i p
             (TurboRacers.mkStorage (TurboRacers.owner s) (TurboRacers.nextId s)
                (TurboRacers.racers s) (TurboRacers.racerIds s) u)); try assumption.
    simpl; destruct Hwho; [right | left]; assumption.
  - intros i p Nu No; unfold TurboRacers.updatePrice; simpl.
    apply Z.eqb_neq in Nu, No; rewrite Nu, No.
    destruct (TurboRacers.is_uint256 i && TurboRacers.is_uint256 p)%bool;
      eexists; reflexivity.
Qed.


Lemma updater_handover_witness :
  exists s',
    TurboRacers.setPriceUpdater 100 55 (TurboRacers.constructor 100)
      = TurboRacers.Returns tt s' [TurboRacers.PriceUpdaterChanged 100 55] /\
    TurboRacers.priceUpdater s' = 55.
Proof.
  destruct (updater_handover 100 55 (TurboRacers.constructor 100) eq_refl)
    as (s' & E & U & _).
  exists s'; split; assumption.
Defined.

(** * The API server *)

(** X8: [POST /update-price] answers 200 only to a request whose token is
    the server's non-empty secret, on a server with a wallet, with truthy
    [id] and [price] that the binding encodes as [i] and [p], and when
    [updatePrice(i, p)] sent by the wallet returned, so the wallet is the
    owner or the price updater; the chain after it is the one that call
    left, in which the price of racer [i] is [p].  After any other answer
    the chain is as it was. *)
Theorem update_price_effect toUint256 srv req chain :
  let out := updatePriceRoute toUint256 srv req chain in
  (fst out = Json200 tt ->
   x_admin_token req = Some (ADMIN_SECRET srv) /\
   ADMIN_SECRET srv <> ""%string /\
   exists signer vi vp i p log,
     wallet srv = Some signer /\
     body_id req = Some vi /\ body_price req = Some vp /\
     truthy (Some vi) = true /\ truthy (Some vp) = true /\
     toUint256 vi = Some i /\ toUint256 vp = Some p /\
     (signer = TurboRacers.owner chain \/ signer = TurboRacers.priceUpdater chain) /\
     TurboRacers.updatePrice signer i p chain = TurboRacers.Returns tt (snd out) log /\
     exists j n sp ag co, TurboRacers.getRacer i (snd out) = Ok (j, n, sp, ag, co, p)) /\
  (fst out <> Json200 tt -> snd out = chain).
Proof.
  unfold updatePriceRoute.
  destruct (x_admin_token req) as [token|]; [|split; [discriminate | reflexivity]].
  destruct (String.eqb token "") eqn:Te; [split; [discriminate | reflexivity]|].
  destruct (String.eqb token (ADMIN_SECRET srv)) eqn:Ts;
    [|split; [discriminate | reflexivity]].
  apply String.eqb_eq in Ts; subst token; simpl.
  destruct (wallet srv) as [signer|]; [|split; [discriminate | reflexivity]].
  destruct (truthy (body_id req)) eqn:Ti; [|split; [discriminate | reflexivity]].
  destruct (truthy (body_price req)) eqn:Tp; [|split; [discriminate | reflexivity]].
  simpl.
  destruct (body_id req) as [vi|]; [|split; [discriminate | reflexivity]].
  destruct (body_price req) as [vp|]; [|split; [discriminate | reflexivity]].
  destruct (toUint256 vi) as [i|] eqn:Ui; [|split; [discriminate | reflexivity]].
  destruct (toUint256 vp) as [p|] eqn:Up; [|split; [discriminate | reflexivity]].
  destruct (TurboRacers.updatePrice signer i p chain) as [[] chain' log|reason] eqn:E;
    [|split; [discriminate | reflexivity]].
  simpl; split; [intros _ | intros H; exfalso; apply H; reflexivity].
  split; [reflexivity|]; split; [intros H; rewrite H in Te; discriminate|].
  exists signer, vi, vp, i, p, log; repeat (split; [reflexivity || assumption|]).
  pose proof E as E0; unfold TurboRacers.updatePrice in E.
  destruct (TurboRacers.is_uint256 i && TurboRacers.is_uint256 p)%bool; [|discriminate].
  destruct ((signer =? TurboRacers.owner chain)
            || (signer =? TurboRacers.priceUpdater chain))%bool eqn:A; [|discriminate].
  destruct (TurboRacers.exists_ (TurboRacers.racers chain i)) eqn:Ex; [|discriminate].
  simpl in E; inversion E; subst; clear E.
  split; [|split; [exact E0|]].
  - apply orb_true_iff in A; destruct A as [A|A]; apply Z.eqb_eq in A; auto.
  - unfold TurboRacers.getRacer, TurboRacers.setRacer; simpl.
    rewrite Z.eqb_refl; simpl.
    eexists _, _, _, _, _; reflexivity.
Qed.

(** X9: a request that carries the server's non-empty secret, to a server
    whose wallet is the owner or the price updater, with truthy [id] and
    [price] that the binding encodes as the id [i] of a racer the registry
    holds and as a price [p] of 256 bits, is answered 200, and afterwards
    [getRacer(i)] gives the price [p] with the id, name and stats it had. *)
Theorem update_price_accepts toUint256 srv req chain signer vi vp i p j n sp ag co old :
  x_admin_token req = Some (ADMIN_SECRET srv) ->
  ADMIN_SECRET srv <> ""%string ->
  wallet srv = Some signer ->
  signer = TurboRacers.owner chain \/ signer = TurboRacers.priceUpdater chain ->
  body_id req = Some vi -> body_price req = Some vp ->
  truthy (Some vi) = true -> truthy (Some vp) = true ->
  toUint256 vi = Some i -> toUint256 vp = Some p ->
  0 <= i < 2 ^ 256 -> 0 <= p < 2 ^ 256 ->
  TurboRacers.getRacer i chain = Ok (j, n, sp, ag, co, old) ->
  exists chain',
    updatePriceRoute toUint256 srv req chain = (Json200 tt, chain') /\
    TurboRacers.getRacer i chain' = Ok (j, n, sp, ag, co, p) /\
    (forall k, k <> i -> TurboRacers.getRacer k chain' = TurboRacers.getRacer k chain).
Proof.
  intros Ht Hne Hw Hauth Hbi Hbp Hti Htp Hi Hp Ri Rp Hget.
  assert (Ex : TurboRacers.exists_ (TurboRacers.racers chain i) = true)
    by (apply getRacer_Ok_iff; eexists; exact Hget).
  pose proof (updatePrice_returns signer i p chain Hauth Ri Rp Ex) as E.
  eexists; split; [|split].
  - unfold updatePriceRoute; rewrite Ht, String.eqb_refl.
    apply String.eqb_neq in Hne; rewrite Hne; simpl.
    rewrite Hw, Hbi, Hbp, Hti, Htp; simpl; rewrite Hi, Hp, E; reflexivity.
  - unfold TurboRacers.getRacer in *; unfold TurboRacers.setRacer; simpl.
    rewrite Z.eqb_refl; simpl; rewrite Ex in Hget; simpl in Hget.
    inversion Hget; subst; reflexivity.
  - intros k N; eapply getRacer_setRacer_other; [reflexivity | reflexivity | exact N].
Qed.

Lemma update_price_accepts_witness :
  exists chain',
    updatePriceRoute toyUint256 (mkServer "s3cret" (Some 55))
      (mkUpdateRequest (Some "s3cret"%string) (Some (JNumber 2)) (Some (JString "2220")))
      twoRacerChain = (Json200 tt, chain') /\
    TurboRacers.getRacer 2 chain' = Ok (2, "Leader"%string, 120, 0, 200, 2220) /\
    (forall k, k <> 2 ->
       TurboRacers.getRacer k chain' = TurboRacers.getRacer k twoRacerChain).
Proof.
  apply (update_price_accepts toyUint256 (mkServer "s3cret" (Some 55))
           (mkUpdateRequest (Some "s3cret"%string) (Some (JNumber 2)) (Some (JString "2220")))
           twoRacerChain 55 (JNumber 2) (JString "2220") 2 2220 2 "Leader" 120 0 200 2019);
    try reflexivity; try lia; try discriminate.
  right; reflexivity.
Defined.

(** X10: with [ADMIN_SECRET] unset or empty in both processes the server's
    secret is its default, "changeme", and the engine's token its default,
    "some-secret"; the server answers every request whose [x-admin-token]
    header arrives as that token with 403 "forbidden", whatever the body,
    the wallet and the chain, which it leaves as it is.  With the variable
    set to a non-empty value both read that value, and a request whose
    header arrives as that value passes the token check: the answer is not
    403. *)
Theorem defaults_are_forbidden toUint256 env wal bi bp chain :
  (env = None \/ env = Some ""%string ->
   serverSecret env = "changeme"%string /\
   engineToken env = "some-secret"%string /\
   updatePriceRoute toUint256 (mkServer (serverSecret env) wal)
     (mkUpdateRequest (Some "some-secret"%string) bi bp) chain
   = (Status 403 "forbidden", chain)) /\
  (forall v, env = Some v -> v <> ""%string ->
   serverSecret env = v /\ engineToken env = v /\
   fst (updatePriceRoute toUint256 (mkServer (serverSecret env) wal)
          (mkUpdateRequest (Some v) bi bp) chain)
   <> Status 403 "forbidden").
Proof.
  split.
  - intros [->| ->]; repeat split.
  - intros v -> N.
    unfold updatePriceRoute, serverSecret, engineToken, envOr; simpl.
    apply String.eqb_neq in N; rewrite N, String.eqb_refl; simpl.
    split; [reflexivity|]; split; [reflexivity|].
    destruct wal; [|discriminate].
    destruct (truthy bi), (truthy bp); simpl; try discriminate.
    destruct bi as [vi|], bp as [vp|]; try discriminate.
    destruct (toUint256 vi), (toUint256 vp); try discriminate.
    destruct (TurboRacers.updatePrice _ _ _ _); discriminate.
Qed.

Lemma Number_of_uint_exact z : 0 <= z < 2 ^ 53 -> Number_of_uint z = z.
Proof.
  intros H; unfold Number_of_uint.
  destruct (Z.log2 z - 52 <=? 0) eqn:L; [reflexivity|].
  apply Z.leb_gt in L.
  destruct (Z.eq_dec z 0) as [->|N]; [simpl in L; lia|].
  assert (Z.log2 z < 53) by (apply Z.log2_lt_pow2; lia); lia.
Qed.

Lemma collectRacers_roster chain ids :
  (forall i, In i ids ->
     TurboRacers.exists_ (TurboRacers.racers chain i) = true /\
     TurboRacers.id (TurboRacers.racers chain i) = i /\ 0 <= i < 2 ^ 53) ->
  collectRacers chain ids =
  Ok (map (fun i =>
             let r := TurboRacers.racers chain i in
             mkEntity i (TurboRacers.name r) (TurboRacers.speed r)
                      (TurboRacers.aggression r) (TurboRacers.consistency r)
                      (TurboRacers.currentPrice r)) ids).
Proof.
  induction ids as [|i ids IH]; intros H; [reflexivity|].
  destruct (H i (or_introl eq_refl)) as (Ex & Hid & Hr).
  simpl; unfold TurboRacers.getRacer; rewrite Ex; simpl.
  rewrite IH by (intros k Hk; apply H; right; exact Hk).
  rewrite Hid, (Number_of_uint_exact i Hr); reflexivity.
Qed.

Lemma racersRoute_rosterOf chain :
  TurboRacers.wellFormed chain ->
  TurboRacers.nextId chain <= 2 ^ 53 ->
  racersRoute chain = Json200 (rosterOf chain).
Proof.
  intros W Hb; unfold racersRoute, rosterOf, TurboRacers.getAllRacerIds.
  rewrite collectRacers_roster; [reflexivity|].
  intros i Hi; rewrite (TurboRacers.wf_racerIds chain W) in Hi.
  apply range_In in Hi.
  assert (Ex : TurboRacers.exists_ (TurboRacers.racers chain i) = true).
  { rewrite (TurboRacers.wf_exists chain W).
    apply andb_true_iff; split; [apply Z.leb_le | apply Z.ltb_lt]; lia. }
  split; [exact Ex|]; split; [apply (TurboRacers.wf_racer chain W i Ex) | lia].
Qed.

(** X11: on a well-formed registry that has handed out ids below [2 ^ 53]
    only, [GET /racers] answers 200 with one entity per listed id, in the
    order of the list, carrying that id and the name, stats and price that
    [getRacer] gives for it. *)
Theorem racers_route_lists_registry chain :
  TurboRacers.wellFormed chain ->
  TurboRacers.nextId chain <= 2 ^ 53 ->
  exists out,
    racersRoute chain = Json200 out /\
    map e_id out = TurboRacers.getAllRacerIds chain /\
    (forall e, In e out ->
       TurboRacers.getRacer (e_id e) chain
       = Ok (e_id e, e_name e, e_speed e, e_aggression e, e_consistency e,
             e_currentPrice e)).
Proof.
  intros W Hb; exists (rosterOf chain); split; [apply racersRoute_rosterOf; assumption|].
  split.
  - unfold rosterOf, TurboRacers.getAllRacerIds; rewrite map_map; simpl; apply map_id.
  - intros e He; unfold rosterOf in He; apply in_map_iff in He.
    destruct He as (i & <- & Hi); simpl.
    rewrite (TurboRacers.wf_racerIds chain W) in Hi; apply range_In in Hi.
    assert (Ex : TurboRacers.exists_ (TurboRacers.racers chain i) = true).
    { rewrite (TurboRacers.wf_exists chain W).
      apply andb_true_iff; split; [apply Z.leb_le | apply Z.ltb_lt]; lia. }
    unfold TurboRacers.getRacer; rewrite Ex; simpl.
    rewrite (proj1 (TurboRacers.wf_racer chain W i Ex)); reflexivity.
Qed.

Lemma racers_route_lists_registry_witness :
  exists out,
    racersRoute twoRacerChain = Json200 out /\
    map e_id out = TurboRacers.getAllRacerIds twoRacerChain /\
    (forall e, In e out ->
       TurboRacers.getRacer (e_id e) twoRacerChain
       = Ok (e_id e, e_name e, e_speed e, e_aggression e, e_consistency e,
             e_currentPrice e)).
Proof.
  apply (racers_route_lists_registry twoRacerChain).
  - apply wellFormed_afterAll, wellFormed_constructor.
  - vm_compute; discriminate.
Defined.


(** * The mint script *)

Lemma rosterOf_mint n sp ag co p s :
  TurboRacers.wellFormed s ->
  rosterOf
    (TurboRacers.mkStorage (TurboRacers.owner s) (TurboRacers.nextId s + 1)
       (TurboRacers.setRacer (TurboRacers.racers s) (TurboRacers.nextId s)
          (TurboRacers.mkRacer (TurboRacers.nextId s) n sp ag co p true))
       (TurboRacers.racerIds s ++ [TurboRacers.nextId s]) (TurboRacers.priceUpdater s))
  = rosterOf s ++ [mkEntity (TurboRacers.nextId s) n sp ag co p].
Proof.
  intros W; unfold rosterOf; simpl; rewrite map_app; f_equal.
  - apply map_ext_in; intros i Hi.
    rewrite (TurboRacers.wf_racerIds s W) in Hi; apply range_In in Hi.
    pose proof (TurboRacers.wf_nextId s W).
    unfold TurboRacers.setRacer.
    destruct (Z.eqb_spec i (TurboRacers.nextId s)); [lia | reflexivity].
  - simpl; unfold TurboRacers.setRacer; rewrite Z.eqb_refl; reflexivity.
Qed.

(** X12: run by the owner on a well-formed registry, with rows that fit the
    argument types and ids staying below [2 ^ 53], the mint script completes,
    leaves a well-formed registry with one more racer per row, and
    [GET /racers] then answers the roster it answered before followed by the
    rows in order, with consecutive ids from the former [nextId]. *)
Theorem mint_script_then_racers deployer rows :
  forall chain,
    TurboRacers.wellFormed chain ->
    deployer = TurboRacers.owner chain ->
    Forall typedRow rows ->
    TurboRacers.nextId chain + Z.of_nat (List.length rows) <= 2 ^ 53 ->
    exists chain',
      mintAll deployer rows chain = (true, chain') /\
      TurboRacers.wellFormed chain' /\
      TurboRacers.racerCount chain'
        = TurboRacers.racerCount chain + Z.of_nat (List.length rows) /\
      racersRoute chain
        = Json200 (rosterOf chain) /\
      racersRoute chain'
        = Json200 (rosterOf chain ++ rosterFrom (TurboRacers.nextId chain) rows).
Proof.
  induction rows as [|r rows IH]; intros chain W Ho Ht Hb.
  - exists chain; simpl mintAll; simpl List.length in *; simpl rosterFrom.
    rewrite app_nil_r.
    assert (R : racersRoute chain = Json200 (rosterOf chain))
      by (apply racersRoute_rosterOf; [exact W | lia]).
    split; [reflexivity|]; split; [exact W|]; split; [lia|]; split; exact R.
  - inversion Ht as [|? ? (Hs & Ha & Hc & Hp) Ht']; subst.
    assert (Hlen : Z.of_nat (List.length (r :: rows)) = 1 + Z.of_nat (List.length rows))
      by (simpl List.length; lia).
    rewrite Hlen in *.
    assert (Hlt : TurboRacers.nextId chain < TurboRacers.MAX_UINT256).
    { unfold TurboRacers.MAX_UINT256.
      assert (2 ^ 53 < 2 ^ 256 - 1) by (vm_compute; reflexivity); lia. }
    pose proof (fun s' log => wellFormed_mintRacer (TurboRacers.owner chain) (m_name r)
                  (m_speed r) (m_aggression r) (m_consistency r) (m_price r) chain s' log W)
      as Wm.
    simpl mintAll; unfold TurboRacers.mintRacer in *.
    rewrite (is_uint8_true _ Hs), (is_uint8_true _ Ha), (is_uint8_true _ Hc),
      (is_uint256_true _ Hp), Z.eqb_refl in *; simpl in *.
    destruct (TurboRacers.MAX_UINT256 <=? TurboRacers.nextId chain) eqn:M;
      [apply Z.leb_le in M; lia|].
    specialize (Wm _ _ eq_refl).
    match goal with
    | |- exists c, mintAll _ _ ?s1 = _ /\ _ =>
        destruct (IH s1 Wm eq_refl Ht') as (chain' & E & W' & C' & _ & R');
          [simpl; lia|]
    end.
    exists chain'; split; [exact E|]; split; [exact W'|]; split; [|split].
    + rewrite C'; unfold TurboRacers.racerCount; simpl; rewrite length_app; simpl; lia.
    + apply racersRoute_rosterOf; [exact W | lia].
    + rewrite R', rosterOf_mint by exact W; simpl; rewrite <- app_assoc; reflexivity.
Qed.

Lemma mint_script_then_racers_witness :
  exists chain',
    mintAll 100 sampleRows (TurboRacers.constructor 100) = (true, chain') /\
    TurboRacers.getAllRacerIds chain' = [1; 2; 3] /\
    racersRoute chain' = Json200 sampleRoster.
Proof.
  destruct (mint_script_then_racers 100 sampleRows (TurboRacers.constructor 100))
    as (chain' & E & W' & C' & _ & R').
  - apply wellFormed_constructor.
  - reflexivity.
  - repeat constructor; simpl; lia.
  - vm_compute; discriminate.
  - exists chain'; split; [exact E|]; split; [|exact R'].
    vm_compute in E; inversion E; reflexivity.
Defined.

(** * More on prices *)

(** X13: truncation makes small prices insensitive: a non-negative price is
    left unchanged by the overtake bonus exactly when it is below 10, by the
    crash penalty exactly when it is below 5, and by the finish bonus
    exactly when it is below 20; above these a bonus raises and the penalty
    lowers it. *)
Theorem small_prices_do_not_move p :
  0 <= p ->
  (repriced ByOvertake p = p <-> p < 10) /\
  (repriced ByCrash p = p <-> p < 5) /\
  (repriced ByFinish p = p <-> p < 20) /\
  p <= repriced ByOvertake p /\ repriced ByCrash p <= p /\ p <= repriced ByFinish p.
Proof.
  intros Hp.
  rewrite (repriced_floor ByOvertake p Hp), (repriced_floor ByCrash p Hp),
    (repriced_floor ByFinish p Hp).
  assert (A : p * 10 / 100 = 0 <-> p < 10).
  { rewrite Z.div_small_iff by lia; lia. }
  assert (B : p * 20 / 100 = 0 <-> p < 5).
  { rewrite Z.div_small_iff by lia; lia. }
  assert (C : p * 5 / 100 = 0 <-> p < 20).
  { rewrite Z.div_small_iff by lia; lia. }
  assert (0 <= p * 10 / 100) by (apply Z.div_pos; lia).
  assert (0 <= p * 20 / 100) by (apply Z.div_pos; lia).
  assert (0 <= p * 5 / 100) by (apply Z.div_pos; lia).
  repeat split; try lia.
Qed.

Lemma small_prices_do_not_move_witness :
  (repriced ByOvertake 9 = 9 <-> 9 < 10) /\
  (repriced ByCrash 9 = 9 <-> 9 < 5) /\
  (repriced ByFinish 9 = 9 <-> 9 < 20) /\
  9 <= repriced ByOvertake 9 /\ repriced ByCrash 9 <= 9 /\ 9 <= repriced ByFinish 9.
Proof. apply (small_prices_do_not_move 9); lia. Defined.

(** X14: each price adjustment keeps the order of non-negative prices: of
    two prices that go through the same event the lower does not end up
    above the higher. *)
Theorem repricing_is_monotone c p q :
  0 <= p -> p <= q -> repriced c p <= repriced c q.
Proof.
  intros Hp Hq.
  rewrite (repriced_floor c p Hp), (repriced_floor c q) by lia.
  destruct c.
  - assert (p * 10 / 100 <= q * 10 / 100) by (apply Z.div_le_mono; lia); lia.
  - replace (p - p * 20 / 100) with ((p * 80 + 99) / 100).
    + replace (q - q * 20 / 100) with ((q * 80 + 99) / 100).
      * apply Z.div_le_mono; lia.
      * pose proof (Z.div_mod (q * 20) 100 ltac:(lia)).
        pose proof (Z.mod_pos_bound (q * 20) 100 ltac:(lia)).
        symmetry; apply Z.div_unique with (r := 99 - (q * 20) mod 100); lia.
    + pose proof (Z.div_mod (p * 20) 100 ltac:(lia)).
      pose proof (Z.mod_pos_bound (p * 20) 100 ltac:(lia)).
      symmetry; apply Z.div_unique with (r := 99 - (p * 20) mod 100); lia.
  - assert (p * 5 / 100 <= q * 5 / 100) by (apply Z.div_le_mono; lia); lia.
Qed.

Lemma repricing_is_monotone_witness : repriced ByCrash 4 <= repriced ByCrash 5.
Proof. apply (repricing_is_monotone ByCrash 4 5); lia. Defined.


(** X21: a server whose wallet is neither the owner nor the price updater
    answers a well-formed update request that carries its secret with
    500 "failed" and leaves the registry as it was.  Once the owner has run
    the set-updater script with the address of that wallet, the same request
    is answered 200 and [getRacer] gives the new price.  Run by anyone but
    the owner, or without one of its two variables, the script fails and
    changes nothing. *)
Theorem server_needs_the_updater_role toUint256 srv req chain deployer contractAddress
    signer vi vp i p j n sp ag co old :
  x_admin_token req = Some (ADMIN_SECRET srv) ->
  ADMIN_SECRET srv <> ""%string ->
  wallet srv = Some signer ->
  signer <> TurboRacers.owner chain -> signer <> TurboRacers.priceUpdater chain ->
  deployer = TurboRacers.owner chain ->
  body_id req = Some vi -> body_price req = Some vp ->
  truthy (Some vi) = true -> truthy (Some vp) = true ->
  toUint256 vi = Some i -> toUint256 vp = Some p ->
  0 <= i < 2 ^ 256 -> 0 <= p < 2 ^ 256 ->
  TurboRacers.getRacer i chain = Ok (j, n, sp, ag, co, old) ->
  updatePriceRoute toUint256 srv req chain = (Status 500 "failed", chain) /\
  (exists chain' chain'',
     setUpdater deployer (Some contractAddress) (Some signer) chain = (true, chain') /\
     updatePriceRoute toUint256 srv req chain' = (Json200 tt, chain'') /\
     TurboRacers.getRacer i chain'' = Ok (j, n, sp, ag, co, p)) /\
  (forall who ca sa,
     who <> TurboRacers.owner chain \/ ca = None \/ sa = None ->
     setUpdater who ca sa chain = (false, chain)).
Proof.
  intros Ht Hne Hw No Nu Hd Hbi Hbp Hti Htp Hi Hp Ri Rp Hget.
  assert (Ex : TurboRacers.exists_ (TurboRacers.racers chain i) = true)
    by (apply getRacer_Ok_iff; eexists; exact Hget).
  assert (Route : forall c,
            updatePriceRoute toUint256 srv req c
            = match TurboRacers.updatePrice signer i p c with
              | TurboRacers.Returns _ c' _ => (Json200 tt, c')
              | TurboRacers.Reverts _ => (Status 500 "failed", c)
              end).
  { intros c; unfold updatePriceRoute; rewrite Ht, String.eqb_refl.
    apply String.eqb_neq in Hne; rewrite Hne; simpl.
    rewrite Hw, Hbi, Hbp, Hti, Htp; simpl; rewrite Hi, Hp; reflexivity. }
  split; [|split].
  - rewrite Route; unfold TurboRacers.updatePrice.
    rewrite (is_uint256_true _ Ri), (is_uint256_true _ Rp); simpl.
    apply Z.eqb_neq in No, Nu; rewrite No, Nu; reflexivity.
  - unfold setUpdater, TurboRacers.setPriceUpdater; subst deployer.
    rewrite Z.eqb_refl; simpl.
    eexists _, _; split; [reflexivity|].
    rewrite Route, updatePrice_returns;
      [split; [reflexivity|] | right; reflexivity | exact Ri | exact Rp | exact Ex].
    unfold TurboRacers.getRacer in *; unfold TurboRacers.setRacer; simpl.
    rewrite Z.eqb_refl; simpl; rewrite Ex in Hget; simpl in Hget.
    inversion Hget; subst; reflexivity.
  - intros who ca sa H; unfold setUpdater.
    destruct ca as [c|]; [|reflexivity]; destruct sa as [a|]; [|reflexivity].
    destruct H as [H|[H|H]]; try discriminate.
    unfold TurboRacers.setPriceUpdater; apply Z.eqb_neq in H; rewrite H; reflexivity.
Qed.

Lemma server_needs_the_updater_role_witness :
  updatePriceRoute toyUint256 (mkServer "s3cret" (Some 55))
    (mkUpdateRequest (Some "s3cret"%string) (Some (JNumber 2)) (Some (JString "2220")))
    (TurboRacers.afterAll
       [ (100, TurboRacers.MintRacer "Rookie" 100 0 200 1000);
         (100, TurboRacers.MintRacer "Leader" 120 0 200 2019) ]
       (TurboRacers.constructor 100))
  = (Status 500 "failed",
     TurboRacers.afterAll
       [ (100, TurboRacers.MintRacer "Rookie" 100 0 200 1000);
         (100, TurboRacers.MintRacer "Leader" 120 0 200 2019) ]
       (TurboRacers.constructor 100)) /\
  exists chain' chain'',
    setUpdater 100 (Some 4096) (Some 55)
      (TurboRacers.afterAll
         [ (100, TurboRacers.MintRacer "Rookie" 100 0 200 1000);
           (100, TurboRacers.MintRacer "Leader" 120 0 200 2019) ]
         (TurboRacers.constructor 100)) = (true, chain') /\
    updatePriceRoute toyUint256 (mkServer "s3cret" (Some 55))
      (mkUpdateRequest (Some "s3cret"%string) (Some (JNumber 2)) (Some (JString "2220")))
      chain' = (Json200 tt, chain'') /\
    TurboRacers.getRacer 2 chain'' = Ok (2, "Leader"%string, 120, 0, 200, 2220).
Proof.
  destruct (server_needs_the_updater_role toyUint256 (mkServer "s3cret" (Some 55))
              (mkUpdateRequest (Some "s3cret"%string) (Some (JNumber 2))
                 (Some (JString "2220")))
              (TurboRacers.afterAll
                 [ (100, TurboRacers.MintRacer "Rookie" 100 0 200 1000);
                   (100, TurboRacers.MintRacer "Leader" 120 0 200 2019) ]
                 (TurboRacers.constructor 100))
              100 4096 55 (JNumber 2) (JString "2220") 2 2220 2 "Leader" 120 0 200 2019)
    as (A & B & _);
    try reflexivity; try lia; try discriminate.
  split; [exact A | exact B].
Defined.

(** * More on the race engine *)

Section KeptByOvertakes.
Variable P : World -> World -> Prop.
Hypothesis P_refl : forall w, P w w.
Hypothesis P_trans : forall w1 w2 w3, P w1 w2 -> P w2 w3 -> P w1 w3.
Hypothesis overtake_keeps :
  forall t prev i x st w, P w (snd (overtakeAt t prev i x st w)).

Lemma bind_keeps {A B} (m : M A) (f : A -> M B) w :
  P w (snd (m w)) -> (forall a w1, P w1 (snd (f a w1))) -> P w (snd (bind m f w)).
Proof.
  intros Hm Hf; unfold bind; destruct (m w) as [[a|e] w1]; simpl in *; [|exact Hm].
  eapply P_trans; [exact Hm | apply Hf].
Qed.

Lemma overtakeLoop_keeps t prev cur :
  forall i st w, P w (snd (overtakeLoop t prev cur i st w)).
Proof.
  induction cur as [|x rest IH]; intros i st w; simpl; [apply P_refl|].
  apply bind_keeps; [apply overtake_keeps | intros; apply IH].
Qed.

Lemma detectOvertakes_keeps t last st w : P w (snd (detectOvertakes t last st w)).
Proof.
  destruct last as [prev|]; simpl; [|apply P_refl].
  apply bind_keeps; [apply overtakeLoop_keeps | intros; apply P_refl].
Qed.

Hypothesis advance_keeps : forall r w, P w (snd (advanceOne r w)).
Hypothesis crash_keeps : forall t r w, P w (snd (crashOne t r w)).
Hypothesis finish_keeps : forall t r w, P w (snd (finishOne t r w)).
Hypothesis final_keeps : forall rs w, P w (snd (finalRanking rs w)).

Lemma tickBody_keeps rs w : P w (snd (tickBody rs w)).
Proof.
  unfold tickBody.
  apply bind_keeps; [apply forEach_keeps; auto | intros].
  apply bind_keeps; [apply detectOvertakes_keeps | intros].
  apply bind_keeps; [apply forEach_keeps; auto | intros].
  apply bind_keeps; [apply forEach_keeps; auto | intros; apply P_refl].
Qed.

Lemma ticks_keeps n : forall rs w, P w (snd (ticks n rs w)).
Proof.
  induction n as [|n IH]; intros rs w; simpl; [apply P_refl|].
  apply bind_keeps; [apply tickBody_keeps | intros; apply IH].
Qed.

Lemma raceLoop_keeps fuel :
  forall rs w res w', raceLoop fuel rs w = Some (res, w') -> P w w'.
Proof.
  induction fuel as [|fuel IH]; intros rs w res w' H; simpl in H; [discriminate|].
  pose proof (tickBody_keeps rs w) as Ht.
  destruct (tickBody rs w) as [[rs1|e] w1]; simpl in Ht.
  - destruct (allFinished rs1).
    + pose proof (final_keeps rs1 w1) as Hf.
      assert (H0 : finalRanking rs1 w1 = (res, w')) by congruence.
      rewrite H0 in Hf; simpl in Hf.
      eapply P_trans; eassumption.
    + eapply P_trans; [exact Ht | eapply IH; exact H].
  - inversion H; subst; exact Ht.
Qed.

End KeptByOvertakes.

Lemma balanced_refl w : balanced w w.
Proof. unfold balanced; lia. Qed.

Lemma balanced_trans w1 w2 w3 : balanced w1 w2 -> balanced w2 w3 -> balanced w1 w3.
Proof. unfold balanced; lia. Qed.

Lemma balanced_overtakeAt t prev i x st w : balanced w (snd (overtakeAt t prev i x st w)).
Proof.
  unfold overtakeAt.
  destruct (indexOf x prev >? i); [|apply balanced_refl].
  destruct (find _ st) as [r|]; [|apply balanced_refl].
  unfold bind, console_log; rewrite pushPrice_spec.
  unfold ret, balanced; cbn [snd posted console net draws drawn].
  rewrite events_pushed; unfold events; simpl; lia.
Qed.

Lemma balanced_advanceOne r w : balanced w (snd (advanceOne r w)).
Proof.
  unfold advanceOne; destruct (finished r); [apply balanced_refl|].
  unfold balanced, events; simpl; lia.
Qed.

Lemma balanced_crashOne t r w : balanced w (snd (crashOne t r w)).
Proof.
  rewrite crashOne_spec; destruct (finished r); [apply balanced_refl|].
  destruct (draws w (drawn w) <? crashProb r)%float;
    [|unfold balanced, events; simpl; lia].
  unfold balanced; cbn [snd posted]; rewrite events_pushed; unfold events; simpl; lia.
Qed.

Lemma balanced_finishOne t r w : balanced w (snd (finishOne t r w)).
Proof.
  rewrite finishOne_spec; destruct (crossesLine r); [|apply balanced_refl].
  unfold balanced; cbn [snd posted]; rewrite events_pushed; unfold events; simpl; lia.
Qed.

Lemma balanced_finalRanking rs w : balanced w (snd (finalRanking rs w)).
Proof. unfold balanced, events; simpl; lia. Qed.

(** X15: the engine sends exactly one price update per event: over any
    number of ticks, and over a whole race including its final ranking, as
    many requests are sent as Overtake, Crash and Finish lines are printed,
    whatever the network answers. *)
Theorem one_request_per_event n rs w :
  (List.length (posted (snd (ticks n rs w))) + List.length (events w)
   = List.length (posted w) + List.length (events (snd (ticks n rs w))))%nat /\
  (forall res w', raceLoop n rs w = Some (res, w') ->
     (List.length (posted w') + List.length (events w)
      = List.length (posted w) + List.length (events w'))%nat).
Proof.
  split.
  - apply (ticks_keeps balanced balanced_refl balanced_trans balanced_overtakeAt
             balanced_advanceOne balanced_crashOne balanced_finishOne).
  - apply (raceLoop_keeps balanced balanced_refl balanced_trans balanced_overtakeAt
             balanced_advanceOne balanced_crashOne balanced_finishOne
             balanced_finalRanking).
Qed.


Section DrawCount.
Variable body : Racer -> M Racer.
Variable k : Racer -> nat.
Hypothesis body_draws :
  forall r w, exists r' w', body r w = (Ok r', w') /\ drawn w' = (drawn w + k r)%nat.

Lemma forEach_draws l :
  forall w, exists l' w',
    forEach body l w = (Ok l', w') /\ drawn w' = (drawn w + list_sum (map k l))%nat.
Proof.
  induction l as [|r l IH]; intros w; simpl.
  - exists [], w; split; [reflexivity | lia].
  - destruct (body_draws r w) as (r' & w1 & E1 & D1).
    destruct (IH w1) as (l' & w2 & E2 & D2).
    exists (r' :: l'), w2; split; [|lia].
    rewrite (bind_Ok _ _ _ _ _ E1), (bind_Ok _ _ _ _ _ E2); reflexivity.
Qed.
End DrawCount.

Lemma list_sum_unfinished c l :
  list_sum (map (fun r => if finished r then O else c) l) = (c * unfinished l)%nat.
Proof.
  unfold unfinished; induction l as [|r l IH]; simpl; [lia|].
  destruct (finished r); simpl; rewrite IH; lia.
Qed.

Lemma advanceOne_draws r w :
  exists r' w',
    advanceOne r w = (Ok r', w') /\
    drawn w' = (drawn w + (if finished r then 0 else 2))%nat.
Proof.
  unfold advanceOne; destruct (finished r); eexists _, _; split;
    try reflexivity; simpl; lia.
Qed.

Lemma crashOne_draws t r w :
  exists r' w',
    crashOne t r w = (Ok r', w') /\
    drawn w' = (drawn w + (if finished r then 0 else 1))%nat.
Proof.
  rewrite crashOne_spec; destruct (finished r); [eexists _, _; split; [reflexivity | lia]|].
  destruct (draws w (drawn w) <? crashProb r)%float;
    eexists _, _; split; try reflexivity; simpl; lia.
Qed.

Lemma finishOne_draws t r w :
  exists r' w', finishOne t r w = (Ok r', w') /\ drawn w' = (drawn w + 0)%nat.
Proof.
  rewrite finishOne_spec; destruct (crossesLine r);
    eexists _, _; split; try reflexivity; simpl; lia.
Qed.

Lemma overtakeAt_draws t prev i x st w :
  drawn (snd (overtakeAt t prev i x st w)) = drawn w.
Proof.
  unfold overtakeAt.
  destruct (indexOf x prev >? i); [|reflexivity].
  destruct (find _ st) as [r|]; [|reflexivity].
  unfold bind, console_log; rewrite pushPrice_spec; reflexivity.
Qed.

Lemma unfinished_Forall2 (R : Racer -> Racer -> Prop) l l' :
  (forall a b, R a b -> finished b = finished a) ->
  Forall2 R l l' -> unfinished l' = unfinished l.
Proof.
  intros H; unfold unfinished; induction 1 as [|a b l l' Hab _ IH]; [reflexivity|].
  simpl; rewrite (H a b Hab); destruct (finished a); simpl; rewrite IH; reflexivity.
Qed.

Lemma unfinished_Permutation l l' : Permutation l l' -> unfinished l = unfinished l'.
Proof.
  intros H; unfold unfinished; apply Permutation_length.
  induction H; simpl.
  - constructor.
  - destruct (negb (finished x)); [apply perm_skip|]; assumption.
  - destruct (negb (finished x)), (negb (finished y));
      try apply perm_swap; apply Permutation_refl.
  - eapply perm_trans; eassumption.
Qed.

Lemma advanced_finished d a b : advanced d a b -> finished b = finished a.
Proof. intros [[_ ->]|[_ (n & ->)]]; reflexivity. Qed.

(** X16: a tick consumes exactly three random numbers per racer that is
    unfinished when the tick starts, two in the distance pass and one in
    the crash pass, whatever events fire and whatever the network answers;
    a finished racer consumes none. *)
Theorem draws_per_tick rs w :
  drawn (snd (tickBody rs w)) = (drawn w + 3 * unfinished (state rs))%nat.
Proof.
  destruct (tickBody_anatomy rs w)
    as (st1 & w1 & st3 & w3 & st4 & w4 & st5 & w5 &
        E1 & F1 & E3 & F3 & _ & E4 & _ & E5 & _ & E & _).
  rewrite E; simpl.
  destruct (forEach_draws advanceOne _ advanceOne_draws (state rs) w)
    as (l1 & v1 & G1 & D1).
  rewrite E1 in G1; inversion G1; subst l1 v1; clear G1.
  rewrite list_sum_unfinished in D1.
  pose proof (detectOvertakes_keeps (fun a b => drawn b = drawn a)
                ltac:(reflexivity) ltac:(intros; congruence) overtakeAt_draws
                (S (tick rs)) (lastOrder rs) (Array_sort byDistanceDesc st1) w1) as D3.
  rewrite E3 in D3; simpl in D3.
  destruct (forEach_draws (crashOne (S (tick rs))) _ (crashOne_draws (S (tick rs))) st3 w3)
    as (l4 & v4 & G4 & D4).
  rewrite E4 in G4; inversion G4; subst l4 v4; clear G4.
  rewrite list_sum_unfinished in D4.
  destruct (forEach_draws (finishOne (S (tick rs))) (fun _ => O)
              (finishOne_draws (S (tick rs))) st4 w4) as (l5 & v5 & G5 & D5).
  rewrite E5 in G5; inversion G5; subst l5 v5; clear G5.
  assert (Hz : list_sum (map (fun _ : Racer => O) st4) = O)
    by (clear; induction st4; simpl; auto).
  rewrite Hz in D5.
  assert (U3 : unfinished st3 = unfinished (state rs)).
  { rewrite (unfinished_Forall2 priceOnly _ _ (fun a b H => proj2 (proj2 H)) F3).
    rewrite <- (unfinished_Permutation _ _ (Array_sort_perm byDistanceDesc st1)).
    apply (unfinished_Forall2 _ _ _ (advanced_finished (draws w)) F1). }
  rewrite U3 in D4; lia.
Qed.

(** X17: overtake detection against a recorded order completes, and every
    event line it prints is an Overtake line for an id that is both in the
    recorded order and in the array, with a new rank of at least 1, below
    the old rank, and an old rank of at most the length of the recorded
    order; an id missing from the recorded order never gets one. *)
Theorem overtake_lines_are_sane t prev st w :
  exists st' w' new,
    detectOvertakes t (Some prev) st w = (Ok (st', map id st), w') /\
    events w' = new ++ events w /\
    Forall (fun l => exists x o n,
              l = Overtake t x o n /\ In x prev /\ In x (map id st) /\
              1 <= n /\ n < o /\ o <= Z.of_nat (List.length prev) /\
              n <= Z.of_nat (List.length st)) new.
Proof.
  destruct (detectOvertakes_ok t (Some prev) st w) as (st' & w' & E & _ & _ & Ev).
  exists st', w', (rev (expectedOvertakes t (Some prev) (map id st))).
  split; [exact E|]; split; [exact Ev|].
  apply Forall_rev, Forall_forall; intros l Hl; simpl in Hl.
  apply overtakeEvents_In in Hl; destruct Hl as (i & x & Hn & Hgt & ->).
  exists x, (indexOf x prev + 1), (Z.of_nat i + 1); split; [reflexivity|].
  pose proof (indexOf_range x prev) as Hr.
  assert (Hi : (i < List.length (map id st))%nat)
    by (apply nth_error_Some; congruence).
  rewrite length_map in Hi.
  repeat split; try lia.
  - destruct (in_dec Z.eq_dec x prev) as [|N]; [assumption|].
    rewrite (indexOf_missing x prev N) in Hgt; lia.
  - eapply nth_error_In; exact Hn.
Qed.

Lemma pastTheLine_tick rs w :
  Forall pastTheLine (state rs) ->
  exists rs' w', tickBody rs w = (Ok rs', w') /\ Forall pastTheLine (state rs').
Proof.
  intros H0.
  destruct (tickBody_anatomy rs w)
    as (st1 & w1 & st3 & w3 & st4 & w4 & st5 & w5 &
        _ & F1 & _ & F3 & _ & _ & F4 & _ & F5 & E & _).
  eexists _, w5; split; [exact E|]; simpl.
  assert (H1 : Forall pastTheLine st1).
  { eapply Forall_Forall2; [|exact H0 | exact F1].
    intros a b Ha [[_ ->]|[Fa (n & ->)]]; [exact Ha|].
    unfold pastTheLine; simpl; congruence. }
  assert (H3 : Forall pastTheLine st3).
  { eapply Forall_Forall2;
      [|eapply Permutation_Forall; [apply Array_sort_perm | exact H1] | exact F3].
    intros a b Ha (_ & D & F); unfold pastTheLine in *; rewrite D, F; exact Ha. }
  assert (H4 : Forall pastTheLine st4).
  { eapply Forall_Forall2; [|exact H3 | exact F4].
    intros a b Ha [[_ ->]|[Fa (n & ->)]]; [exact Ha|].
    destruct (draws w n <? crashProb a)%float; [|exact Ha].
    unfold pastTheLine, crashed; simpl; congruence. }
  eapply Forall_Forall2; [|exact H4 | exact F5].
  intros a b Ha ->; destruct (crossesLine a) eqn:C; [|exact Ha].
  unfold pastTheLine, finishedNow; simpl; intros _.
  unfold crossesLine in C; apply andb_true_iff in C; apply C.
Qed.

(** X18: a racer marked finished is at or beyond [RACE_DISTANCE]: from an
    array in which this holds, any number of ticks completes in an array in
    which it holds, and when the loop exits every racer of the final ranking
    is at or beyond [RACE_DISTANCE]. *)
Theorem finished_means_past_the_line n rs w :
  Forall pastTheLine (state rs) ->
  (exists rs' w', ticks n rs w = (Ok rs', w') /\ Forall pastTheLine (state rs')) /\
  (forall res w', raceLoop n rs w = Some (res, w') ->
     exists rs', res = Ok rs' /\
       Forall (fun r => (RACE_DISTANCE <=? distance r)%float = true) (state rs')).
Proof.
  intros H0.
  assert (T : forall k rs0 w0, Forall pastTheLine (state rs0) ->
                exists rs' w', ticks k rs0 w0 = (Ok rs', w') /\
                               Forall pastTheLine (state rs')).
  { induction k as [|k IH]; intros rs0 w0 H; [exists rs0, w0; split; [reflexivity | exact H]|].
    destruct (pastTheLine_tick rs0 w0 H) as (rs1 & w1 & E1 & H1).
    destruct (IH rs1 w1 H1) as (rs' & w' & E & H').
    exists rs', w'; split; [rewrite (ticks_S _ _ _ _ _ E1); exact E | exact H']. }
  split; [apply T, H0|].
  intros res w' H; apply raceLoop_Some in H.
  destruct H as (k & rs_k & w_k & _ & Hk & Hfin & _ & Hfinal).
  destruct (T k rs w H0) as (rs1 & w1 & E & H1).
  rewrite E in Hk; inversion Hk; subst rs1 w1; clear Hk.
  destruct (finalRanking_ok rs_k w_k) as (rs2 & w2 & E2 & _ & P2).
  rewrite E2 in Hfinal; inversion Hfinal; subst; clear Hfinal.
  exists rs2; split; [reflexivity|].
  eapply Permutation_Forall; [exact P2|].
  unfold allFinished in Hfin; rewrite forallb_forall in Hfin.
  rewrite Forall_forall in *; intros r Hr; apply (H1 r Hr), Hfin, Hr.
Qed.

Lemma finished_means_past_the_line_witness :
  (exists rs' w',
     ticks 28 (initState sampleRoster) calmWorld = (Ok rs', w') /\
     Forall pastTheLine (state rs')) /\
  (forall res w', raceLoop 28 (initState sampleRoster) calmWorld = Some (res, w') ->
     exists rs', res = Ok rs' /\
       Forall (fun r => (RACE_DISTANCE <=? distance r)%float = true) (state rs')).
Proof.
  apply (finished_means_past_the_line 28 (initState sampleRoster) calmWorld).
  repeat constructor; discriminate.
Defined.


Lemma reordered_identity l l' :
  reordered l l' -> Permutation (map identity l) (map identity l').
Proof.
  intros (m & Pm & Fm).
  assert (E : map identity l' = map identity m).
  { clear Pm; induction Fm as [|a b m l' Hab _ IH]; simpl; [reflexivity|].
    rewrite IH; f_equal; unfold identity.
    rewrite (evolves_id _ _ Hab).
    destruct (evolves_stats _ _ Hab) as (-> & -> & -> & ->); reflexivity. }
  rewrite E; apply Permutation_map, Pm.
Qed.

Lemma grown_refl w : grown w w.
Proof. exists []; reflexivity. Qed.

Lemma grown_trans w1 w2 w3 : grown w1 w2 -> grown w2 w3 -> grown w1 w3.
Proof.
  intros [a Ha] [b Hb]; exists (b ++ a); rewrite Hb, Ha, app_assoc; reflexivity.
Qed.

Lemma grown_overtakeAt t prev i x st w : grown w (snd (overtakeAt t prev i x st w)).
Proof.
  unfold overtakeAt.
  destruct (indexOf x prev >? i); [|apply grown_refl].
  destruct (find _ st) as [r|]; [|apply grown_refl].
  unfold bind, console_log; rewrite pushPrice_spec.
  eexists [_; _]; reflexivity.
Qed.

Lemma grown_advanceOne r w : grown w (snd (advanceOne r w)).
Proof. unfold advanceOne; destruct (finished r); exists []; reflexivity. Qed.

Lemma grown_crashOne t r w : grown w (snd (crashOne t r w)).
Proof.
  rewrite crashOne_spec; destruct (finished r); [apply grown_refl|].
  destruct (draws w (drawn w) <? crashProb r)%float; [|exists []; reflexivity].
  eexists [_; _]; reflexivity.
Qed.

Lemma grown_finishOne t r w : grown w (snd (finishOne t r w)).
Proof.
  rewrite finishOne_spec; destruct (crossesLine r); [|apply grown_refl].
  eexists [_; _]; reflexivity.
Qed.

(** X19: what [runRace] does.  It prints the fetching line first.  When
    [apiFetch] throws, the exception leaves [runRace] and nothing else
    happens.  With a falsy reply or an empty roster it prints the error line
    and returns, without drawing a number or handing a request to [fetch].
    With a non-empty roster it prints the roster and the starting line, and
    then is either still running after [fuel] ticks or has returned, never
    with an exception, an array in which every racer is finished and which
    holds exactly the racers of the roster, each with its id, name and stats
    unchanged, in the order of the final ranking that is the last line
    printed; the lines printed before the loop are still on the console. *)
Theorem runRace_outcome fuel fetched w :
  let opening := fun roster =>
    Starting :: Roster (map (fun e => (e_id e, e_name e)) roster)
    :: Fetching :: console w in
  match runRace fuel fetched w with
  | None =>
      exists roster,
        fetched = Ok (Some roster) /\ roster <> [] /\
        raceLoop fuel (initState roster)
          (mkWorld (draws w) (drawn w) (net w) (posted w) (opening roster)) = None
  | Some (res, w') =>
      (exists e,
         fetched = Throw e /\ res = Throw e /\
         w' = mkWorld (draws w) (drawn w) (net w) (posted w) (Fetching :: console w)) \/
      ((fetched = Ok None \/ fetched = Ok (Some [])) /\ res = Ok None /\
       w' = mkWorld (draws w) (drawn w) (net w) (posted w)
              (NoRacers :: Fetching :: console w)) \/
      (exists roster rs newer,
         fetched = Ok (Some roster) /\ roster <> [] /\
         res = Ok (Some rs) /\ allFinished rs = true /\
         Permutation (map identityOf roster) (map identity (state rs)) /\
         console w' = FinalRanking (map id (state rs)) :: newer ++ opening roster)
  end.
Proof.
  intros opening; unfold runRace, console_log.
  destruct fetched as [[[|e roster]|]|err];
    cbn [snd draws drawn net posted console];
    [right; left; auto | | right; left; auto | left; exists err; auto].
  assert (Hroster : map (fun s => (id s, name s)) (state (initState (e :: roster)))
                    = map (fun e0 => (e_id e0, e_name e0)) (e :: roster)).
  { change (state (initState (e :: roster))) with (map initRacer (e :: roster)).
    generalize (e :: roster); intros l; rewrite map_map; reflexivity. }
  rewrite Hroster; fold (opening (e :: roster)).
  set (w2 := mkWorld (draws w) (drawn w) (net w) (posted w) (opening (e :: roster))).
  destruct (raceLoop fuel (initState (e :: roster)) w2) as [[res w']|] eqn:E;
    [|exists (e :: roster); split; [reflexivity | split; [discriminate | exact E]]].
  pose proof (raceLoop_no_throw fuel (initState (e :: roster)) w2) as NT.
  destruct res as [rs|err]; [|exfalso; apply (NT err w'); exact E].
  right; right.
  apply raceLoop_Some in E.
  destruct E as (n & rs_n & w_n & _ & Hn & Hfin & _ & Hfinal).
  destruct (ticks_ok n (initState (e :: roster)) w2) as (rs1 & w1 & E1 & _ & _ & R).
  pose proof (ticks_keeps grown grown_refl grown_trans grown_overtakeAt
                grown_advanceOne grown_crashOne grown_finishOne
                n (initState (e :: roster)) w2) as [newer G].
  rewrite E1 in Hn, G; inversion Hn; subst rs1 w1; clear Hn; simpl in G.
  unfold finalRanking, bind, console_log, ret in Hfinal; inversion Hfinal; subst; clear Hfinal.
  exists (e :: roster); eexists _, newer; split; [reflexivity|]; split; [discriminate|].
  split; [reflexivity|]; split; [|split].
  - unfold allFinished in *; simpl.
    rewrite <- (forallb_Permutation _ _ _ (Array_sort_perm byDistanceDesc (state rs_n))).
    exact Hfin.
  - cbn [state].
    eapply perm_trans; [|apply Permutation_map, Array_sort_perm].
    eapply perm_trans; [|apply reordered_identity, R].
    assert (I : map identity (state (initState (e :: roster)))
                = map identityOf (e :: roster)).
    { change (state (initState (e :: roster))) with (map initRacer (e :: roster)).
      generalize (e :: roster); intros l; rewrite map_map; reflexivity. }
    rewrite I; apply Permutation_refl.
  - cbn [console state]; rewrite G; reflexivity.
Qed.

(** ** The ranking is in order *)

(** X20: the sort by distance leaves the array in order: no racer is
    directly followed by one that the comparator puts first, so neighbours
    are in descending order of distance or tied; sorting a sorted array
    changes nothing; and the array that the loop returns as final ranking is
    in that order: none of its racers is directly followed by one with a
    greater distance. *)
Theorem ranking_is_in_order l fuel rs w :
  inOrder byDistanceDesc (Array_sort byDistanceDesc l) = true /\
  Array_sort byDistanceDesc (Array_sort byDistanceDesc l) = Array_sort byDistanceDesc l /\
  (forall rs' w', raceLoop fuel rs w = Some (Ok rs', w') ->
     inOrder byDistanceDesc (state rs') = true) /\
  (forall rs' w' l1 a b l2,
     raceLoop fuel rs w = Some (Ok rs', w') -> state rs' = l1 ++ a :: b :: l2 ->
     (distance a <? distance b)%float = false).
Proof.
  pose proof (Array_sort_is_inOrder byDistanceDesc byDistanceDesc_antisym) as S.
  assert (Final : forall rs' w', raceLoop fuel rs w = Some (Ok rs', w') ->
                    inOrder byDistanceDesc (state rs') = true).
  { intros rs' w' H; apply raceLoop_Some in H.
    destruct H as (n & rs_n & w_n & _ & _ & _ & _ & Hfinal).
    unfold finalRanking, bind, console_log, ret in Hfinal; inversion Hfinal; subst.
    apply S. }
  split; [apply S|]; split; [apply Array_sort_inOrder, S|]; split; [exact Final|].
  intros rs' w' l1 a b l2 H E.
  eapply (proj1 (descending_adjacent (state rs')) (Final rs' w' H)); exact E.
Qed.

